(** * A functional Hash Array Mapped Trie: the code of lleo/hamt-functional

    Shallow embedding of the Go sources:
    - package [hamt] (64-bit hashcodes, 6 bits per level): bit utilities,
      leaves, compressed table, [Put]/[Get]/[Del];
    - package [hamt32_functional] (30 of 32 bits, 5 bits per level):
      bit utilities, [Hamt.Get]/[Put]/[Del]/[copyUp], with the compressed
      table of package [hamt32].

    Unsigned machine integers are [Z] with the wrap-around written out;
    Go's [uint] is taken to be 64 bits wide.  A call that can panic returns
    a [result]. *)

From Stdlib Require Import ZArith List Lia Bool Sorting.Sorted.
From Stdlib Require Import Strings.Byte.
Import ListNotations.
Local Open Scope Z_scope.

(** ** Go run-time outcomes and machine arithmetic *)
Module Go.

Inductive panic : Type :=
| IndexOutOfRange      (* slice or array index, slice bounds *)
| NilDereference       (* method call through a nil interface *)
| InterfaceConversion  (* failed single-value type assertion x.(T) *)
| ExplicitPanic.       (* panic("...") in the source *)

Inductive result (A : Type) : Type :=
| Ok (a : A)
| Panic (p : panic)
| OutOfFuel.
Arguments Ok {A} a.
Arguments Panic {A} p.
Arguments OutOfFuel {A}.

Definition bind {A B : Type} (r : result A) (f : A -> result B) : result B :=
  match r with
  | Ok a => f a
  | Panic p => Panic p
  | OutOfFuel => OutOfFuel
  end.

Definition is_ok {A : Type} (r : result A) : bool :=
  match r with Ok _ => true | _ => false end.

(** Truncation to w-bit unsigned integers. *)
Definition u8 (x : Z) : Z := x mod 2 ^ 8.
Definition u32 (x : Z) : Z := x mod 2 ^ 32.
Definition u64 (x : Z) : Z := x mod 2 ^ 64.

(** [x << n] and [x &^ y] on unsigned operands of the given width. *)
Definition shl32 (x n : Z) : Z := u32 (Z.shiftl x n).
Definition shl64 (x n : Z) : Z := u64 (Z.shiftl x n).
Definition andnot (x y : Z) : Z := Z.ldiff x y.

(** [s[i]] on a slice. *)
Definition index_slice {A : Type} (s : list A) (i : Z) : result A :=
  if i <? 0 then Panic IndexOutOfRange
  else match nth_error s (Z.to_nat i) with
       | Some a => Ok a
       | None => Panic IndexOutOfRange
       end.

(** [append(s[:i], append([]T{x}, s[i:]...)...)]: [s[:i]] and [s[i:]] panic
    when [i > len(s)] (here cap = len matters only for the bound of the
    slice expression, which the model takes at [len]). *)
Definition insert_slice {A : Type} (s : list A) (i : Z) (x : A) : result (list A) :=
  if (i <? 0) || (Z.of_nat (length s) <? i) then Panic IndexOutOfRange
  else Ok (firstn (Z.to_nat i) s ++ x :: skipn (Z.to_nat i) s).

(** [s[i] = x]. *)
Definition store_slice {A : Type} (s : list A) (i : Z) (x : A) : result (list A) :=
  if (i <? 0) || (Z.of_nat (length s) <=? i) then Panic IndexOutOfRange
  else Ok (firstn (Z.to_nat i) s ++ x :: skipn (S (Z.to_nat i)) s).

(** [append(s[:i], s[i+1:]...)]: [s[i+1:]] panics when [i+1 > len(s)]. *)
Definition remove_slice {A : Type} (s : list A) (i : Z) : result (list A) :=
  if (i <? 0) || (Z.of_nat (length s) <? i + 1) then Panic IndexOutOfRange
  else Ok (firstn (Z.to_nat i) s ++ skipn (S (Z.to_nat i)) s).

End Go.
Import Go.

Declare Scope go_scope.
Delimit Scope go_scope with go.
Notation "x <- c ;; k" := (Go.bind c (fun x => k))
  (at level 61, c at next level, right associativity) : go_scope.
Notation "' pat <- c ;; k" := (Go.bind c (fun x => match x with pat => k end))
  (at level 61, pat pattern, c at next level, right associativity) : go_scope.
Local Open Scope go_scope.

(** ** Keys: byte slices *)
Module Keys.

Definition key := list byte.

(** byteSlicesEqual (package hamt): the loop compares position by position
    once the lengths agree. *)
Fixpoint bytes_loop (k1 k2 : list byte) : bool :=
  match k1, k2 with
  | b1 :: r1, b2 :: r2 => if Byte.eqb b1 b2 then bytes_loop r1 r2 else false
  | _, _ => true
  end.

Definition byteSlicesEqual (k1 k2 : key) : bool :=
  if negb (Nat.eqb (length k1) (length k2)) then false
  else if Nat.eqb (length k1) 0 then true
  else bytes_loop k1 k2.

Lemma bytes_loop_eq : forall k1 k2,
  length k1 = length k2 -> (bytes_loop k1 k2 = true <-> k1 = k2).
Proof.
  induction k1 as [|b1 r1 IH]; intros [|b2 r2] Hlen; simpl in *; try discriminate.
  - split; auto.
  - injection Hlen as Hlen. destruct (Byte.eqb b1 b2) eqn:E.
    + apply Byte.byte_dec_bl in E. subst b2. rewrite (IH r2 Hlen).
      split; [intros ->; reflexivity | intros H; injection H; auto].
    + split; [discriminate|]. intros H; injection H as Hb Hr. subst b2.
      rewrite (Byte.byte_dec_lb eq_refl) in E. discriminate.
Qed.

Lemma byteSlicesEqual_spec : forall k1 k2, byteSlicesEqual k1 k2 = true <-> k1 = k2.
Proof.
  intros k1 k2. unfold byteSlicesEqual.
  destruct (Nat.eqb (length k1) (length k2)) eqn:El; simpl.
  - apply Nat.eqb_eq in El. destruct (Nat.eqb (length k1) 0) eqn:E0.
    + apply Nat.eqb_eq in E0. destruct k1; [|discriminate].
      destruct k2; [|discriminate]. split; auto.
    + apply bytes_loop_eq; assumption.
  - apply Nat.eqb_neq in El. split; [discriminate|]. intros ->. congruence.
Qed.

Lemma byteSlicesEqual_refl : forall k, byteSlicesEqual k k = true.
Proof. intros k. apply byteSlicesEqual_spec. reflexivity. Qed.

Lemma byteSlicesEqual_neq : forall k1 k2, k1 <> k2 -> byteSlicesEqual k1 k2 = false.
Proof.
  intros k1 k2 H. destruct (byteSlicesEqual k1 k2) eqn:E; auto.
  apply byteSlicesEqual_spec in E. contradiction.
Qed.

Lemma byteSlicesEqual_sym : forall k1 k2, byteSlicesEqual k1 k2 = byteSlicesEqual k2 k1.
Proof.
  intros k1 k2. destruct (byteSlicesEqual k1 k2) eqn:E.
  - apply byteSlicesEqual_spec in E. subst. symmetry. apply byteSlicesEqual_refl.
  - destruct (byteSlicesEqual k2 k1) eqn:E'; auto.
    apply byteSlicesEqual_spec in E'. subst. rewrite byteSlicesEqual_refl in E. discriminate.
Qed.

End Keys.
Import Keys.

(** ** Leaves (package hamt: flatLeaf, collisionLeaf)

    The repository's leaves.  A [leafI] is an interface value: it holds a
    [flatLeaf], a pointer to a [flatLeaf], or a pointer to a
    [collisionLeaf]; the nil interface is [None] where it can occur.  The two
    packages differ in the hashcode a leaf recomputes from its key and in
    what [NewFlatLeaf] returns: package hamt returns a [flatLeaf] value,
    package hamt32_functional a pointer (hamt.go dereferences it, [*newLeaf]).
    Both are parameters of the section. *)
Module Leaves.
Section WithValues.

Variable V : Type.
(** [hashOf key]: the masked hashcode flatLeaf.put recomputes from the key
    ([hash64(key) & sixtyBitMask]). *)
Variable hashOf : key -> Z.
(** [hash & mask] in [NewFlatLeaf]. *)
Variable mask : Z.
(** Whether [NewFlatLeaf] returns a pointer. *)
Variable newIsPtr : bool.

Record keyVal : Type := mkKeyVal { kv_key : key; kv_val : V }.

Record flatLeaf : Type := mkFlatLeaf { fl_hash : Z; fl_key : key; fl_val : V }.

Record collisionLeaf : Type := mkCollisionLeaf { cl_hash : Z; cl_kvs : list keyVal }.

Inductive leafI : Type :=
| FlatVal (l : flatLeaf)
| FlatPtr (l : flatLeaf)
| CollisionPtr (l : collisionLeaf).

Definition NewFlatLeaf (hash : Z) (k : key) (v : V) : leafI :=
  (if newIsPtr then FlatPtr else FlatVal) (mkFlatLeaf (Z.land hash mask) k v).

Definition hashcode (l : leafI) : Z :=
  match l with
  | FlatVal f | FlatPtr f => fl_hash f
  | CollisionPtr c => cl_hash c
  end.

Definition flatLeaf_get (l : flatLeaf) (k : key) : option V :=
  if byteSlicesEqual (fl_key l) k then Some (fl_val l) else None.

(** collisionLeaf.get: the first entry whose key equals [k]. *)
Fixpoint kvs_get (kvs : list keyVal) (k : key) : option V :=
  match kvs with
  | [] => None
  | kv :: rest => if byteSlicesEqual (kv_key kv) k then Some (kv_val kv) else kvs_get rest k
  end.

(** leafI.get; the Go pair (val, found) is an option. *)
Definition get (l : leafI) (k : key) : option V :=
  match l with
  | FlatVal f | FlatPtr f => flatLeaf_get f k
  | CollisionPtr c => kvs_get (cl_kvs c) k
  end.

Definition flatLeaf_put (l : flatLeaf) (k : key) (v : V) : leafI * bool :=
  if byteSlicesEqual (fl_key l) k then (NewFlatLeaf (hashOf k) k v, true)
  else (CollisionPtr (mkCollisionLeaf (fl_hash l)
                        [mkKeyVal (fl_key l) (fl_val l); mkKeyVal k v]), false).

(** collisionLeaf.put's loop over the copied entries: the first entry with
    key [k] gets the new value. *)
Fixpoint kvs_replace (kvs : list keyVal) (k : key) (v : V) : option (list keyVal) :=
  match kvs with
  | [] => None
  | kv :: rest =>
      if byteSlicesEqual (kv_key kv) k then Some (mkKeyVal (kv_key kv) v :: rest)
      else match kvs_replace rest k v with
           | Some rest' => Some (kv :: rest')
           | None => None
           end
  end.

Definition collisionLeaf_put (l : collisionLeaf) (k : key) (v : V) : leafI * bool :=
  match kvs_replace (cl_kvs l) k v with
  | Some kvs' => (CollisionPtr (mkCollisionLeaf (cl_hash l) kvs'), true)
  | None => (CollisionPtr (mkCollisionLeaf (cl_hash l) (cl_kvs l ++ [mkKeyVal k v])), false)
  end.

(** leafI.put: the new leaf and the flag the leaves call "replaced". *)
Definition put (l : leafI) (k : key) (v : V) : leafI * bool :=
  match l with
  | FlatVal f | FlatPtr f => flatLeaf_put f k v
  | CollisionPtr c => collisionLeaf_put c k v
  end.

(** flatLeaf.del: (new leaf or nil, removed value or nil, deleted). *)
Definition flatLeaf_del (l : flatLeaf) (k : key) : option leafI * option V * bool :=
  if byteSlicesEqual (fl_key l) k then (None, Some (fl_val l), true)
  else (None, None, false).

(** collisionLeaf.del's general loop: entries with another key are kept, the
    value of the last entry with key [k] is returned. *)
Fixpoint kvs_del (kvs : list keyVal) (k : key) (nl : list keyVal) (retVal : option V)
    (removed : bool) : list keyVal * option V * bool :=
  match kvs with
  | [] => (nl, retVal, removed)
  | kv :: rest =>
      if negb (byteSlicesEqual k (kv_key kv)) then kvs_del rest k (nl ++ [kv]) retVal removed
      else kvs_del rest k nl (Some (kv_val kv)) true
  end.

Definition collisionLeaf_del (l : collisionLeaf) (k : key)
    : option leafI * option V * bool :=
  match cl_kvs l with
  | [kv0; kv1] =>
      if byteSlicesEqual k (kv_key kv0)
      then (Some (NewFlatLeaf (cl_hash l) (kv_key kv1) (kv_val kv1)), Some (kv_val kv0), true)
      else if byteSlicesEqual k (kv_key kv1)
      then (Some (NewFlatLeaf (cl_hash l) (kv_key kv0) (kv_val kv0)), Some (kv_val kv1), true)
      else (None, None, false)
  | kvs =>
      let '(nl, retVal, removed) := kvs_del kvs k [] None false in
      (Some (CollisionPtr (mkCollisionLeaf (cl_hash l) nl)), retVal, removed)
  end.

Definition del (l : leafI) (k : key) : option leafI * option V * bool :=
  match l with
  | FlatVal f | FlatPtr f => flatLeaf_del f k
  | CollisionPtr c => collisionLeaf_del c k
  end.

(** The single-value type assertion [l.(flatLeaf)]: it succeeds only when the
    interface holds a [flatLeaf] value. *)
Definition assert_flatLeaf (l : leafI) : result flatLeaf :=
  match l with
  | FlatVal f => Ok f
  | _ => Panic InterfaceConversion
  end.

End WithValues.

Arguments mkKeyVal {V} kv_key kv_val.
Arguments kv_key {V} k.
Arguments kv_val {V} k.
Arguments mkFlatLeaf {V} fl_hash fl_key fl_val.
Arguments fl_hash {V} f.
Arguments fl_key {V} f.
Arguments fl_val {V} f.
Arguments mkCollisionLeaf {V} cl_hash cl_kvs.
Arguments cl_hash {V} c.
Arguments cl_kvs {V} c.
Arguments FlatVal {V} l.
Arguments FlatPtr {V} l.
Arguments CollisionPtr {V} l.
Arguments hashcode {V} l.
Arguments flatLeaf_get {V} l k.
Arguments get {V} l k.
Arguments kvs_get {V} kvs k.
Arguments kvs_replace {V} kvs k v.
Arguments kvs_del {V} kvs k nl retVal removed.
Arguments assert_flatLeaf {V} l.

End Leaves.

(** ** Package hamt: the 64-bit variant *)
Module Hamt64.

Definition NBITS : Z := 6.
Definition TABLE : Z := Go.shl64 1 NBITS.
Definition sixtyBitMask : Z := 2 ^ 60 - 1.
Definition MAXDEPTH : Z := 9.

(** hash64: FNV-1 over the key's bytes, as Go's hash/fnv [New64] computes it
    (multiply by the prime, then xor the byte). *)
Definition fnv_offset64 : Z := 14695981039346656037.
Definition fnv_prime64 : Z := 1099511628211.

Definition hash64 (bs : key) : Z :=
  fold_left (fun h b => Z.lxor (Go.u64 (h * fnv_prime64)) (Z.of_N (Byte.to_N b)))
            bs fnv_offset64.

Definition hashPathMask (depth : Z) : Z :=
  Go.u64 (Go.shl64 1 (Go.u64 (depth * NBITS)) - 1).

Definition hashPathEqual (depth a b : Z) : bool :=
  let pathMask := Go.u64 (Go.shl64 1 (Go.u64 (depth * NBITS)) - 1) in
  Z.land a pathMask =? Z.land b pathMask.

Definition hash60Equal (a b : Z) : bool :=
  Z.land a sixtyBitMask =? Z.land b sixtyBitMask.

Definition idxMask (depth : Z) : Z :=
  let m := Go.u8 (Go.u8 (Z.shiftl 1 NBITS) - 1) in
  Go.shl64 m (Go.u64 (depth * NBITS)).

Definition index (hash depth : Z) : Z :=
  let m := idxMask depth in
  Z.shiftr (Z.land hash m) (Go.u64 (depth * NBITS)).

(** buildHashPath(hashPath, depth, idx).  In the guard [&] binds tighter than
    [-]: it reads [((hashPath & (1<<(depth*NBITS))) - 1) > 0] on uint64. *)
Definition buildHashPath (hashPath depth idx : Z) : result Z :=
  if 0 <? Go.u64 (Z.land hashPath (Go.shl64 1 (Go.u64 (depth * NBITS))) - 1)
  then Panic ExplicitPanic
  else Ok (Z.land hashPath (Go.shl64 idx (Go.u64 (depth * NBITS)))).

Definition HEXI_FIVES : Z := 0x5555555555555555.
Definition HEXI_THREES : Z := 0x3333333333333333.
Definition HEXI_ONES : Z := 0x0101010101010101.
Definition HEXI_FS : Z := 0x0f0f0f0f0f0f0f0f.

Definition BitCount64 (n : Z) : Z :=
  let n := Go.u64 (n - Z.land (Z.shiftr n 1) HEXI_FIVES) in
  let n := Go.u64 (Z.land n HEXI_THREES + Z.land (Z.shiftr n 2) HEXI_THREES) in
  Z.shiftr (Go.u64 (Z.land (Go.u64 (n + Z.shiftr n 4)) HEXI_FS * HEXI_ONES)) 56.

Section WithValues.

Variable V : Type.

Definition flatLeaf : Type := Leaves.flatLeaf V.
Definition leafI : Type := Leaves.leafI V.
Definition hashOf (k : key) : Z := Z.land (hash64 k) sixtyBitMask.
Definition NewFlatLeaf (hash : Z) (k : key) (v : V) : flatLeaf :=
  Leaves.mkFlatLeaf (Z.land hash sixtyBitMask) k v.
Definition leaf_put : leafI -> key -> V -> leafI * bool := Leaves.put V hashOf sixtyBitMask false.
Definition leaf_del : leafI -> key -> option leafI * option V * bool :=
  Leaves.del V sixtyBitMask false.

(** A [nodeI]: nil, a leaf, or a pointer to a [compressedTable].  [fullTable]
    is never constructed ([NewFullTable] returns nil).

    A [*compressedTable] is the address [ptr] of the object together with
    the fields found there: a table is not written to once another object
    refers to it, so the fields can stand for the object, and the address is
    what [==] on two [tableI] values compares.  [new(compressedTable)] takes
    the next free address from a counter: a function that allocates receives
    the counter as its last argument and returns it with its result. *)
Inductive node : Type :=
| nilNode
| leafNode (l : leafI)
| tableNode (t : table)
with table : Type :=
| compressedTable (ptr hashPath depth nodeMap : Z) (nodes : list node).

Definition table_ptr (t : table) : Z :=
  match t with compressedTable a _ _ _ _ => a end.
Definition table_hashcode (t : table) : Z :=
  match t with compressedTable _ hp _ _ _ => hp end.
Definition table_depth (t : table) : Z :=
  match t with compressedTable _ _ d _ _ => d end.
Definition table_nodeMap (t : table) : Z :=
  match t with compressedTable _ _ _ m _ => m end.
Definition table_nodes (t : table) : list node :=
  match t with compressedTable _ _ _ _ ns => ns end.

Record Hamt : Type := mkHamt { root : option table; nentries : Z }.

Definition EMPTY : Hamt := mkHamt None 0.

Definition IsEmpty (h : Hamt) : bool :=
  match root h with None => true | Some _ => false end.

(** Modelled from the spec: the path recorder [pathT] (section 4.6), a LIFO
    stack of the tables met on the way down; its file is not part of the
    sources.  The top of the stack is the head of the list. *)
Definition pathT : Type := list table.
Definition newPathT : pathT := [].
Definition path_push (p : pathT) (t : table) : pathT := t :: p.

(** [a == b] on two [tableI] values: both nil, or pointers to the same
    object. *)
Definition tableI_eqb (a b : option table) : bool :=
  match a, b with
  | None, None => true
  | Some t1, Some t2 => table_ptr t1 =? table_ptr t2
  | _, _ => false
  end.

Definition ASSERT (test : bool) : result unit :=
  if test then Ok tt else Panic ExplicitPanic.

Definition NewCompressedTable (depth hashPath : Z) (lf : leafI) (next : Z)
    : result (table * Z) :=
  _ <- ASSERT (depth <? Go.u64 (MAXDEPTH + 1)) ;;
  let idx := index (Leaves.hashcode lf) depth in
  (* ct = new(compressedTable) *)
  Ok (compressedTable next hashPath depth (Go.shl64 1 idx) [leafNode lf], next + 1).

(** compressedTable.get *)
Definition table_get (t : table) (hash : Z) : result node :=
  let idx := index hash (table_depth t) in
  let nodeBit := Go.shl64 1 idx in
  if Z.land (table_nodeMap t) nodeBit =? 0 then Ok nilNode
  else
    let m := Go.u64 (Go.shl64 1 idx - 1) in
    let i := BitCount64 (Z.land (table_nodeMap t) m) in
    Go.index_slice (table_nodes t) i.

(** compressedTable.set: works on a copy [nt] of the receiver, the object
    [t.copy()] allocates. *)
Definition table_set (t : table) (hash : Z) (newNode : node) (next : Z)
    : result (table * Z) :=
  let idx := index hash (table_depth t) in
  let bit := Go.shl64 1 idx in
  let bitMask := Go.u64 (Go.shl64 1 idx - 1) in
  let i := BitCount64 (Z.land (table_nodeMap t) bitMask) in
  if Z.land (table_nodeMap t) bit =? 0 then
    nodes' <- Go.insert_slice (table_nodes t) i newNode ;;
    Ok (compressedTable next (table_hashcode t) (table_depth t)
          (Z.land (table_nodeMap t) bit) nodes', next + 1)
  else
    nodes' <- Go.store_slice (table_nodes t) i newNode ;;
    Ok (compressedTable next (table_hashcode t) (table_depth t) (table_nodeMap t) nodes',
        next + 1).

(** NewCompressedTable2's loop, seen from the table [curTable] (the object at
    [curPtr], given by its [hashPath] and [depth] fields, the other fields
    still zero): the result is [curTable] as the loop and the code after it
    leave it.  [n] bounds the iterations. *)
Fixpoint NewCompressedTable2_loop (n : nat) (d hashPath curPtr curHashPath curDepth : Z)
    (leaf1 : leafI) (leaf2 : flatLeaf) (next : Z) : result (table * Z) :=
  match n with
  | O => OutOfFuel
  | S n' =>
      if d <? MAXDEPTH then
        let idx1 := index (Leaves.hashcode leaf1) d in
        let idx2 := index (Leaves.fl_hash leaf2) d in
        (* curTable.nodes = make([]nodeI, 2) *)
        if negb (idx1 =? idx2) then
          let nodeMap := Z.land (Z.land 0 (Go.shl64 1 idx1)) (Go.shl64 1 idx2) in
          Ok (compressedTable curPtr curHashPath curDepth nodeMap
                (if idx1 <? idx2
                 then [leafNode leaf1; leafNode (Leaves.FlatVal leaf2)]
                 else [leafNode (Leaves.FlatVal leaf2); leafNode leaf1]),
              next)
        else
          (* newTable = new(compressedTable) *)
          let newHashPath :=
            Z.land hashPath (Go.shl64 idx1 (Go.u64 (Go.u64 (d + 1) * NBITS))) in
          '(newTable, next') <- NewCompressedTable2_loop n' (Go.u64 (d + 1)) hashPath
                                  next newHashPath (Go.u64 (d + 1)) leaf1 leaf2 (next + 1) ;;
          Ok (compressedTable curPtr curHashPath curDepth (Go.shl64 1 idx1)
                [nilNode; nilNode; tableNode newTable],
              next')
      else
        let curTable := compressedTable curPtr curHashPath curDepth 0 [] in
        if d =? MAXDEPTH then
          (* the table curTable.set returns is dropped *)
          let '(lf, _) := leaf_put leaf1 (Leaves.fl_key leaf2) (Leaves.fl_val leaf2) in
          '(_, next') <- table_set curTable (Leaves.hashcode lf) (leafNode lf) next ;;
          Ok (curTable, next')
        else Ok (curTable, next)
  end.

Definition NewCompressedTable2 (depth hashPath : Z) (leaf1 : leafI) (leaf2 : flatLeaf)
    (next : Z) : result (table * Z) :=
  _ <- ASSERT (depth <? Go.u64 (MAXDEPTH + 1)) ;;
  (* retTable = new(compressedTable) *)
  NewCompressedTable2_loop (S (Z.to_nat MAXDEPTH)) depth hashPath next hashPath depth
    leaf1 leaf2 (next + 1).

(** Hamt.copyUp: recursion on the recorded path. *)
Fixpoint copyUp (h : Hamt) (oldTable newTable : table) (path : pathT) (next : Z)
    {struct path} : result (Hamt * Z) :=
  match path with
  | [] =>
      if negb (tableI_eqb (root h) (Some oldTable)) then Panic ExplicitPanic
      else Ok (mkHamt (Some newTable) 0, next)
  | oldParent :: path' =>
      '(newParent, next') <- table_set oldParent (table_hashcode oldTable)
                               (tableNode newTable) next ;;
      copyUp h oldParent newParent path' next'
  end.

Definition copyUpLeaf (h : Hamt) (oldLeaf newLeaf : leafI) (path : pathT) (next : Z)
    : result (Hamt * Z) :=
  match path with
  | [] => Panic ExplicitPanic
  | oldTable :: path' =>
      '(newTable, next') <- table_set oldTable (Leaves.hashcode oldLeaf)
                              (leafNode newLeaf) next ;;
      copyUp h oldTable newTable path' next'
  end.

(** Hamt.Get's loop; [curNode] was fetched before the iteration. *)
Fixpoint Get_loop (n : nat) (depth hash60 : Z) (k : key) (curNode : node)
    : result (option V) :=
  match n with
  | O => OutOfFuel
  | S n' =>
      match curNode with
      | nilNode => Ok None
      | _ =>
          if depth <=? MAXDEPTH then
            match curNode with
            | leafNode lf =>
                if hashPathEqual depth hash60 (Leaves.hashcode lf)
                then Ok (Leaves.get lf k)
                else Ok None
            | tableNode curTable =>
                curNode' <- table_get curTable hash60 ;;
                Get_loop n' (Go.u64 (depth + 1)) hash60 k curNode'
            | nilNode => Ok None
            end
          else Ok None
      end
  end.

Definition loop_fuel : nat := S (S (Z.to_nat MAXDEPTH)).

Definition Get (h : Hamt) (k : key) : result (option V) :=
  match root h with
  | None => Ok None
  | Some curTable =>
      let hash := hash64 k in
      let hash60 := Z.land hash sixtyBitMask in
      curNode <- table_get curTable hash60 ;;
      Get_loop loop_fuel 0 hash60 k curNode
  end.

(** Hamt.Put's loop.  The named result [newHamt] is never assigned on these
    paths: the maps [copyUp] and [copyUpLeaf] return are dropped. *)
Fixpoint Put_loop (n : nat) (h newHamt : Hamt) (depth hash60 : Z) (k : key) (v : V)
    (newLeaf : flatLeaf) (curTable : table) (path : pathT) (next : Z)
    : result (Hamt * bool * Z) :=
  match n with
  | O => OutOfFuel
  | S n' =>
      if depth <? MAXDEPTH then
        curNode <- table_get curTable hash60 ;;
        match curNode with
        | nilNode =>
            '(newTable, next1) <- table_set curTable hash60
                                    (leafNode (Leaves.FlatVal newLeaf)) next ;;
            '(_, next2) <- copyUp h curTable newTable path next1 ;;
            Ok (newHamt, true, next2)
        | leafNode oldLeaf =>
            if hash60Equal (Leaves.hashcode oldLeaf) hash60 then
              let path := path_push path curTable in
              let '(newLeaf', newVal) := leaf_put oldLeaf k v in
              '(_, next1) <- copyUpLeaf newHamt oldLeaf newLeaf' path next ;;
              Ok (newHamt, newVal, next1)
            else
              let newLeaf' := NewFlatLeaf hash60 k v in
              let hashPath := Z.land hash60 (hashPathMask depth) in
              '(colTable, next1) <- NewCompressedTable2 depth hashPath oldLeaf newLeaf' next ;;
              '(newTable, next2) <- table_set curTable hash60 (tableNode colTable) next1 ;;
              '(_, next3) <- copyUp h curTable newTable path next2 ;;
              Ok (newHamt, true, next3)
        | tableNode t =>
            Put_loop n' h newHamt (Go.u64 (depth + 1)) hash60 k v newLeaf t
                     (path_push path curTable) next
        end
      else Ok (newHamt, false, next)
  end.

Definition Put (h : Hamt) (k : key) (v : V) (next : Z) : result (Hamt * bool * Z) :=
  let newHamt := mkHamt None 0 in
  let hash60 := Z.land (hash64 k) sixtyBitMask in
  match root h with
  | None =>
      let lf := NewFlatLeaf hash60 k v in
      '(r, next') <- NewCompressedTable 0 hash60 (Leaves.FlatVal lf) next ;;
      Ok (mkHamt (Some r) (nentries newHamt), true, next')
  | Some curTable =>
      let newLeaf := NewFlatLeaf hash60 k v in
      Put_loop loop_fuel h newHamt 0 hash60 k v newLeaf curTable newPathT next
  end.

(** Hamt.Del: a stub in this package. *)
Definition Del (h : Hamt) (k : key) : Hamt * option V * bool :=
  (mkHamt None 0, None, false).

End WithValues.

Arguments nilNode {V}.
Arguments leafNode {V} l.
Arguments tableNode {V} t.
Arguments compressedTable {V} ptr hashPath depth nodeMap nodes.
Arguments mkHamt {V} root nentries.
Arguments root {V} h.
Arguments nentries {V} h.
Arguments EMPTY {V}.
Arguments IsEmpty {V} h.

End Hamt64.

(** ** Package hamt32_functional: the 32-bit variant

    hamt.go with the compressed table of package hamt32.  The hashcode of a
    key comes from the key itself ([key.Hash30()], package hamt_key): it is a
    parameter.  The leaves of this package are not part of the sources: they
    are modelled from the spec (section 4.2). *)
Module Hamt32.

Definition NBITS32 : Z := 5.
Definition TABLE_CAPACITY : Z := Go.shl64 1 NBITS32.
Definition mask30 : Z := 2 ^ 30 - 1.
Definition MAXDEPTH : Z := 5.

Definition hashPathMask (depth : Z) : Z :=
  Go.u32 (Go.shl32 1 (Go.u64 (depth * NBITS32)) - 1).

Definition indexMask (depth : Z) : Z :=
  Go.shl32 (Go.u8 (Go.u8 (Z.shiftl 1 NBITS32) - 1)) (Go.u64 (depth * NBITS32)).

Definition index (h30 depth : Z) : Z :=
  let idxMask := indexMask depth in
  Z.shiftr (Z.land h30 idxMask) (Go.u64 (depth * NBITS32)).

(** buildHashPath(hashPath, idx, depth) *)
Definition buildHashPath (hashPath idx depth : Z) : Z :=
  Z.lor hashPath (Go.u32 (Go.shl64 idx (Go.u64 (depth * NBITS32)))).

(** Modelled from the spec: [bitCount32], the population count of a 32-bit
    bitmap (section 4.1); its file is not part of the sources. *)
Fixpoint popcount_below (n : nat) (x : Z) : Z :=
  match n with
  | O => 0
  | S n' => popcount_below n' x + (if Z.testbit x (Z.of_nat n') then 1 else 0)
  end.

Definition bitCount32 (x : Z) : Z := popcount_below 32 x.

Section WithValues.

Variable V : Type.
Variable Hash30 : key -> Z.
(** Modelled from the spec: the table policy flag of section 4.5 that enables
    demotion of a dense table (the test harness sets [GradeTables]); the
    dense table's file is not part of the sources. *)
Variable GradeTables : bool.

(** Modelled from the spec: the leaves of package hamt32_functional (sections
    3 and 4.2), whose file is not part of the sources.  A flat leaf is the
    triple [(hash, key, value)], a collision leaf the hashcode with its
    entries; [hashcode] and [get] are [Leaves.hashcode] and [Leaves.get].
    What hamt.go shows of them: [NewFlatLeaf] returns a pointer (it is
    dereferenced, [*newLeaf]), and a [flatLeaf] value is a leaf too (it is
    asserted, [oldLeaf.(flatLeaf)]). *)
Definition flatLeaf : Type := Leaves.flatLeaf V.
Definition leafI : Type := Leaves.leafI V.
Definition NewFlatLeaf : Z -> key -> V -> leafI := Leaves.NewFlatLeaf V mask30 true.

(** Modelled from the spec: [put] of a leaf (section 4.2), the new leaf and
    [replaced?].  Flat leaf: with the stored key, a new flat leaf with the
    value replaced and true; with another key, a new collision leaf holding
    both pairs and false.  Collision leaf: the entry of the key gets the
    value and true, or the pair is appended and false. *)
Definition leaf_put (l : leafI) (k : key) (v : V) : leafI * bool :=
  match l with
  | Leaves.FlatVal f | Leaves.FlatPtr f =>
      if byteSlicesEqual (Leaves.fl_key f) k
      then (Leaves.FlatPtr (Leaves.mkFlatLeaf (Leaves.fl_hash f) (Leaves.fl_key f) v), true)
      else (Leaves.CollisionPtr
              (Leaves.mkCollisionLeaf (Leaves.fl_hash f)
                 [Leaves.mkKeyVal (Leaves.fl_key f) (Leaves.fl_val f); Leaves.mkKeyVal k v]),
            false)
  | Leaves.CollisionPtr c =>
      match Leaves.kvs_replace (Leaves.cl_kvs c) k v with
      | Some kvs' => (Leaves.CollisionPtr (Leaves.mkCollisionLeaf (Leaves.cl_hash c) kvs'), true)
      | None =>
          (Leaves.CollisionPtr
             (Leaves.mkCollisionLeaf (Leaves.cl_hash c)
                (Leaves.cl_kvs c ++ [Leaves.mkKeyVal k v])),
           false)
      end
  end.

(** Modelled from the spec: the entries of a collision leaf with the entry of
    key [k] removed (section 4.2). *)
Fixpoint kvs_remove (kvs : list (Leaves.keyVal V)) (k : key) : list (Leaves.keyVal V) :=
  match kvs with
  | [] => []
  | kv :: rest =>
      if byteSlicesEqual (Leaves.kv_key kv) k then rest else kv :: kvs_remove rest k
  end.

(** Modelled from the spec: [del] of a leaf (section 4.2), the new leaf (or
    nothing), the old value and [deleted?].  Flat leaf: with the stored key
    [(nothing, v, true)], else [(self, nil, false)].  Collision leaf: without
    the key [(self, nil, false)]; with it, the flat leaf of the surviving
    entry when the leaf has exactly two entries, else a new collision leaf
    with the entry removed. *)
Definition leaf_del (l : leafI) (k : key) : option leafI * option V * bool :=
  match l with
  | Leaves.FlatVal f | Leaves.FlatPtr f =>
      if byteSlicesEqual (Leaves.fl_key f) k then (None, Some (Leaves.fl_val f), true)
      else (Some l, None, false)
  | Leaves.CollisionPtr c =>
      match Leaves.kvs_get (Leaves.cl_kvs c) k with
      | None => (Some l, None, false)
      | Some v =>
          match Leaves.cl_kvs c, kvs_remove (Leaves.cl_kvs c) k with
          | [_; _], [kv] =>
              (Some (Leaves.FlatPtr
                       (Leaves.mkFlatLeaf (Leaves.cl_hash c) (Leaves.kv_key kv)
                          (Leaves.kv_val kv))),
               Some v, true)
          | _, rest =>
              (Some (Leaves.CollisionPtr (Leaves.mkCollisionLeaf (Leaves.cl_hash c) rest)),
               Some v, true)
          end
      end
  end.

(** [*newLeaf]: the [flatLeaf] the pointer returned by [NewFlatLeaf] points to. *)
Definition NewFlatLeaf_deref (h30 : Z) (k : key) (v : V) : flatLeaf :=
  Leaves.mkFlatLeaf (Z.land h30 mask30) k v.

(** A non-nil [nodeI] is a leaf or a table; a [tableI] is a compressed or a
    full table.  The nil interface is [None] at the use sites. *)
Inductive node : Type :=
| leafNode (l : leafI)
| tableNode (t : table)
with table : Type :=
| compressedTable (hashPath nodeMap : Z) (nodes : list node)
| fullTable (hashPath nodeMap : Z) (nodes : list (option node)).

Definition tableEntry : Type := (Z * node)%type.

Definition table_hashcode (t : table) : Z :=
  match t with
  | compressedTable hp _ _ => hp
  | fullTable hp _ _ => hp
  end.

Definition newCompressedTable (depth hashPath : Z) (lf : leafI) : table :=
  let idx := index hashPath depth in
  compressedTable (Z.land hashPath (hashPathMask depth)) (Go.shl32 1 idx) [leafNode lf].

(** downgradeToCompressedTable *)
Definition downgradeToCompressedTable (hashPath : Z) (ents : list tableEntry) : table :=
  compressedTable hashPath
    (fold_left (fun m (ent : tableEntry) => Z.lor m (Go.shl32 1 (fst ent))) ents 0)
    (map snd ents).

(** compressedTable.entries: the slots in ascending order, [j] counting the
    entries already taken. *)
Fixpoint compressed_entries_loop (n : nat) (i j : Z) (nodeMap : Z) (nodes : list node)
    : result (list tableEntry) :=
  match n with
  | O => Ok []
  | S n' =>
      let nodeBit := Go.shl32 1 i in
      if 0 <? Z.land nodeMap nodeBit then
        nd <- Go.index_slice nodes j ;;
        rest <- compressed_entries_loop n' (i + 1) (j + 1) nodeMap nodes ;;
        Ok ((i, nd) :: rest)
      else compressed_entries_loop n' (i + 1) j nodeMap nodes
  end.

Definition compressed_entries (nodeMap : Z) (nodes : list node) : result (list tableEntry) :=
  compressed_entries_loop (Z.to_nat TABLE_CAPACITY) 0 0 nodeMap nodes.

(** compressedTable.get *)
Definition compressed_get (nodeMap : Z) (nodes : list node) (idx : Z) : result (option node) :=
  let nodeBit := Go.shl32 1 idx in
  if Z.land nodeMap nodeBit =? 0 then Ok None
  else
    let m := Go.u32 (Go.shl32 1 idx - 1) in
    let i := bitCount32 (Z.land nodeMap m) in
    nd <- Go.index_slice nodes i ;;
    Ok (Some nd).

(** Modelled from the spec: the dense table (section 4.4), whose file is not
    part of the sources.  Layout [(hashPath, bitmap, children[FANOUT])], an
    unoccupied child being nil; [upgradeToFullTable] builds it from entries. *)
Definition full_store (nodes : list (option node)) (idx : Z) (nn : option node)
    : result (list (option node)) :=
  Go.store_slice nodes idx nn.

Definition upgradeToFullTable (hashPath : Z) (ents : list tableEntry) : table :=
  fullTable hashPath
    (fold_left (fun m (ent : tableEntry) => Z.lor m (Go.shl32 1 (fst ent))) ents 0)
    (fold_left (fun ns (ent : tableEntry) =>
                  firstn (Z.to_nat (fst ent)) ns ++ Some (snd ent)
                    :: skipn (S (Z.to_nat (fst ent))) ns)
               ents (repeat None (Z.to_nat TABLE_CAPACITY))).

(** Modelled from the spec: the dense table's [get] (section 4.4). *)
Definition full_get (nodes : list (option node)) (idx : Z) : result (option node) :=
  Go.index_slice nodes idx.

(** Modelled from the spec: the dense table's [entries], the occupied slots
    in ascending order (sections 4.3 and 4.4). *)
Fixpoint full_entries_loop (i : Z) (nodes : list (option node)) : list tableEntry :=
  match nodes with
  | [] => []
  | Some nd :: rest => (i, nd) :: full_entries_loop (i + 1) rest
  | None :: rest => full_entries_loop (i + 1) rest
  end.

Definition full_entries (nodes : list (option node)) : list tableEntry :=
  full_entries_loop 0 nodes.

(** Modelled from the spec: the dense table's [set] (section 4.4): the same
    four cases as the sparse table; removing a child that takes the
    occupancy below the threshold returns a sparse table when the policy
    enables demotion; an emptied table is nil. *)
Definition full_set (hashPath nodeMap : Z) (nodes : list (option node)) (idx : Z)
    (nn : option node) : result (option table) :=
  let nodeBit := Go.shl32 1 idx in
  match nn with
  | Some _ =>
      nodes' <- full_store nodes idx nn ;;
      Ok (Some (fullTable hashPath (Z.lor nodeMap nodeBit) nodes'))
  | None =>
      if 0 <? Z.land nodeMap nodeBit then
        nodes' <- full_store nodes idx None ;;
        let nodeMap' := Go.andnot nodeMap nodeBit in
        if nodeMap' =? 0 then Ok None
        else if GradeTables && (bitCount32 nodeMap' <? TABLE_CAPACITY / 2)
        then Ok (Some (downgradeToCompressedTable hashPath (full_entries nodes')))
        else Ok (Some (fullTable hashPath nodeMap' nodes'))
      else Ok (Some (fullTable hashPath nodeMap nodes))
  end.

(** compressedTable.set: [nt] is the copy the method works on. *)
Definition compressed_set (hashPath nodeMap : Z) (nodes : list node) (idx : Z)
    (nn : option node) : result (option table) :=
  let nodeBit := Go.shl32 1 idx in
  let bitMask := Go.u32 (nodeBit - 1) in
  let i := bitCount32 (Z.land nodeMap bitMask) in
  match nn with
  | Some n =>
      if Z.land nodeMap nodeBit =? 0 then
        let nt_nodeMap := Z.lor nodeMap nodeBit in
        nt_nodes <- Go.insert_slice nodes i n ;;
        if TABLE_CAPACITY / 2 <=? bitCount32 nt_nodeMap then
          ents <- compressed_entries nt_nodeMap nt_nodes ;;
          Ok (Some (upgradeToFullTable hashPath ents))
        else Ok (Some (compressedTable hashPath nt_nodeMap nt_nodes))
      else
        nt_nodes <- Go.store_slice nodes i n ;;
        Ok (Some (compressedTable hashPath nodeMap nt_nodes))
  | None =>
      if 0 <? Z.land nodeMap nodeBit then
        let nt_nodeMap := Go.andnot nodeMap nodeBit in
        nt_nodes <- Go.remove_slice nodes i ;;
        if nt_nodeMap =? 0 then Ok None
        else Ok (Some (compressedTable hashPath nt_nodeMap nt_nodes))
      else Ok (Some (compressedTable hashPath nodeMap nodes))
  end.

(** tableI.get and tableI.set: dispatch on the dynamic type. *)
Definition table_get (t : table) (idx : Z) : result (option node) :=
  match t with
  | compressedTable _ nodeMap nodes => compressed_get nodeMap nodes idx
  | fullTable _ _ nodes => full_get nodes idx
  end.

Definition table_set (t : table) (idx : Z) (nn : option node) : result (option table) :=
  match t with
  | compressedTable hp nodeMap nodes => compressed_set hp nodeMap nodes idx nn
  | fullTable hp nodeMap nodes => full_set hp nodeMap nodes idx nn
  end.

(** newCompressedTable2's loop, seen from the table [curTable] (given by its
    [hashPath] field, the other fields still zero): the result is [curTable]
    as the loop and the code after it leave it.  [hashPath] is the running
    local variable; [n] bounds the iterations. *)
Fixpoint newCompressedTable2_loop (n : nat) (d hashPath curHashPath : Z)
    (leaf1 : leafI) (leaf2 : flatLeaf) : result table :=
  match n with
  | O => OutOfFuel
  | S n' =>
      if d <=? MAXDEPTH then
        let idx1 := index (Leaves.hashcode leaf1) d in
        let idx2 := index (Leaves.fl_hash leaf2) d in
        if negb (idx1 =? idx2) then
          let nodeMap := Z.lor (Z.lor 0 (Go.shl32 1 idx1)) (Go.shl32 1 idx2) in
          Ok (compressedTable curHashPath nodeMap
                (if idx1 <? idx2
                 then [leafNode leaf1; leafNode (Leaves.FlatVal leaf2)]
                 else [leafNode (Leaves.FlatVal leaf2); leafNode leaf1]))
        else
          let hashPath' := buildHashPath hashPath idx1 d in
          newTable <- newCompressedTable2_loop n' (Go.u64 (d + 1)) hashPath' hashPath'
                        leaf1 leaf2 ;;
          Ok (compressedTable curHashPath (Go.shl32 1 idx1) [tableNode newTable])
      else
        (* d > MAXDEPTH: the table curTable.set returns is dropped *)
        let idx := index (Leaves.hashcode leaf1) MAXDEPTH in
        let '(lf, _) := leaf_put leaf1 (Leaves.fl_key leaf2) (Leaves.fl_val leaf2) in
        _ <- compressed_set curHashPath 0 [] idx (Some (leafNode lf)) ;;
        Ok (compressedTable curHashPath 0 [])
  end.

Definition newCompressedTable2 (depth hashPath : Z) (leaf1 : leafI) (leaf2 : flatLeaf)
    : result table :=
  newCompressedTable2_loop (S (S (Z.to_nat MAXDEPTH))) depth hashPath
    (Z.land hashPath (hashPathMask depth)) leaf1 leaf2.

Record Hamt : Type := mkHamt { root : option table; nentries : Z }.

Definition EMPTY : Hamt := mkHamt None 0.

Definition IsEmpty (h : Hamt) : bool :=
  match root h with None => true | Some _ => false end.

(** Modelled from the spec: the path recorder [pathT] (section 4.6), a LIFO
    stack of the tables met on the way down; its file is not part of the
    sources.  The top of the stack is the head of the list, [len(path)] its
    length. *)
Definition pathT : Type := list table.
Definition newPathT : pathT := [].
Definition path_push (p : pathT) (t : table) : pathT := t :: p.

(** Hamt.copyUp: the new root it stores in [h.root]. *)
Fixpoint copyUp (oldTable : table) (newTable : option table) (path : pathT)
    {struct path} : result (option table) :=
  match path with
  | [] => Ok newTable
  | oldParent :: path' =>
      let depth := Z.of_nat (length path) in
      let parentDepth := Go.u64 (depth - 1) in
      let parentIdx := index (table_hashcode oldTable) parentDepth in
      newParent <- table_set oldParent parentIdx (option_map tableNode newTable) ;;
      copyUp oldParent newParent path'
  end.

Definition loop_fuel : nat := S (S (Z.to_nat MAXDEPTH)).

(** Hamt.Get's loop *)
Fixpoint Get_loop (n : nat) (depth h30 : Z) (k : key) (curTable : table)
    : result (option V) :=
  match n with
  | O => OutOfFuel
  | S n' =>
      if depth <=? MAXDEPTH then
        let idx := index h30 depth in
        curNode <- table_get curTable idx ;;
        match curNode with
        | None => Ok None
        | Some (leafNode lf) =>
            if Leaves.hashcode lf =? h30 then Ok (Leaves.get lf k) else Ok None
        | Some (tableNode t) => Get_loop n' (Go.u64 (depth + 1)) h30 k t
        end
      else Ok None
  end.

Definition Get (h : Hamt) (k : key) : result (option V) :=
  match root h with
  | None => Ok None
  | Some curTable => Get_loop loop_fuel 0 (Hash30 k) k curTable
  end.

(** Hamt.Put's loop; [nh] is the copy of the receiver.  The log call of the
    equal-hashcode branch evaluates [oldLeaf.(flatLeaf).key] as one of its
    arguments before anything else happens; the flag the leaf's [put] returns
    is assigned to [inserted]. *)
Fixpoint Put_loop (n : nat) (nh : Hamt) (depth h30 : Z) (k : key) (v : V)
    (newLeaf : leafI) (curTable : table) (path : pathT) (hashPath : Z)
    : result (Hamt * bool) :=
  match n with
  | O => OutOfFuel
  | S n' =>
      if depth <=? MAXDEPTH then
        let idx := index h30 depth in
        curNode <- table_get curTable idx ;;
        match curNode with
        | None =>
            newTable <- table_set curTable idx (Some (leafNode newLeaf)) ;;
            r <- copyUp curTable newTable path ;;
            Ok (mkHamt r (Go.u64 (nentries nh + 1)), true)
        | Some (leafNode oldLeaf) =>
            if Leaves.hashcode oldLeaf =? h30 then
              _ <- Leaves.assert_flatLeaf oldLeaf ;;
              let '(newLeaf', inserted) := leaf_put oldLeaf k v in
              let n1 := if inserted then Go.u64 (nentries nh + 1) else nentries nh in
              newTable <- table_set curTable idx (Some (leafNode newLeaf')) ;;
              r <- copyUp curTable newTable path ;;
              Ok (mkHamt r n1, inserted)
            else
              let hashPath' := buildHashPath hashPath idx depth in
              let newLeaf2 := NewFlatLeaf_deref h30 k v in
              collisionTable <- newCompressedTable2 (Go.u64 (depth + 1)) hashPath'
                                  oldLeaf newLeaf2 ;;
              newTable <- table_set curTable idx (Some (tableNode collisionTable)) ;;
              r <- copyUp curTable newTable path ;;
              Ok (mkHamt r (Go.u64 (nentries nh + 1)), true)
        | Some (tableNode t) =>
            Put_loop n' nh (Go.u64 (depth + 1)) h30 k v newLeaf t
                     (path_push path curTable) (buildHashPath hashPath idx depth)
        end
      else Ok (nh, false)
  end.

Definition Put (h : Hamt) (k : key) (v : V) : result (Hamt * bool) :=
  let nh := h in
  let h30 := Hash30 k in
  let newLeaf := NewFlatLeaf h30 k v in
  match root h with
  | None =>
      Ok (mkHamt (Some (newCompressedTable 0 h30 newLeaf)) (Go.u64 (nentries nh + 1)), true)
  | Some curTable => Put_loop loop_fuel nh 0 h30 k v newLeaf curTable newPathT 0
  end.

(** Hamt.Del's loop; [h] is the receiver, returned unchanged when nothing is
    found. *)
Fixpoint Del_loop (n : nat) (h : Hamt) (depth h30 : Z) (k : key)
    (curTable : table) (path : pathT) : result (Hamt * option V * bool) :=
  match n with
  | O => OutOfFuel
  | S n' =>
      if depth <=? MAXDEPTH then
        let idx := index h30 depth in
        curNode <- table_get curTable idx ;;
        match curNode with
        | None => Ok (h, None, false)
        | Some (leafNode oldLeaf) =>
            if negb (Leaves.hashcode oldLeaf =? h30) then Ok (h, None, false)
            else
              let '(newLeaf, val, deleted) := leaf_del oldLeaf k in
              newTable <- table_set curTable idx (option_map leafNode newLeaf) ;;
              r <- copyUp curTable newTable path ;;
              let n1 := if deleted then Go.u64 (nentries h - 1) else nentries h in
              Ok (mkHamt r n1, val, deleted)
        | Some (tableNode t) =>
            Del_loop n' h (Go.u64 (depth + 1)) h30 k t (path_push path curTable)
        end
      else Ok (h, None, false)
  end.

Definition Del (h : Hamt) (k : key) : result (Hamt * option V * bool) :=
  match root h with
  | None => Panic NilDereference   (* curTable.get on the nil root *)
  | Some curTable => Del_loop loop_fuel h 0 (Hash30 k) k curTable newPathT
  end.

End WithValues.

Arguments leafNode {V} l.
Arguments tableNode {V} t.
Arguments compressedTable {V} hashPath nodeMap nodes.
Arguments fullTable {V} hashPath nodeMap nodes.
Arguments table_hashcode {V} t.
Arguments mkHamt {V} root nentries.
Arguments root {V} h.
Arguments nentries {V} h.
Arguments EMPTY {V}.
Arguments IsEmpty {V} h.

End Hamt32.

(** * Properties *)

(** ** Machine arithmetic *)
Module GoFacts.

Lemma u64_small : forall x, 0 <= x < 2 ^ 64 -> Go.u64 x = x.
Proof. intros x H. unfold Go.u64. apply Z.mod_small. exact H. Qed.

Lemma u32_small : forall x, 0 <= x < 2 ^ 32 -> Go.u32 x = x.
Proof. intros x H. unfold Go.u32. apply Z.mod_small. exact H. Qed.

Lemma shl32_one : forall i, 0 <= i < 32 -> Go.shl32 1 i = 2 ^ i.
Proof.
  intros i H. unfold Go.shl32. rewrite Z.shiftl_1_l. apply u32_small.
  split; [apply Z.pow_nonneg; lia|]. apply Z.pow_lt_mono_r; lia.
Qed.

Lemma shl32_one_big : forall i, 32 <= i -> Go.shl32 1 i = 0.
Proof.
  intros i H. unfold Go.shl32, Go.u32. rewrite Z.shiftl_1_l.
  replace (2 ^ i) with (2 ^ (i - 32) * 2 ^ 32).
  - apply Z.mod_mul. lia.
  - rewrite <- Z.pow_add_r by lia. f_equal. lia.
Qed.

Lemma bind_ok : forall (A B : Type) (r : result A) (f : A -> result B) (b : B),
  Go.bind r f = Ok b -> exists a, r = Ok a /\ f a = Ok b.
Proof. intros A B [a|p|] f b H; simpl in H; try discriminate. eauto. Qed.

(** A computation that came to an end, by returning or by panicking: the
    loop bound of the model was not what stopped it. *)
Definition finished {A : Type} (r : result A) : bool :=
  match r with
  | OutOfFuel => false
  | _ => true
  end.

Lemma finished_bind : forall (A B : Type) (r : result A) (f : A -> result B),
  finished r = true -> (forall a, finished (f a) = true) -> finished (Go.bind r f) = true.
Proof. intros A B [a|p|] f Hr Hf; simpl in *; auto. Qed.

Lemma finished_index_slice : forall (A : Type) (s : list A) i,
  finished (Go.index_slice s i) = true.
Proof.
  intros A s i. unfold Go.index_slice.
  destruct (i <? 0); [reflexivity|]. destruct (nth_error s (Z.to_nat i)); reflexivity.
Qed.

Lemma finished_insert_slice : forall (A : Type) (s : list A) i x,
  finished (Go.insert_slice s i x) = true.
Proof. intros A s i x. unfold Go.insert_slice. destruct (_ || _); reflexivity. Qed.

Lemma finished_store_slice : forall (A : Type) (s : list A) i x,
  finished (Go.store_slice s i x) = true.
Proof. intros A s i x. unfold Go.store_slice. destruct (_ || _); reflexivity. Qed.

Lemma finished_remove_slice : forall (A : Type) (s : list A) i,
  finished (Go.remove_slice s i) = true.
Proof. intros A s i. unfold Go.remove_slice. destruct (_ || _); reflexivity. Qed.

End GoFacts.

(** ** Leaves *)
Module LeafFacts.
Section WithValues.

Variable V : Type.
Variable hashOf : key -> Z.
Variable mask : Z.
Variable newIsPtr : bool.

Let leaf_get := @Leaves.get V.
Let leaf_put := Leaves.put V hashOf mask newIsPtr.
Let leaf_del := Leaves.del V mask newIsPtr.

Lemma kvs_get_replace_same : forall (kvs : list (Leaves.keyVal V)) k v kvs',
  Leaves.kvs_replace kvs k v = Some kvs' -> Leaves.kvs_get kvs' k = Some v.
Proof.
  induction kvs as [|kv rest IH]; intros k v kvs' H; simpl in H; [discriminate|].
  destruct (byteSlicesEqual (Leaves.kv_key kv) k) eqn:E.
  - injection H as <-. simpl. rewrite E. reflexivity.
  - destruct (Leaves.kvs_replace rest k v) as [rest'|] eqn:Er; [|discriminate].
    injection H as <-. simpl. rewrite E. eapply IH; eassumption.
Qed.

Lemma kvs_get_replace_other : forall (kvs : list (Leaves.keyVal V)) k v kvs' k',
  Leaves.kvs_replace kvs k v = Some kvs' -> k' <> k ->
  Leaves.kvs_get kvs' k' = Leaves.kvs_get kvs k'.
Proof.
  induction kvs as [|kv rest IH]; intros k v kvs' k' H Hne; simpl in H; [discriminate|].
  destruct (byteSlicesEqual (Leaves.kv_key kv) k) eqn:E.
  - injection H as <-. simpl. apply byteSlicesEqual_spec in E. rewrite E.
    rewrite (byteSlicesEqual_neq k k') by congruence. reflexivity.
  - destruct (Leaves.kvs_replace rest k v) as [rest'|] eqn:Er; [|discriminate].
    injection H as <-. simpl. destruct (byteSlicesEqual (Leaves.kv_key kv) k'); auto.
    eapply IH; eassumption.
Qed.

Lemma kvs_replace_none : forall (kvs : list (Leaves.keyVal V)) k v,
  Leaves.kvs_replace kvs k v = None -> Leaves.kvs_get kvs k = None.
Proof.
  induction kvs as [|kv rest IH]; intros k v H; simpl in *; auto.
  destruct (byteSlicesEqual (Leaves.kv_key kv) k); [discriminate|].
  destruct (Leaves.kvs_replace rest k v) eqn:Er; [discriminate|]. eapply IH; eassumption.
Qed.

Lemma kvs_get_app : forall (kvs1 kvs2 : list (Leaves.keyVal V)) k,
  Leaves.kvs_get (kvs1 ++ kvs2) k =
  match Leaves.kvs_get kvs1 k with
  | Some v => Some v
  | None => Leaves.kvs_get kvs2 k
  end.
Proof.
  induction kvs1 as [|kv rest IH]; intros kvs2 k; simpl; auto.
  destruct (byteSlicesEqual (Leaves.kv_key kv) k); auto.
Qed.

(** Reading a leaf after [put]: the key just written is found with its value. *)
Lemma get_put_same : forall l k v, leaf_get (fst (leaf_put l k v)) k = Some v.
Proof.
  intros [f|f|c] k v; unfold leaf_get, leaf_put; simpl.
  1,2: unfold Leaves.flatLeaf_put; destruct (byteSlicesEqual (Leaves.fl_key f) k) eqn:E; simpl.
  1,3: unfold Leaves.NewFlatLeaf; destruct newIsPtr; simpl; unfold Leaves.flatLeaf_get; simpl;
       rewrite byteSlicesEqual_refl; reflexivity.
  1,2: rewrite E, byteSlicesEqual_refl; reflexivity.
  unfold Leaves.collisionLeaf_put.
  destruct (Leaves.kvs_replace (Leaves.cl_kvs c) k v) as [kvs'|] eqn:E; simpl.
  - eapply kvs_get_replace_same; eassumption.
  - rewrite kvs_get_app, (kvs_replace_none _ _ _ E). simpl.
    rewrite byteSlicesEqual_refl. reflexivity.
Qed.

(** Reading another key after [put] gives what the leaf gave before. *)
Lemma get_put_other : forall l k v k', k' <> k ->
  leaf_get (fst (leaf_put l k v)) k' = leaf_get l k'.
Proof.
  intros [f|f|c] k v k' Hne; unfold leaf_get, leaf_put; simpl.
  1,2: unfold Leaves.flatLeaf_put; destruct (byteSlicesEqual (Leaves.fl_key f) k) eqn:E; simpl.
  1,3: unfold Leaves.NewFlatLeaf; destruct newIsPtr; simpl; unfold Leaves.flatLeaf_get; simpl;
       apply byteSlicesEqual_spec in E; rewrite E;
       rewrite (byteSlicesEqual_neq k k') by congruence; reflexivity.
  1,2: unfold Leaves.flatLeaf_get; destruct (byteSlicesEqual (Leaves.fl_key f) k'); auto;
       rewrite (byteSlicesEqual_neq k k') by congruence; reflexivity.
  unfold Leaves.collisionLeaf_put.
  destruct (Leaves.kvs_replace (Leaves.cl_kvs c) k v) as [kvs'|] eqn:E; simpl.
  - eapply kvs_get_replace_other; eassumption.
  - rewrite kvs_get_app. destruct (Leaves.kvs_get (Leaves.cl_kvs c) k'); auto.
    simpl. rewrite (byteSlicesEqual_neq k k') by congruence. reflexivity.
Qed.

(** The hashcode of the leaf [put] returns, when the leaf's hashcode is the
    masked hashcode of the key. *)
Lemma hashcode_put : forall l k v,
  Leaves.hashcode l = Z.land (hashOf k) mask ->
  Leaves.hashcode (fst (leaf_put l k v)) = Leaves.hashcode l.
Proof.
  intros [f|f|c] k v H; unfold leaf_put; simpl in *.
  1,2: unfold Leaves.flatLeaf_put; destruct (byteSlicesEqual (Leaves.fl_key f) k); simpl; auto;
       unfold Leaves.NewFlatLeaf; destruct newIsPtr; simpl; congruence.
  unfold Leaves.collisionLeaf_put.
  destruct (Leaves.kvs_replace (Leaves.cl_kvs c) k v); reflexivity.
Qed.

(** flatLeaf.del of another key: the leaf returned is nil. *)
Lemma flatLeaf_del_absent : forall f k, Leaves.fl_key f <> k ->
  Leaves.flatLeaf_del V f k = (None, None, false).
Proof.
  intros f k H. unfold Leaves.flatLeaf_del.
  rewrite (byteSlicesEqual_neq _ _ H). reflexivity.
Qed.

(** collisionLeaf.del of an absent key on a leaf of two entries: nil again. *)
Lemma collisionLeaf_del_absent_two : forall h kv0 kv1 k,
  Leaves.kv_key kv0 <> k -> Leaves.kv_key kv1 <> k ->
  Leaves.collisionLeaf_del V mask newIsPtr (Leaves.mkCollisionLeaf h [kv0; kv1]) k
  = (None, None, false).
Proof.
  intros h kv0 kv1 k H0 H1. unfold Leaves.collisionLeaf_del. simpl.
  rewrite (byteSlicesEqual_neq k (Leaves.kv_key kv0)) by congruence.
  rewrite (byteSlicesEqual_neq k (Leaves.kv_key kv1)) by congruence.
  reflexivity.
Qed.

Lemma kvs_del_absent : forall (kvs : list (Leaves.keyVal V)) k nl retVal removed,
  Leaves.kvs_get kvs k = None ->
  Leaves.kvs_del kvs k nl retVal removed = (nl ++ kvs, retVal, removed).
Proof.
  induction kvs as [|kv rest IH]; intros k nl retVal removed H; simpl in *.
  - rewrite app_nil_r. reflexivity.
  - destruct (byteSlicesEqual (Leaves.kv_key kv) k) eqn:E; [discriminate|].
    rewrite byteSlicesEqual_sym, E. simpl. rewrite IH by assumption.
    rewrite <- app_assoc. reflexivity.
Qed.

(** collisionLeaf.del of an absent key on a leaf of another length: a new
    collision leaf with the same entries. *)
Lemma collisionLeaf_del_absent_many : forall c k,
  length (Leaves.cl_kvs c) <> 2%nat ->
  Leaves.kvs_get (Leaves.cl_kvs c) k = None ->
  Leaves.collisionLeaf_del V mask newIsPtr c k
  = (Some (Leaves.CollisionPtr (Leaves.mkCollisionLeaf (Leaves.cl_hash c) (Leaves.cl_kvs c))),
     None, false).
Proof.
  intros [h kvs] k Hlen Hget. unfold Leaves.collisionLeaf_del.
  cbn [Leaves.cl_kvs Leaves.cl_hash] in *.
  destruct kvs as [|a [|b [|c' r]]]; cbn [length] in Hlen; try congruence;
    cbv beta iota; rewrite kvs_del_absent by assumption; reflexivity.
Qed.

End WithValues.
End LeafFacts.

(** ** The leaves of package hamt32_functional *)
Module Leaf32Facts.
Import Hamt32.
Section WithValues.

Variable V : Type.

(** Reading a leaf after [put]: the key just written is found with its value. *)
Lemma get_put32_same : forall (l : leafI V) k v, Leaves.get (fst (leaf_put V l k v)) k = Some v.
Proof.
  intros [f|f|c] k v; cbn [leaf_put].
  1,2: destruct (byteSlicesEqual (Leaves.fl_key f) k) eqn:E;
       cbn [fst Leaves.get Leaves.flatLeaf_get Leaves.kvs_get Leaves.cl_kvs Leaves.fl_key
            Leaves.fl_val Leaves.kv_key Leaves.kv_val]; unfold Leaves.flatLeaf_get;
       cbn [Leaves.fl_key Leaves.fl_val];
       rewrite ?E, ?byteSlicesEqual_refl; reflexivity.
  destruct (Leaves.kvs_replace (Leaves.cl_kvs c) k v) as [kvs'|] eqn:E;
    cbn [fst Leaves.get Leaves.cl_kvs].
  - eapply LeafFacts.kvs_get_replace_same; eassumption.
  - rewrite LeafFacts.kvs_get_app, (LeafFacts.kvs_replace_none _ _ _ _ E).
    cbn [Leaves.kvs_get Leaves.kv_key Leaves.kv_val].
    rewrite byteSlicesEqual_refl. reflexivity.
Qed.

(** Reading another key after [put] gives what the leaf gave before. *)
Lemma get_put32_other : forall (l : leafI V) k v k', k' <> k ->
  Leaves.get (fst (leaf_put V l k v)) k' = Leaves.get l k'.
Proof.
  intros [f|f|c] k v k' Hne; cbn [leaf_put].
  1,2: destruct (byteSlicesEqual (Leaves.fl_key f) k) eqn:E;
       cbn [fst Leaves.get Leaves.kvs_get Leaves.cl_kvs Leaves.kv_key Leaves.kv_val];
       unfold Leaves.flatLeaf_get; cbn [Leaves.fl_key Leaves.fl_val];
       [apply byteSlicesEqual_spec in E; rewrite E;
        rewrite (byteSlicesEqual_neq k k') by congruence; reflexivity
       |destruct (byteSlicesEqual (Leaves.fl_key f) k'); [reflexivity|];
        rewrite (byteSlicesEqual_neq k k') by congruence; reflexivity].
  destruct (Leaves.kvs_replace (Leaves.cl_kvs c) k v) as [kvs'|] eqn:E;
    cbn [fst Leaves.get Leaves.cl_kvs].
  - eapply LeafFacts.kvs_get_replace_other; eassumption.
  - rewrite LeafFacts.kvs_get_app. destruct (Leaves.kvs_get (Leaves.cl_kvs c) k'); auto.
    cbn [Leaves.kvs_get Leaves.kv_key Leaves.kv_val].
    rewrite (byteSlicesEqual_neq k k') by congruence. reflexivity.
Qed.

(** [put] keeps the hashcode of the leaf. *)
Lemma hashcode_put32 : forall (l : leafI V) k v,
  Leaves.hashcode (fst (leaf_put V l k v)) = Leaves.hashcode l.
Proof.
  intros [f|f|c] k v; cbn [leaf_put].
  1,2: destruct (byteSlicesEqual (Leaves.fl_key f) k); reflexivity.
  destruct (Leaves.kvs_replace (Leaves.cl_kvs c) k v); reflexivity.
Qed.

(** [del] reports deleted exactly when it returns a value. *)
Lemma del_flag : forall (l : leafI V) k,
  snd (leaf_del V l k)
  = (match snd (fst (leaf_del V l k)) with Some _ => true | None => false end).
Proof.
  intros [f|f|c] k; cbn [leaf_del].
  1,2: destruct (byteSlicesEqual (Leaves.fl_key f) k); reflexivity.
  destruct (Leaves.kvs_get (Leaves.cl_kvs c) k); [|reflexivity].
  destruct (Leaves.cl_kvs c) as [|? [|? [|? ?]]]; try reflexivity.
  destruct (kvs_remove V _ k) as [|? [|? ?]]; reflexivity.
Qed.

(** [del] returns what [get] finds. *)
Lemma del_value : forall (l : leafI V) k, snd (fst (leaf_del V l k)) = Leaves.get l k.
Proof.
  intros [f|f|c] k; cbn [leaf_del Leaves.get]; unfold Leaves.flatLeaf_get.
  1,2: destruct (byteSlicesEqual (Leaves.fl_key f) k); reflexivity.
  destruct (Leaves.kvs_get (Leaves.cl_kvs c) k); [|reflexivity].
  destruct (Leaves.cl_kvs c) as [|? [|? [|? ?]]]; try reflexivity.
  destruct (kvs_remove V _ k) as [|? [|? ?]]; reflexivity.
Qed.

(** A leaf [del] returns has the hashcode of the leaf. *)
Lemma del_hashcode : forall (l l' : leafI V) k val deleted,
  leaf_del V l k = (Some l', val, deleted) -> Leaves.hashcode l' = Leaves.hashcode l.
Proof.
  intros [f|f|c] l' k val deleted H; cbn [leaf_del] in H.
  1,2: destruct (byteSlicesEqual (Leaves.fl_key f) k); [discriminate|];
       injection H as <- _ _; reflexivity.
  destruct (Leaves.kvs_get (Leaves.cl_kvs c) k); [|injection H as <- _ _; reflexivity].
  destruct (Leaves.cl_kvs c) as [|? [|? [|? ?]]];
    try (injection H as <- _ _; reflexivity).
  destruct (kvs_remove V _ k) as [|? [|? ?]]; injection H as <- _ _; reflexivity.
Qed.

(** [del] of a key the leaf does not hold returns the leaf itself. *)
Lemma del_absent : forall (l : leafI V) k, Leaves.get l k = None ->
  leaf_del V l k = (Some l, None, false).
Proof.
  intros [f|f|c] k H; cbn [leaf_del Leaves.get] in *; unfold Leaves.flatLeaf_get in *.
  1,2: destruct (byteSlicesEqual (Leaves.fl_key f) k); [discriminate|reflexivity].
  rewrite H. reflexivity.
Qed.

End WithValues.
End Leaf32Facts.

(** ** Bit utilities of the 32-bit variant *)
Module Bits32.
Import Hamt32.

Lemma depth_shift : forall d, 0 <= d <= 6 -> Go.u64 (d * NBITS32) = 5 * d.
Proof.
  intros d H. unfold NBITS32. rewrite GoFacts.u64_small; [lia|].
  split; [lia|]. apply Z.le_lt_trans with 30; [lia|]. reflexivity.
Qed.

Lemma pow2_5d_pos : forall d, 0 <= d -> 0 < 2 ^ (5 * d).
Proof. intros d H. apply Z.pow_pos_nonneg; lia. Qed.

Lemma pow2_5d_le : forall d, 0 <= d <= 6 -> 2 ^ (5 * d) <= 2 ^ 30.
Proof. intros d H. apply Z.pow_le_mono_r; lia. Qed.

Lemma indexMask_spec : forall d, 0 <= d <= 5 -> indexMask d = Z.shiftl 31 (5 * d).
Proof.
  intros d H. unfold indexMask. rewrite depth_shift by lia.
  change (Go.u8 (Go.u8 (Z.shiftl 1 NBITS32) - 1)) with 31.
  unfold Go.shl32. apply GoFacts.u32_small. rewrite Z.shiftl_mul_pow2 by lia.
  assert (0 < 2 ^ (5 * d)) by (apply pow2_5d_pos; lia).
  assert (2 ^ (5 * d) <= 2 ^ 25) by (apply Z.pow_le_mono_r; lia).
  change (2 ^ 25) with 33554432 in *. change (2 ^ 32) with 4294967296. lia.
Qed.

(** index(h30, depth) is the depth-th group of five bits. *)
Lemma index_spec : forall h d, 0 <= d <= 5 ->
  index h d = Z.land (Z.shiftr h (5 * d)) 31.
Proof.
  intros h d H. unfold index. rewrite indexMask_spec, depth_shift by lia.
  rewrite Z.shiftr_land. rewrite Z.shiftr_shiftl_l by lia.
  replace (5 * d - 5 * d) with 0 by lia. rewrite Z.shiftl_0_r. reflexivity.
Qed.

Lemma index_range : forall h d, 0 <= d <= 5 -> 0 <= index h d < 32.
Proof.
  intros h d H. rewrite index_spec by lia.
  change 31 with (Z.ones 5). rewrite Z.land_ones by lia.
  change (2 ^ 5) with 32. apply Z.mod_pos_bound. lia.
Qed.

Lemma index_testbit : forall h d j, 0 <= d <= 5 -> 0 <= j ->
  Z.testbit (index h d) j = if j <? 5 then Z.testbit h (5 * d + j) else false.
Proof.
  intros h d j H Hj. rewrite index_spec by lia.
  change 31 with (Z.ones 5). rewrite Z.land_spec, Z.shiftr_spec by lia.
  destruct (j <? 5) eqn:E.
  - apply Z.ltb_lt in E. rewrite Z.ones_spec_low by lia.
    rewrite andb_true_r. f_equal. lia.
  - apply Z.ltb_ge in E. rewrite Z.ones_spec_high by lia. apply andb_false_r.
Qed.

Lemma hashPathMask_spec : forall d, 0 <= d <= 6 -> hashPathMask d = Z.ones (5 * d).
Proof.
  intros d H. unfold hashPathMask. rewrite depth_shift by lia.
  rewrite GoFacts.shl32_one by lia. rewrite Z.ones_equiv, <- Z.sub_1_r.
  apply GoFacts.u32_small.
  assert (0 < 2 ^ (5 * d)) by (apply pow2_5d_pos; lia).
  assert (2 ^ (5 * d) <= 2 ^ 30) by (apply pow2_5d_le; lia).
  change (2 ^ 30) with 1073741824 in *. change (2 ^ 32) with 4294967296. lia.
Qed.

(** buildHashPath of the 32-bit variant is the bitwise OR of the prefix with
    the slot index shifted to its depth. *)
Lemma buildHashPath_or : forall p i d, 0 <= i < 32 -> 0 <= d <= 5 ->
  buildHashPath p i d = Z.lor p (Z.shiftl i (d * NBITS32)).
Proof.
  intros p i d Hi Hd. unfold buildHashPath. rewrite depth_shift by lia.
  unfold NBITS32. replace (d * 5) with (5 * d) by lia. f_equal.
  assert (0 < 2 ^ (5 * d)) by (apply pow2_5d_pos; lia).
  assert (2 ^ (5 * d) <= 2 ^ 25) by (apply Z.pow_le_mono_r; lia).
  change (2 ^ 25) with 33554432 in *.
  unfold Go.shl64. rewrite Z.shiftl_mul_pow2 by lia.
  rewrite GoFacts.u64_small, GoFacts.u32_small; auto.
  - change (2 ^ 32) with 4294967296. nia.
  - change (2 ^ 64) with 18446744073709551616. nia.
Qed.

End Bits32.

(** ** Population count and the position of a slot *)
Module Popcount.
Import Hamt32.

(** Number of set bits of [m] below bit [i]. *)
Definition rank (m i : Z) : Z := popcount_below (Z.to_nat i) m.

Lemma popcount_below_bounds : forall n m, 0 <= popcount_below n m <= Z.of_nat n.
Proof.
  induction n as [|n IH]; intros m; cbn [popcount_below]; [lia|].
  specialize (IH m). destruct (Z.testbit m (Z.of_nat n)); lia.
Qed.

Lemma popcount_below_mono : forall n1 n2 m, (n1 <= n2)%nat ->
  popcount_below n1 m <= popcount_below n2 m.
Proof.
  intros n1 n2 m H. induction H as [|n2 H IH]; [lia|].
  cbn [popcount_below]. destruct (Z.testbit m (Z.of_nat n2)); lia.
Qed.

Lemma popcount_below_ext : forall n m1 m2,
  (forall j, 0 <= j < Z.of_nat n -> Z.testbit m1 j = Z.testbit m2 j) ->
  popcount_below n m1 = popcount_below n m2.
Proof.
  induction n as [|n IH]; intros m1 m2 H; cbn [popcount_below]; [reflexivity|].
  rewrite (IH m1 m2) by (intros j Hj; apply H; lia).
  rewrite (H (Z.of_nat n)) by lia. reflexivity.
Qed.

Lemma popcount_below_land_ones : forall n m i, 0 <= i ->
  popcount_below n (Z.land m (Z.ones i)) = popcount_below (Nat.min n (Z.to_nat i)) m.
Proof.
  induction n as [|n IH]; intros m i Hi; [reflexivity|].
  cbn [popcount_below]. rewrite IH by assumption.
  rewrite Z.land_spec. destruct (Z.ltb_spec (Z.of_nat n) i) as [Hlt|Hge].
  - rewrite Z.ones_spec_low by lia. rewrite andb_true_r.
    replace (Nat.min (S n) (Z.to_nat i)) with (S n) by lia.
    replace (Nat.min n (Z.to_nat i)) with n by lia. reflexivity.
  - rewrite Z.ones_spec_high by lia. rewrite andb_false_r.
    replace (Nat.min (S n) (Z.to_nat i)) with (Z.to_nat i) by lia.
    replace (Nat.min n (Z.to_nat i)) with (Z.to_nat i) by lia. lia.
Qed.

Lemma testbit_pow2 : forall i j, 0 <= i -> 0 <= j ->
  Z.testbit (2 ^ i) j = (j =? i).
Proof.
  intros i j Hi Hj. destruct (Z.eqb_spec j i) as [->|Hne].
  - apply Z.pow2_bits_true. lia.
  - apply Z.pow2_bits_false. lia.
Qed.

Lemma land_pow2 : forall m i, 0 <= i ->
  Z.land m (2 ^ i) = if Z.testbit m i then 2 ^ i else 0.
Proof.
  intros m i Hi. apply Z.bits_inj'. intros j Hj.
  rewrite Z.land_spec, testbit_pow2 by lia.
  destruct (Z.eqb_spec j i) as [->|Hne].
  - destruct (Z.testbit m i); simpl.
    + symmetry. apply Z.pow2_bits_true. lia.
    + symmetry. apply Z.bits_0.
  - rewrite andb_false_r. destruct (Z.testbit m i).
    + symmetry. apply Z.pow2_bits_false. lia.
    + symmetry. apply Z.bits_0.
Qed.

Lemma land_pow2_eq0 : forall m i, 0 <= i ->
  (Z.land m (2 ^ i) =? 0) = negb (Z.testbit m i).
Proof.
  intros m i Hi. rewrite land_pow2 by assumption.
  destruct (Z.testbit m i); simpl; [|reflexivity].
  apply Z.eqb_neq. assert (0 < 2 ^ i) by (apply Z.pow_pos_nonneg; lia). lia.
Qed.

Lemma land_pow2_pos : forall m i, 0 <= i ->
  (0 <? Z.land m (2 ^ i)) = Z.testbit m i.
Proof.
  intros m i Hi. rewrite land_pow2 by assumption.
  destruct (Z.testbit m i); simpl; [|reflexivity].
  apply Z.ltb_lt. apply Z.pow_pos_nonneg; lia.
Qed.

Lemma popcount_below_set : forall n m i, 0 <= i ->
  popcount_below n (Z.lor m (2 ^ i)) =
  popcount_below n m
  + (if (i <? Z.of_nat n) && negb (Z.testbit m i) then 1 else 0).
Proof.
  induction n as [|n IH]; intros m i Hi.
  - cbn [popcount_below]. destruct (Z.ltb_spec i (Z.of_nat 0)); [lia|]. reflexivity.
  - cbn [popcount_below]. rewrite IH by assumption.
    rewrite Z.lor_spec, testbit_pow2 by lia. rewrite Nat2Z.inj_succ.
    destruct (Z.eqb_spec (Z.of_nat n) i) as [He|Hne];
      destruct (Z.ltb_spec i (Z.of_nat n)); destruct (Z.ltb_spec i (Z.succ (Z.of_nat n)));
      try lia; try rewrite He; rewrite ?orb_false_r, ?orb_true_r, ?andb_true_r;
      destruct (Z.testbit m i); cbn [andb orb negb];
      try destruct (Z.testbit m (Z.of_nat n)); lia.
Qed.

Lemma popcount_below_clear : forall n m i, 0 <= i ->
  popcount_below n (Z.ldiff m (2 ^ i)) =
  popcount_below n m
  - (if (i <? Z.of_nat n) && Z.testbit m i then 1 else 0).
Proof.
  induction n as [|n IH]; intros m i Hi.
  - cbn [popcount_below]. destruct (Z.ltb_spec i (Z.of_nat 0)); [lia|]. reflexivity.
  - cbn [popcount_below]. rewrite IH by assumption.
    rewrite Z.ldiff_spec, testbit_pow2 by lia. rewrite Nat2Z.inj_succ.
    destruct (Z.eqb_spec (Z.of_nat n) i) as [He|Hne];
      destruct (Z.ltb_spec i (Z.of_nat n)); destruct (Z.ltb_spec i (Z.succ (Z.of_nat n)));
      try lia; try rewrite He; rewrite ?orb_false_r, ?orb_true_r, ?andb_true_r;
      destruct (Z.testbit m i); cbn [andb orb negb];
      try destruct (Z.testbit m (Z.of_nat n)); lia.
Qed.

(** The slot position the tables compute: [bitCount32(nodeMap & (1<<idx - 1))]. *)
Lemma bitCount32_below : forall m i, 0 <= i < 32 ->
  bitCount32 (Z.land m (Go.u32 (Go.shl32 1 i - 1))) = rank m i.
Proof.
  intros m i Hi. rewrite GoFacts.shl32_one by assumption.
  assert (Hp : 0 < 2 ^ i) by (apply Z.pow_pos_nonneg; lia).
  assert (Hq : 2 ^ i <= 2 ^ 31) by (apply Z.pow_le_mono_r; lia).
  change (2 ^ 31) with 2147483648 in Hq.
  rewrite GoFacts.u32_small by (change (2 ^ 32) with 4294967296; lia).
  rewrite Z.sub_1_r, <- Z.ones_equiv. unfold bitCount32, rank.
  rewrite popcount_below_land_ones by lia. f_equal. lia.
Qed.

Lemma rank_bounds : forall m i, 0 <= i -> 0 <= rank m i <= i.
Proof.
  intros m i Hi. unfold rank.
  pose proof (popcount_below_bounds (Z.to_nat i) m). lia.
Qed.

Lemma rank_zero : forall m, rank m 0 = 0.
Proof. reflexivity. Qed.

Lemma rank_succ : forall m i, 0 <= i ->
  rank m (i + 1) = rank m i + (if Z.testbit m i then 1 else 0).
Proof.
  intros m i Hi. unfold rank. replace (Z.to_nat (i + 1)) with (S (Z.to_nat i)) by lia.
  cbn [popcount_below]. rewrite Z2Nat.id by lia. reflexivity.
Qed.

Lemma rank_mono : forall m i j, 0 <= i <= j -> rank m i <= rank m j.
Proof. intros m i j H. unfold rank. apply popcount_below_mono. lia. Qed.

(** A set bit below [j] is counted by [rank m j]. *)
Lemma rank_lt : forall m i j, 0 <= i < j -> Z.testbit m i = true -> rank m i < rank m j.
Proof.
  intros m i j H Hb. pose proof (rank_mono m (i + 1) j ltac:(lia)).
  rewrite rank_succ, Hb in H0 by lia. lia.
Qed.

Lemma bitCount32_rank : forall m, bitCount32 m = rank m 32.
Proof.
  intros m. unfold bitCount32, rank. f_equal.
Qed.

Lemma rank_lt_bitCount32 : forall m i, 0 <= i < 32 -> Z.testbit m i = true ->
  rank m i < bitCount32 m.
Proof.
  intros m i H Hb. rewrite bitCount32_rank. apply rank_lt; [lia|assumption].
Qed.

Lemma rank_le_bitCount32 : forall m i, 0 <= i <= 32 -> rank m i <= bitCount32 m.
Proof.
  intros m i H. rewrite bitCount32_rank. apply rank_mono. lia.
Qed.

Lemma rank_set : forall m i j, 0 <= i -> 0 <= j ->
  rank (Z.lor m (2 ^ i)) j = rank m j + (if (i <? j) && negb (Z.testbit m i) then 1 else 0).
Proof.
  intros m i j Hi Hj. unfold rank. rewrite popcount_below_set by assumption.
  rewrite Z2Nat.id by lia. reflexivity.
Qed.

Lemma rank_clear : forall m i j, 0 <= i -> 0 <= j ->
  rank (Z.ldiff m (2 ^ i)) j = rank m j - (if (i <? j) && Z.testbit m i then 1 else 0).
Proof.
  intros m i j Hi Hj. unfold rank. rewrite popcount_below_clear by assumption.
  rewrite Z2Nat.id by lia. reflexivity.
Qed.

Lemma bitCount32_set : forall m i, 0 <= i < 32 ->
  bitCount32 (Z.lor m (2 ^ i)) = bitCount32 m + (if Z.testbit m i then 0 else 1).
Proof.
  intros m i Hi. unfold bitCount32. rewrite popcount_below_set by lia.
  replace (i <? Z.of_nat 32) with true by (symmetry; apply Z.ltb_lt; lia).
  destruct (Z.testbit m i); reflexivity.
Qed.

Lemma bitCount32_clear : forall m i, 0 <= i < 32 ->
  bitCount32 (Z.ldiff m (2 ^ i)) = bitCount32 m - (if Z.testbit m i then 1 else 0).
Proof.
  intros m i Hi. unfold bitCount32. rewrite popcount_below_clear by lia.
  replace (i <? Z.of_nat 32) with true by (symmetry; apply Z.ltb_lt; lia).
  destruct (Z.testbit m i); reflexivity.
Qed.

Lemma bitCount32_zero : bitCount32 0 = 0.
Proof. reflexivity. Qed.

(** A 32-bit bitmap with no bit set is zero. *)
Lemma bitmap_zero : forall m, 0 <= m < 2 ^ 32 ->
  (forall i, 0 <= i < 32 -> Z.testbit m i = false) -> m = 0.
Proof.
  intros m Hm H. apply Z.bits_inj'. intros j Hj. rewrite Z.bits_0.
  destruct (Z.ltb_spec j 32).
  - apply H. lia.
  - destruct (Z.eq_dec m 0) as [->|Hne]; [apply Z.bits_0|].
    apply Z.bits_above_log2; [lia|].
    assert (Z.log2 m < 32) by (apply Z.log2_lt_pow2; lia). lia.
Qed.

Lemma bitmap_high : forall m j, 0 <= m < 2 ^ 32 -> 32 <= j -> Z.testbit m j = false.
Proof.
  intros m j Hm Hj. destruct (Z.eq_dec m 0) as [->|Hne]; [apply Z.bits_0|].
  apply Z.bits_above_log2; [lia|].
  assert (Z.log2 m < 32) by (apply Z.log2_lt_pow2; lia). lia.
Qed.

Lemma bitmap_set_range : forall m i, 0 <= m < 2 ^ 32 -> 0 <= i < 32 ->
  0 <= Z.lor m (2 ^ i) < 2 ^ 32.
Proof.
  intros m i Hm Hi.
  assert (H0 : 0 <= Z.lor m (2 ^ i)) by (apply Z.lor_nonneg; split; [lia|apply Z.pow_nonneg; lia]).
  split; [assumption|].
  destruct (Z.eq_dec (Z.lor m (2 ^ i)) 0) as [->|Hne]; [reflexivity|].
  apply Z.log2_lt_pow2; [lia|]. rewrite Z.log2_lor by (try lia; apply Z.pow_nonneg; lia).
  apply Z.max_lub_lt.
  - destruct (Z.eq_dec m 0) as [->|Hm0]; [reflexivity|]. apply Z.log2_lt_pow2; lia.
  - rewrite Z.log2_pow2 by lia. lia.
Qed.

Lemma bitmap_clear_range : forall m i, 0 <= m < 2 ^ 32 -> 0 <= i ->
  0 <= Z.ldiff m (2 ^ i) < 2 ^ 32.
Proof.
  intros m i Hm Hi.
  assert (H0 : 0 <= Z.ldiff m (2 ^ i)) by (apply Z.ldiff_nonneg; lia).
  split; [assumption|].
  apply Z.le_lt_trans with m; [|lia]. apply Z.ldiff_le; [lia|].
  apply Z.bits_inj'. intros j Hj. rewrite !Z.ldiff_spec, Z.bits_0.
  destruct (Z.testbit m j); [apply andb_false_r|reflexivity].
Qed.

End Popcount.

(** ** Slices *)
Module SliceFacts.
Section Slices.

Variable A : Type.
Implicit Types (s : list A) (x : A).

Lemma index_slice_nth : forall s i, 0 <= i ->
  Go.index_slice s i = match nth_error s (Z.to_nat i) with
                       | Some a => Ok a
                       | None => Panic IndexOutOfRange
                       end.
Proof.
  intros s i Hi. unfold Go.index_slice.
  destruct (Z.ltb_spec i 0); [lia|reflexivity].
Qed.

Lemma insert_slice_ok : forall s i x, 0 <= i <= Z.of_nat (length s) ->
  Go.insert_slice s i x = Ok (firstn (Z.to_nat i) s ++ x :: skipn (Z.to_nat i) s).
Proof.
  intros s i x H. unfold Go.insert_slice.
  destruct (Z.ltb_spec i 0); [lia|].
  destruct (Z.ltb_spec (Z.of_nat (length s)) i); [lia|]. reflexivity.
Qed.

Lemma store_slice_ok : forall s i x, 0 <= i < Z.of_nat (length s) ->
  Go.store_slice s i x = Ok (firstn (Z.to_nat i) s ++ x :: skipn (S (Z.to_nat i)) s).
Proof.
  intros s i x H. unfold Go.store_slice.
  destruct (Z.ltb_spec i 0); [lia|].
  destruct (Z.leb_spec (Z.of_nat (length s)) i); [lia|]. reflexivity.
Qed.

Lemma remove_slice_ok : forall s i, 0 <= i < Z.of_nat (length s) ->
  Go.remove_slice s i = Ok (firstn (Z.to_nat i) s ++ skipn (S (Z.to_nat i)) s).
Proof.
  intros s i H. unfold Go.remove_slice.
  destruct (Z.ltb_spec i 0); [lia|].
  destruct (Z.ltb_spec (Z.of_nat (length s)) (i + 1)); [lia|]. reflexivity.
Qed.

Lemma nth_error_skipn : forall s n q, nth_error (skipn n s) q = nth_error s (n + q).
Proof.
  induction s as [|a s IH]; intros [|n] q; simpl; auto.
  - destruct q; reflexivity.
Qed.

Lemma nth_error_firstn_lt : forall s n q, (q < n)%nat ->
  nth_error (firstn n s) q = nth_error s q.
Proof.
  induction s as [|a s IH]; intros [|n] [|q] H; simpl; auto; try lia.
  apply IH. lia.
Qed.

Lemma nth_error_insert : forall s r x q, (r <= length s)%nat ->
  nth_error (firstn r s ++ x :: skipn r s) q =
  if (q <? r)%nat then nth_error s q
  else if (q =? r)%nat then Some x else nth_error s (q - 1).
Proof.
  intros s r x q Hr.
  assert (Hl : length (firstn r s) = r) by (apply firstn_length_le; assumption).
  destruct (Nat.ltb_spec q r).
  - rewrite nth_error_app1 by lia. apply nth_error_firstn_lt. assumption.
  - rewrite nth_error_app2 by lia. rewrite Hl.
    destruct (Nat.eqb_spec q r) as [->|Hne].
    + rewrite Nat.sub_diag. reflexivity.
    + destruct (q - r)%nat as [|d] eqn:E; [lia|]. simpl.
      rewrite nth_error_skipn. f_equal. lia.
Qed.

Lemma nth_error_store : forall s r x q, (r < length s)%nat ->
  nth_error (firstn r s ++ x :: skipn (S r) s) q =
  if (q =? r)%nat then Some x else nth_error s q.
Proof.
  intros s r x q Hr.
  assert (Hl : length (firstn r s) = r) by (apply firstn_length_le; lia).
  destruct (Nat.eqb_spec q r) as [->|Hne].
  - rewrite nth_error_app2 by lia. rewrite Hl, Nat.sub_diag. reflexivity.
  - destruct (Nat.ltb_spec q r).
    + rewrite nth_error_app1 by lia. apply nth_error_firstn_lt. assumption.
    + rewrite nth_error_app2 by lia. rewrite Hl.
      destruct (q - r)%nat as [|d] eqn:E; [lia|]. cbn [nth_error].
      rewrite nth_error_skipn. f_equal. lia.
Qed.

Lemma nth_error_remove : forall s r q, (r < length s)%nat ->
  nth_error (firstn r s ++ skipn (S r) s) q =
  if (q <? r)%nat then nth_error s q else nth_error s (S q).
Proof.
  intros s r q Hr.
  assert (Hl : length (firstn r s) = r) by (apply firstn_length_le; lia).
  destruct (Nat.ltb_spec q r).
  - rewrite nth_error_app1 by lia. apply nth_error_firstn_lt. assumption.
  - rewrite nth_error_app2 by lia. rewrite Hl, nth_error_skipn. f_equal. lia.
Qed.

Lemma length_insert : forall s r x, (r <= length s)%nat ->
  length (firstn r s ++ x :: skipn r s) = S (length s).
Proof.
  intros s r x Hr. rewrite length_app. cbn [length].
  rewrite length_skipn. rewrite firstn_length_le by lia. lia.
Qed.

Lemma length_store : forall s r x, (r < length s)%nat ->
  length (firstn r s ++ x :: skipn (S r) s) = length s.
Proof.
  intros s r x Hr. rewrite length_app. cbn [length].
  rewrite length_skipn. rewrite firstn_length_le by lia. lia.
Qed.

Lemma length_remove : forall s r, (r < length s)%nat ->
  length (firstn r s ++ skipn (S r) s) = (length s - 1)%nat.
Proof.
  intros s r Hr. rewrite length_app. rewrite length_skipn. rewrite firstn_length_le by lia. lia.
Qed.

End Slices.
End SliceFacts.

(** ** The compressed (sparse) table *)
Module CompressedFacts.
Import Hamt32 Popcount.

Arguments bitCount32 : simpl never.
Arguments popcount_below : simpl never.
Arguments Go.shl32 : simpl never.
Arguments Go.u32 : simpl never.
Arguments Go.u64 : simpl never.
Arguments index : simpl never.
Arguments hashPathMask : simpl never.
Arguments buildHashPath : simpl never.

Section WithValues.

Variable V : Type.

(** Layout of a sparse table (section 4.3): a 32-bit bitmap and as many
    children as it has bits set. *)
Definition ct_ok (nodeMap : Z) (nodes : list (node V)) : Prop :=
  0 <= nodeMap < 2 ^ 32 /\ Z.of_nat (length nodes) = bitCount32 nodeMap.

(** The child of slot [i]. *)
Definition ct_lookup (nodeMap : Z) (nodes : list (node V)) (i : Z) : option (node V) :=
  if Z.testbit nodeMap i then nth_error nodes (Z.to_nat (rank nodeMap i)) else None.

Lemma ct_lookup_set : forall nodeMap nodes i, ct_ok nodeMap nodes -> 0 <= i < 32 ->
  Z.testbit nodeMap i = true -> exists nd, ct_lookup nodeMap nodes i = Some nd.
Proof.
  intros nodeMap nodes i [Hm Hl] Hi Hb. unfold ct_lookup. rewrite Hb.
  pose proof (rank_lt_bitCount32 nodeMap i Hi Hb).
  pose proof (rank_bounds nodeMap i ltac:(lia)).
  destruct (nth_error nodes (Z.to_nat (rank nodeMap i))) eqn:E; [eauto|].
  apply nth_error_None in E. lia.
Qed.

Lemma compressed_get_lookup : forall nodeMap nodes i, ct_ok nodeMap nodes -> 0 <= i < 32 ->
  compressed_get V nodeMap nodes i = Ok (ct_lookup nodeMap nodes i).
Proof.
  intros nodeMap nodes i Hok Hi. unfold compressed_get.
  rewrite bitCount32_below by assumption.
  rewrite GoFacts.shl32_one by assumption. rewrite land_pow2_eq0 by lia.
  destruct (Z.testbit nodeMap i) eqn:Hb; simpl.
  - destruct (ct_lookup_set nodeMap nodes i Hok Hi Hb) as [nd Hnd].
    rewrite Hnd. unfold ct_lookup in Hnd. rewrite Hb in Hnd.
    rewrite SliceFacts.index_slice_nth by (apply rank_bounds; lia).
    rewrite Hnd. reflexivity.
  - unfold ct_lookup. rewrite Hb. reflexivity.
Qed.

Lemma ct_ok_rank_le : forall nodeMap nodes i, ct_ok nodeMap nodes -> 0 <= i <= 32 ->
  0 <= rank nodeMap i <= Z.of_nat (length nodes).
Proof.
  intros nodeMap nodes i [Hm Hl] Hi. rewrite Hl.
  pose proof (rank_bounds nodeMap i ltac:(lia)).
  pose proof (rank_le_bitCount32 nodeMap i Hi). lia.
Qed.

Lemma ct_ok_rank_lt : forall nodeMap nodes i, ct_ok nodeMap nodes -> 0 <= i < 32 ->
  Z.testbit nodeMap i = true -> 0 <= rank nodeMap i < Z.of_nat (length nodes).
Proof.
  intros nodeMap nodes i [Hm Hl] Hi Hb. rewrite Hl.
  pose proof (rank_bounds nodeMap i ltac:(lia)).
  pose proof (rank_lt_bitCount32 nodeMap i Hi Hb). lia.
Qed.

(** Inserting a child at an empty slot. *)
Lemma ct_insert_ok : forall nodeMap nodes i nd, ct_ok nodeMap nodes -> 0 <= i < 32 ->
  Z.testbit nodeMap i = false ->
  ct_ok (Z.lor nodeMap (2 ^ i))
        (firstn (Z.to_nat (rank nodeMap i)) nodes ++ nd :: skipn (Z.to_nat (rank nodeMap i)) nodes).
Proof.
  intros nodeMap nodes i nd Hok Hi Hb.
  pose proof (ct_ok_rank_le nodeMap nodes i Hok ltac:(lia)) as Hr.
  destruct Hok as [Hm Hl]. split.
  - apply bitmap_set_range; assumption.
  - rewrite SliceFacts.length_insert by lia.
    rewrite bitCount32_set, Hb by assumption. lia.
Qed.

Lemma ct_insert_lookup : forall nodeMap nodes i nd j, ct_ok nodeMap nodes -> 0 <= i < 32 ->
  Z.testbit nodeMap i = false -> 0 <= j < 32 ->
  ct_lookup (Z.lor nodeMap (2 ^ i))
    (firstn (Z.to_nat (rank nodeMap i)) nodes ++ nd :: skipn (Z.to_nat (rank nodeMap i)) nodes) j
  = if j =? i then Some nd else ct_lookup nodeMap nodes j.
Proof.
  intros nodeMap nodes i nd j Hok Hi Hb Hj.
  pose proof (ct_ok_rank_le nodeMap nodes i Hok ltac:(lia)) as Hr.
  pose proof (rank_bounds nodeMap j ltac:(lia)) as Hrj.
  unfold ct_lookup. rewrite Z.lor_spec, testbit_pow2 by lia.
  rewrite rank_set by lia. rewrite Hb. cbn [negb]. rewrite andb_true_r.
  rewrite SliceFacts.nth_error_insert by lia.
  destruct (Z.eqb_spec j i) as [->|Hne].
  - rewrite orb_true_r, Z.ltb_irrefl, Z.add_0_r.
    rewrite Nat.ltb_irrefl, Nat.eqb_refl. reflexivity.
  - rewrite orb_false_r. destruct (Z.testbit nodeMap j) eqn:Hbj; [|reflexivity].
    destruct (Z.ltb_spec i j).
    + pose proof (rank_mono nodeMap i j ltac:(lia)).
      destruct (Nat.ltb_spec (Z.to_nat (rank nodeMap j + 1)) (Z.to_nat (rank nodeMap i))); [lia|].
      destruct (Nat.eqb_spec (Z.to_nat (rank nodeMap j + 1)) (Z.to_nat (rank nodeMap i))); [lia|].
      f_equal. lia.
    + pose proof (rank_lt nodeMap j i ltac:(lia) Hbj).
      rewrite Z.add_0_r.
      destruct (Nat.ltb_spec (Z.to_nat (rank nodeMap j)) (Z.to_nat (rank nodeMap i))); [|lia].
      reflexivity.
Qed.

(** Replacing the child of an occupied slot. *)
Lemma ct_store_ok : forall nodeMap nodes i nd, ct_ok nodeMap nodes -> 0 <= i < 32 ->
  Z.testbit nodeMap i = true ->
  ct_ok nodeMap
        (firstn (Z.to_nat (rank nodeMap i)) nodes ++ nd :: skipn (S (Z.to_nat (rank nodeMap i))) nodes).
Proof.
  intros nodeMap nodes i nd Hok Hi Hb.
  pose proof (ct_ok_rank_lt nodeMap nodes i Hok Hi Hb) as Hr.
  destruct Hok as [Hm Hl]. split; [assumption|].
  rewrite SliceFacts.length_store by lia. assumption.
Qed.

Lemma ct_store_lookup : forall nodeMap nodes i nd j, ct_ok nodeMap nodes -> 0 <= i < 32 ->
  Z.testbit nodeMap i = true -> 0 <= j < 32 ->
  ct_lookup nodeMap
    (firstn (Z.to_nat (rank nodeMap i)) nodes ++ nd :: skipn (S (Z.to_nat (rank nodeMap i))) nodes) j
  = if j =? i then Some nd else ct_lookup nodeMap nodes j.
Proof.
  intros nodeMap nodes i nd j Hok Hi Hb Hj.
  pose proof (ct_ok_rank_lt nodeMap nodes i Hok Hi Hb) as Hr.
  pose proof (rank_bounds nodeMap j ltac:(lia)) as Hrj.
  unfold ct_lookup. rewrite SliceFacts.nth_error_store by lia.
  destruct (Z.eqb_spec j i) as [->|Hne].
  - rewrite Hb, Nat.eqb_refl. reflexivity.
  - destruct (Z.testbit nodeMap j) eqn:Hbj; [|reflexivity].
    destruct (Nat.eqb_spec (Z.to_nat (rank nodeMap j)) (Z.to_nat (rank nodeMap i))) as [He|]; [|reflexivity].
    exfalso. destruct (Z.ltb_spec i j).
    + pose proof (rank_lt nodeMap i j ltac:(lia) Hb). lia.
    + pose proof (rank_lt nodeMap j i ltac:(lia) Hbj). lia.
Qed.

(** Removing the child of an occupied slot. *)
Lemma ct_remove_ok : forall nodeMap nodes i, ct_ok nodeMap nodes -> 0 <= i < 32 ->
  Z.testbit nodeMap i = true ->
  ct_ok (Z.ldiff nodeMap (2 ^ i))
        (firstn (Z.to_nat (rank nodeMap i)) nodes ++ skipn (S (Z.to_nat (rank nodeMap i))) nodes).
Proof.
  intros nodeMap nodes i Hok Hi Hb.
  pose proof (ct_ok_rank_lt nodeMap nodes i Hok Hi Hb) as Hr.
  destruct Hok as [Hm Hl]. split.
  - apply bitmap_clear_range; [assumption|lia].
  - rewrite SliceFacts.length_remove by lia.
    rewrite bitCount32_clear, Hb by assumption. lia.
Qed.

Lemma ct_remove_lookup : forall nodeMap nodes i j, ct_ok nodeMap nodes -> 0 <= i < 32 ->
  Z.testbit nodeMap i = true -> 0 <= j < 32 ->
  ct_lookup (Z.ldiff nodeMap (2 ^ i))
    (firstn (Z.to_nat (rank nodeMap i)) nodes ++ skipn (S (Z.to_nat (rank nodeMap i))) nodes) j
  = if j =? i then None else ct_lookup nodeMap nodes j.
Proof.
  intros nodeMap nodes i j Hok Hi Hb Hj.
  pose proof (ct_ok_rank_lt nodeMap nodes i Hok Hi Hb) as Hr.
  pose proof (rank_bounds nodeMap j ltac:(lia)) as Hrj.
  unfold ct_lookup. rewrite Z.ldiff_spec, testbit_pow2 by lia.
  rewrite rank_clear by lia. rewrite Hb, andb_true_r.
  rewrite SliceFacts.nth_error_remove by lia.
  destruct (Z.eqb_spec j i) as [->|Hne].
  - rewrite Hb. reflexivity.
  - cbn [negb]. rewrite andb_true_r.
    destruct (Z.testbit nodeMap j) eqn:Hbj; [|reflexivity].
    destruct (Z.ltb_spec i j).
    + pose proof (rank_lt nodeMap i j ltac:(lia) Hb).
      destruct (Nat.ltb_spec (Z.to_nat (rank nodeMap j - 1)) (Z.to_nat (rank nodeMap i))); [lia|].
      f_equal. lia.
    + pose proof (rank_lt nodeMap j i ltac:(lia) Hbj).
      rewrite Z.sub_0_r.
      destruct (Nat.ltb_spec (Z.to_nat (rank nodeMap j)) (Z.to_nat (rank nodeMap i))); [|lia].
      reflexivity.
Qed.

End WithValues.
End CompressedFacts.

(** ** Entries of a table, and the tables built from entries *)
Module EntryFacts.
Import Hamt32 Popcount CompressedFacts.

Section WithValues.

Variable V : Type.

Definition is_some {A : Type} (o : option A) : bool :=
  match o with Some _ => true | None => false end.

(** The occupied slots among [i, i+n), in ascending order. *)
Fixpoint slots_entries (lookup : Z -> option (node V)) (i : Z) (n : nat)
    : list (tableEntry V) :=
  match n with
  | O => []
  | S n' =>
      match lookup i with
      | Some nd => (i, nd) :: slots_entries lookup (i + 1) n'
      | None => slots_entries lookup (i + 1) n'
      end
  end.

Lemma slots_entries_app : forall lookup n1 n2 i,
  slots_entries lookup i (n1 + n2) =
  slots_entries lookup i n1 ++ slots_entries lookup (i + Z.of_nat n1) n2.
Proof.
  intros lookup n1. induction n1 as [|n1 IH]; intros n2 i.
  - simpl. rewrite Z.add_0_r. reflexivity.
  - cbn [Nat.add slots_entries]. rewrite IH.
    replace (i + 1 + Z.of_nat n1) with (i + Z.of_nat (S n1)) by lia.
    destruct (lookup i); reflexivity.
Qed.

Lemma slots_entries_ext : forall l1 l2 n i,
  (forall k, i <= k < i + Z.of_nat n -> l1 k = l2 k) ->
  slots_entries l1 i n = slots_entries l2 i n.
Proof.
  intros l1 l2 n. induction n as [|n IH]; intros i H; [reflexivity|].
  cbn [slots_entries]. rewrite (H i) by lia.
  rewrite (IH (i + 1)) by (intros k Hk; apply H; lia). reflexivity.
Qed.

(** compressedTable.entries *)
Lemma compressed_entries_loop_spec : forall nodeMap nodes n i,
  ct_ok V nodeMap nodes -> 0 <= i -> i + Z.of_nat n <= 32 ->
  compressed_entries_loop V n i (rank nodeMap i) nodeMap nodes
  = Ok (slots_entries (ct_lookup V nodeMap nodes) i n).
Proof.
  intros nodeMap nodes n. induction n as [|n IH]; intros i Hok Hi Hn; [reflexivity|].
  cbn [compressed_entries_loop slots_entries].
  rewrite GoFacts.shl32_one by lia. rewrite land_pow2_pos by lia.
  destruct (Z.testbit nodeMap i) eqn:Hb.
  - destruct (ct_lookup_set V nodeMap nodes i Hok ltac:(lia) Hb) as [nd Hnd].
    rewrite Hnd. unfold ct_lookup in Hnd. rewrite Hb in Hnd.
    rewrite SliceFacts.index_slice_nth by (apply rank_bounds; lia).
    rewrite Hnd. cbn [Go.bind].
    replace (rank nodeMap i + 1) with (rank nodeMap (i + 1))
      by (rewrite rank_succ, Hb by lia; reflexivity).
    rewrite IH by (try assumption; lia). reflexivity.
  - assert (Hl : ct_lookup V nodeMap nodes i = None)
      by (unfold ct_lookup; rewrite Hb; reflexivity).
    rewrite Hl.
    replace (rank nodeMap i) with (rank nodeMap (i + 1))
      by (rewrite rank_succ, Hb by lia; lia).
    apply IH; try assumption; lia.
Qed.

Lemma compressed_entries_spec : forall nodeMap nodes, ct_ok V nodeMap nodes ->
  compressed_entries V nodeMap nodes = Ok (slots_entries (ct_lookup V nodeMap nodes) 0 32).
Proof.
  intros nodeMap nodes Hok. unfold compressed_entries.
  change (Z.to_nat TABLE_CAPACITY) with 32%nat.
  change 0 with (rank nodeMap 0) at 2.
  apply compressed_entries_loop_spec; [assumption|lia|lia].
Qed.

(** The bitmap folded from entries. *)
Definition bitmap_of (ents : list (tableEntry V)) (m0 : Z) : Z :=
  fold_left (fun m (ent : tableEntry V) => Z.lor m (Go.shl32 1 (fst ent))) ents m0.

Lemma bitmap_of_slots : forall lookup n i m0,
  0 <= i -> i + Z.of_nat n <= 32 -> 0 <= m0 < 2 ^ 32 ->
  0 <= bitmap_of (slots_entries lookup i n) m0 < 2 ^ 32 /\
  forall k, 0 <= k ->
    Z.testbit (bitmap_of (slots_entries lookup i n) m0) k =
    Z.testbit m0 k || ((i <=? k) && (k <? i + Z.of_nat n) && is_some (lookup k)).
Proof.
  intros lookup n. induction n as [|n IH]; intros i m0 Hi Hn Hm.
  - split; [assumption|]. intros k Hk. cbn [slots_entries bitmap_of fold_left].
    destruct (Z.leb_spec i k); destruct (Z.ltb_spec k (i + Z.of_nat 0)); try lia;
      cbn [andb]; rewrite orb_false_r; reflexivity.
  - cbn [slots_entries]. destruct (lookup i) as [nd|] eqn:El.
    + unfold bitmap_of. cbn [fold_left fst]. fold (bitmap_of (slots_entries lookup (i + 1) n)).
      rewrite GoFacts.shl32_one by lia.
      destruct (IH (i + 1) (Z.lor m0 (2 ^ i)) ltac:(lia) ltac:(lia)
                  ltac:(apply bitmap_set_range; [assumption|lia])) as [Hr Hb].
      fold (bitmap_of (slots_entries lookup (i + 1) n) (Z.lor m0 (2 ^ i))).
      split; [exact Hr|]. intros k Hk. rewrite Hb by assumption.
      rewrite Z.lor_spec, testbit_pow2 by lia.
      destruct (Z.eqb_spec k i) as [->|Hne].
      * rewrite El. cbn [is_some].
        destruct (Z.leb_spec i i); [|lia]. destruct (Z.ltb_spec i (i + Z.of_nat (S n))); [|lia].
        cbn [andb]. rewrite !orb_true_r. reflexivity.
      * rewrite orb_false_r. f_equal.
        destruct (Z.leb_spec (i + 1) k); destruct (Z.leb_spec i k);
          destruct (Z.ltb_spec k (i + 1 + Z.of_nat n));
          destruct (Z.ltb_spec k (i + Z.of_nat (S n))); try lia; reflexivity.
    + destruct (IH (i + 1) m0 ltac:(lia) ltac:(lia) Hm) as [Hr Hb].
      split; [exact Hr|]. intros k Hk. rewrite Hb by assumption. f_equal.
      destruct (Z.eqb_spec k i) as [->|Hne].
      * rewrite El. cbn [is_some]. rewrite !andb_false_r. reflexivity.
      * destruct (Z.leb_spec (i + 1) k); destruct (Z.leb_spec i k);
          destruct (Z.ltb_spec k (i + 1 + Z.of_nat n));
          destruct (Z.ltb_spec k (i + Z.of_nat (S n))); try lia; reflexivity.
Qed.

(** The bitmap of all the entries of [lookup]. *)
Lemma bitmap_of_all : forall lookup,
  0 <= bitmap_of (slots_entries lookup 0 32) 0 < 2 ^ 32 /\
  forall k, 0 <= k < 32 ->
    Z.testbit (bitmap_of (slots_entries lookup 0 32) 0) k = is_some (lookup k).
Proof.
  intros lookup.
  destruct (bitmap_of_slots lookup 32 0 0 ltac:(lia) ltac:(lia) ltac:(split; [lia|reflexivity]))
    as [Hr Hb].
  split; [exact Hr|]. intros k Hk. rewrite Hb by lia. rewrite Z.bits_0.
  destruct (Z.leb_spec 0 k); [|lia]. destruct (Z.ltb_spec k (0 + Z.of_nat 32)); [|lia].
  reflexivity.
Qed.

(** The number of entries below a slot is the slot's position. *)
Lemma length_slots_entries : forall lookup m n i, 0 <= i ->
  (forall k, i <= k < i + Z.of_nat n -> Z.testbit m k = is_some (lookup k)) ->
  Z.of_nat (length (slots_entries lookup i n)) = rank m (i + Z.of_nat n) - rank m i.
Proof.
  intros lookup m n. induction n as [|n IH]; intros i Hi H.
  - cbn [slots_entries length]. rewrite Z.add_0_r. lia.
  - cbn [slots_entries].
    replace (i + Z.of_nat (S n)) with (i + 1 + Z.of_nat n) by lia.
    pose proof (IH (i + 1) ltac:(lia) ltac:(intros k Hk; apply H; lia)) as IH'.
    pose proof (H i ltac:(lia)) as Hbi. rewrite (rank_succ m i Hi) in IH'.
    destruct (lookup i); cbn [is_some] in Hbi; rewrite Hbi in IH'; cbn [length]; lia.
Qed.

End WithValues.
End EntryFacts.

(** ** The dense table, and promotion and demotion *)
Module FullFacts.
Import Hamt32 Popcount CompressedFacts EntryFacts.

Section WithValues.

Variable V : Type.

(** The child of slot [i] of a dense table. *)
Definition ft_lookup (nodes : list (option (node V))) (i : Z) : option (node V) :=
  match nth_error nodes (Z.to_nat i) with
  | Some o => o
  | None => None
  end.

(** Layout of a dense table (section 4.4): 32 children, the bitmap mirroring
    the occupancy. *)
Definition ft_ok (nodeMap : Z) (nodes : list (option (node V))) : Prop :=
  0 <= nodeMap < 2 ^ 32 /\ length nodes = 32%nat /\
  forall i, 0 <= i < 32 -> Z.testbit nodeMap i = is_some (ft_lookup nodes i).

Lemma ft_lookup_store : forall nodes i x k, 0 <= i < Z.of_nat (length nodes) -> 0 <= k ->
  ft_lookup (firstn (Z.to_nat i) nodes ++ x :: skipn (S (Z.to_nat i)) nodes) k
  = if k =? i then x else ft_lookup nodes k.
Proof.
  intros nodes i x k Hi Hk. unfold ft_lookup.
  rewrite SliceFacts.nth_error_store by lia.
  destruct (Z.eqb_spec k i) as [->|Hne].
  - rewrite Nat.eqb_refl. reflexivity.
  - destruct (Nat.eqb_spec (Z.to_nat k) (Z.to_nat i)); [lia|reflexivity].
Qed.

Lemma ft_lookup_repeat : forall n k, ft_lookup (repeat None n) k = None.
Proof.
  intros n k. unfold ft_lookup.
  destruct (nth_error (repeat None n) (Z.to_nat k)) as [o|] eqn:E; [|reflexivity].
  apply nth_error_In, repeat_spec in E. assumption.
Qed.

Lemma full_get_lookup : forall nodeMap nodes i, ft_ok nodeMap nodes -> 0 <= i < 32 ->
  full_get V nodes i = Ok (ft_lookup nodes i).
Proof.
  intros nodeMap nodes i (Hm & Hl & Hb) Hi. unfold full_get, ft_lookup.
  rewrite SliceFacts.index_slice_nth by lia.
  destruct (nth_error nodes (Z.to_nat i)) eqn:E; [reflexivity|].
  apply nth_error_None in E. lia.
Qed.

(** The array [upgradeToFullTable] fills. *)
Definition array_of (ents : list (tableEntry V)) (ns : list (option (node V)))
    : list (option (node V)) :=
  fold_left (fun ns (ent : tableEntry V) =>
               firstn (Z.to_nat (fst ent)) ns ++ Some (snd ent)
                 :: skipn (S (Z.to_nat (fst ent))) ns) ents ns.

Lemma array_of_slots : forall lookup n i ns,
  0 <= i -> i + Z.of_nat n <= 32 -> length ns = 32%nat ->
  length (array_of (slots_entries V lookup i n) ns) = 32%nat /\
  forall k, 0 <= k < 32 ->
    ft_lookup (array_of (slots_entries V lookup i n) ns) k =
    if (i <=? k) && (k <? i + Z.of_nat n)
    then match lookup k with Some nd => Some nd | None => ft_lookup ns k end
    else ft_lookup ns k.
Proof.
  intros lookup n. induction n as [|n IH]; intros i ns Hi Hn Hl.
  - split; [assumption|]. intros k Hk. cbn [slots_entries array_of fold_left].
    destruct (Z.leb_spec i k); destruct (Z.ltb_spec k (i + Z.of_nat 0)); try lia; reflexivity.
  - cbn [slots_entries]. destruct (lookup i) as [nd|] eqn:El.
    + unfold array_of. cbn [fold_left fst snd].
      set (ns' := firstn (Z.to_nat i) ns ++ Some nd :: skipn (S (Z.to_nat i)) ns).
      assert (Hl' : length ns' = 32%nat)
        by (unfold ns'; rewrite SliceFacts.length_store by lia; assumption).
      destruct (IH (i + 1) ns' ltac:(lia) ltac:(lia) Hl') as [Hlen Hlook].
      split; [exact Hlen|]. intros k Hk.
      unfold array_of in Hlook. rewrite Hlook by assumption.
      unfold ns'. rewrite ft_lookup_store by lia.
      destruct (Z.eqb_spec k i) as [->|Hne].
      * rewrite El.
        destruct (Z.leb_spec (i + 1) i); [lia|]. destruct (Z.leb_spec i i); [|lia].
        destruct (Z.ltb_spec i (i + Z.of_nat (S n))); [|lia]. reflexivity.
      * destruct (Z.leb_spec (i + 1) k); destruct (Z.leb_spec i k);
          destruct (Z.ltb_spec k (i + 1 + Z.of_nat n));
          destruct (Z.ltb_spec k (i + Z.of_nat (S n))); try lia; reflexivity.
    + destruct (IH (i + 1) ns ltac:(lia) ltac:(lia) Hl) as [Hlen Hlook].
      split; [exact Hlen|]. intros k Hk. rewrite Hlook by assumption.
      destruct (Z.eqb_spec k i) as [->|Hne].
      * rewrite El.
        destruct (Z.leb_spec (i + 1) i); [lia|]. destruct (Z.leb_spec i i); [|lia].
        destruct (Z.ltb_spec i (i + Z.of_nat (S n))); [|lia]. reflexivity.
      * destruct (Z.leb_spec (i + 1) k); destruct (Z.leb_spec i k);
          destruct (Z.ltb_spec k (i + 1 + Z.of_nat n));
          destruct (Z.ltb_spec k (i + Z.of_nat (S n))); try lia; reflexivity.
Qed.

Lemma upgradeToFullTable_eq : forall hp ents,
  upgradeToFullTable V hp ents = fullTable hp (bitmap_of V ents 0) (array_of ents (repeat None 32)).
Proof.
  intros hp ents. unfold upgradeToFullTable, bitmap_of, array_of.
  change (Z.to_nat TABLE_CAPACITY) with 32%nat. reflexivity.
Qed.

Lemma downgradeToCompressedTable_eq : forall hp ents,
  downgradeToCompressedTable V hp ents = compressedTable hp (bitmap_of V ents 0) (map snd ents).
Proof. intros hp ents. reflexivity. Qed.

(** Promotion: the dense table built from all the entries of [lookup] has
    the same children. *)
Lemma upgrade_spec : forall hp lookup,
  exists m ns,
    upgradeToFullTable V hp (slots_entries V lookup 0 32) = fullTable hp m ns /\
    ft_ok m ns /\ forall k, 0 <= k < 32 -> ft_lookup ns k = lookup k.
Proof.
  intros hp lookup.
  exists (bitmap_of V (slots_entries V lookup 0 32) 0),
         (array_of (slots_entries V lookup 0 32) (repeat None 32)).
  destruct (bitmap_of_all V lookup) as [Hr Hb].
  destruct (array_of_slots lookup 32 0 (repeat None 32) ltac:(lia) ltac:(lia)
              ltac:(apply repeat_length)) as [Hlen Hlook].
  assert (Hk : forall k, 0 <= k < 32 ->
            ft_lookup (array_of (slots_entries V lookup 0 32) (repeat None 32)) k = lookup k).
  { intros k Hk. rewrite Hlook by assumption. rewrite ft_lookup_repeat.
    destruct (Z.leb_spec 0 k); [|lia]. destruct (Z.ltb_spec k (0 + Z.of_nat 32)); [|lia].
    cbn [andb]. destruct (lookup k); reflexivity. }
  split; [apply upgradeToFullTable_eq|]. split; [|exact Hk].
  split; [exact Hr|]. split; [exact Hlen|].
  intros i Hi. rewrite Hb, Hk by assumption. reflexivity.
Qed.

(** Demotion: the sparse table built from all the entries of [lookup] has
    the same children. *)
Lemma downgrade_spec : forall hp lookup,
  exists m ns,
    downgradeToCompressedTable V hp (slots_entries V lookup 0 32) = compressedTable hp m ns /\
    ct_ok V m ns /\ (forall k, 0 <= k < 32 -> Z.testbit m k = is_some (lookup k)) /\
    forall k, 0 <= k < 32 -> ct_lookup V m ns k = lookup k.
Proof.
  intros hp lookup.
  set (m := bitmap_of V (slots_entries V lookup 0 32) 0).
  exists m, (map snd (slots_entries V lookup 0 32)).
  destruct (bitmap_of_all V lookup) as [Hr Hb]. fold m in Hr, Hb.
  split; [apply downgradeToCompressedTable_eq|]. split; [|split; [exact Hb|]].
  - split; [exact Hr|]. rewrite length_map.
    etransitivity;
      [apply (length_slots_entries V lookup m 32 0); [lia|intros k Hk; apply Hb; lia]|].
    rewrite bitCount32_rank, rank_zero.
    replace (0 + Z.of_nat 32) with 32 by reflexivity. lia.
  - intros k Hk. unfold ct_lookup. rewrite Hb by assumption.
    destruct (lookup k) as [nd|] eqn:El; cbn [is_some]; [|reflexivity].
    replace 32%nat with (Z.to_nat k + (32 - Z.to_nat k))%nat by lia.
    rewrite slots_entries_app, map_app. unfold tableEntry.
    assert (Hlen : length (map snd (slots_entries V lookup 0 (Z.to_nat k))) = Z.to_nat (rank m k)).
    { rewrite length_map. apply Nat2Z.inj.
      etransitivity;
        [apply (length_slots_entries V lookup m (Z.to_nat k) 0); [lia|intros j Hj; apply Hb; lia]|].
      pose proof (rank_bounds m k ltac:(lia)).
      rewrite rank_zero, Z.add_0_l, Z2Nat.id by lia. lia. }
    rewrite nth_error_app2 by lia. rewrite Hlen, Nat.sub_diag.
    rewrite Z.add_0_l, Z2Nat.id by lia.
    destruct (32 - Z.to_nat k)%nat as [|d] eqn:Ed; [lia|].
    cbn [slots_entries]. rewrite El. reflexivity.
Qed.

End WithValues.
End FullFacts.

(** ** Tables behind the [tableI] interface *)
Module TableFacts.
Import Hamt32 Popcount CompressedFacts EntryFacts FullFacts.

Section WithValues.

Variable V : Type.
Variable GradeTables : bool.

(** Layout of a table, whichever its form. *)
Definition table_ok (t : table V) : Prop :=
  match t with
  | compressedTable _ m ns => ct_ok V m ns
  | fullTable _ m ns => ft_ok V m ns
  end.

(** The child of slot [i], whichever the form of the table. *)
Definition lookup (t : table V) (i : Z) : option (node V) :=
  match t with
  | compressedTable _ m ns => ct_lookup V m ns i
  | fullTable _ _ ns => ft_lookup V ns i
  end.

Definition table_nodeMap (t : table V) : Z :=
  match t with
  | compressedTable _ m _ => m
  | fullTable _ m _ => m
  end.

Lemma lookup_bit : forall t i, table_ok t -> 0 <= i < 32 ->
  Z.testbit (table_nodeMap t) i = is_some (lookup t i).
Proof.
  intros [hp m ns|hp m ns] i Hok Hi; simpl in *.
  - unfold ct_lookup. destruct (Z.testbit m i) eqn:Hb; [|reflexivity].
    destruct (ct_lookup_set V m ns i Hok Hi Hb) as [nd Hnd].
    unfold ct_lookup in Hnd. rewrite Hb in Hnd. rewrite Hnd. reflexivity.
  - destruct Hok as (_ & _ & Hb). apply Hb. assumption.
Qed.

Lemma table_get_lookup : forall t i, table_ok t -> 0 <= i < 32 ->
  table_get V t i = Ok (lookup t i).
Proof.
  intros [hp m ns|hp m ns] i Hok Hi; simpl in *.
  - apply compressed_get_lookup; assumption.
  - eapply full_get_lookup; eassumption.
Qed.

Lemma full_entries_loop_spec : forall nodes i,
  full_entries_loop V i nodes
  = slots_entries V (fun k => ft_lookup V nodes (k - i)) i (length nodes).
Proof.
  induction nodes as [|o rest IH]; intros i; [reflexivity|].
  cbn [full_entries_loop length slots_entries].
  replace (i - i) with 0 by lia. unfold ft_lookup at 1. cbn [Z.to_nat nth_error].
  assert (E : slots_entries V (fun k => ft_lookup V (o :: rest) (k - i)) (i + 1) (length rest)
              = slots_entries V (fun k => ft_lookup V rest (k - (i + 1))) (i + 1) (length rest)).
  { apply slots_entries_ext. intros k Hk. unfold ft_lookup.
    replace (Z.to_nat (k - i)) with (S (Z.to_nat (k - (i + 1)))) by lia. reflexivity. }
  rewrite E, <- IH. destruct o; reflexivity.
Qed.

Lemma full_entries_spec : forall nodes, length nodes = 32%nat ->
  full_entries V nodes = slots_entries V (ft_lookup V nodes) 0 32.
Proof.
  intros nodes Hl. unfold full_entries. rewrite full_entries_loop_spec, Hl.
  apply slots_entries_ext. intros k Hk. f_equal. lia.
Qed.

(** What [set] returns, in terms of the children: slot [i] holds [nn], the
    other slots are unchanged; nil is returned exactly for a table emptied
    by the removal. *)
Definition set_post (t : table V) (i : Z) (nn : option (node V)) (r : option (table V))
    : Prop :=
  match r with
  | Some t' =>
      table_ok t' /\ table_hashcode t' = table_hashcode t /\
      forall j, 0 <= j < 32 -> lookup t' j = if j =? i then nn else lookup t j
  | None =>
      nn = None /\ forall j, 0 <= j < 32 -> j <> i -> lookup t j = None
  end.

Lemma ldiff_zero_others : forall m i j, 0 <= i -> 0 <= j -> j <> i ->
  Z.ldiff m (2 ^ i) = 0 -> Z.testbit m j = false.
Proof.
  intros m i j Hi Hj Hne H.
  assert (E : Z.testbit (Z.ldiff m (2 ^ i)) j = false) by (rewrite H; apply Z.bits_0).
  rewrite Z.ldiff_spec, testbit_pow2 in E by lia.
  destruct (Z.eqb_spec j i); [lia|]. rewrite andb_true_r in E. exact E.
Qed.

Lemma compressed_set_spec : forall hp m ns i nn, ct_ok V m ns -> 0 <= i < 32 ->
  exists r, compressed_set V hp m ns i nn = Ok r /\ set_post (compressedTable hp m ns) i nn r.
Proof.
  intros hp m ns i nn Hok Hi. unfold compressed_set.
  rewrite GoFacts.shl32_one by assumption.
  replace (Go.u32 (2 ^ i - 1)) with (Go.u32 (Go.shl32 1 i - 1))
    by (rewrite GoFacts.shl32_one by assumption; reflexivity).
  rewrite bitCount32_below by assumption.
  rewrite land_pow2_eq0, land_pow2_pos by lia.
  change (TABLE_CAPACITY / 2) with 16.
  destruct nn as [nd|]; destruct (Z.testbit m i) eqn:Hb; cbn [negb].
  - (* replace *)
    pose proof (ct_ok_rank_lt V m ns i Hok Hi Hb).
    rewrite SliceFacts.store_slice_ok by lia. cbn [Go.bind].
    eexists; split; [reflexivity|]. cbn [set_post]. split; [|split; [reflexivity|]].
    + apply ct_store_ok; assumption.
    + intros j Hj. apply ct_store_lookup; assumption.
  - (* insert *)
    pose proof (ct_ok_rank_le V m ns i Hok ltac:(lia)).
    rewrite SliceFacts.insert_slice_ok by lia. cbn [Go.bind].
    pose proof (ct_insert_ok V m ns i nd Hok Hi Hb) as Hok'.
    destruct (16 <=? bitCount32 (Z.lor m (2 ^ i))).
    + rewrite compressed_entries_spec by assumption. cbn [Go.bind].
      destruct (upgrade_spec V hp (ct_lookup V (Z.lor m (2 ^ i))
                  (firstn (Z.to_nat (rank m i)) ns ++ nd :: skipn (Z.to_nat (rank m i)) ns)))
        as (m' & ns' & E & Hft & Hlook).
      rewrite E. eexists; split; [reflexivity|]. cbn [set_post].
      split; [exact Hft|]. split; [reflexivity|].
      intros j Hj. cbn [lookup]. rewrite Hlook by assumption.
      apply ct_insert_lookup; assumption.
    + eexists; split; [reflexivity|]. cbn [set_post]. split; [exact Hok'|].
      split; [reflexivity|]. intros j Hj. apply ct_insert_lookup; assumption.
  - (* remove *)
    pose proof (ct_ok_rank_lt V m ns i Hok Hi Hb).
    rewrite SliceFacts.remove_slice_ok by lia. cbn [Go.bind]. unfold Go.andnot.
    destruct (Z.eqb_spec (Z.ldiff m (2 ^ i)) 0) as [E0|Hne].
    + eexists; split; [reflexivity|]. cbn [set_post]. split; [reflexivity|].
      intros j Hj Hji. cbn [lookup]. unfold ct_lookup.
      rewrite (ldiff_zero_others m i j) by (try assumption; lia). reflexivity.
    + eexists; split; [reflexivity|]. cbn [set_post]. split; [|split; [reflexivity|]].
      * apply ct_remove_ok; assumption.
      * intros j Hj. apply ct_remove_lookup; assumption.
  - (* nothing to remove *)
    eexists; split; [reflexivity|]. cbn [set_post]. split; [exact Hok|].
    split; [reflexivity|]. intros j Hj. destruct (Z.eqb_spec j i) as [->|]; [|reflexivity].
    cbn [lookup]. unfold ct_lookup. rewrite Hb. reflexivity.
Qed.

Lemma ft_store_ok : forall m ns i nn, ft_ok V m ns -> 0 <= i < 32 ->
  ft_ok V (if is_some nn then Z.lor m (2 ^ i) else Z.ldiff m (2 ^ i))
    (firstn (Z.to_nat i) ns ++ nn :: skipn (S (Z.to_nat i)) ns).
Proof.
  intros m ns i nn (Hm & Hl & Hb) Hi. split; [|split].
  - destruct nn; cbn [is_some];
      [apply bitmap_set_range|apply bitmap_clear_range]; try assumption; lia.
  - rewrite SliceFacts.length_store by lia. assumption.
  - intros k Hk. rewrite ft_lookup_store by lia.
    destruct nn as [nd|]; cbn [is_some].
    + rewrite Z.lor_spec, testbit_pow2, Hb by lia.
      destruct (Z.eqb_spec k i); [apply orb_true_r|apply orb_false_r].
    + rewrite Z.ldiff_spec, testbit_pow2, Hb by lia.
      destruct (Z.eqb_spec k i); [apply andb_false_r|apply andb_true_r].
Qed.

Lemma full_set_spec : forall hp m ns i nn, ft_ok V m ns -> 0 <= i < 32 ->
  exists r, full_set V GradeTables hp m ns i nn = Ok r /\ set_post (fullTable hp m ns) i nn r.
Proof.
  intros hp m ns i nn Hok Hi. unfold full_set, full_store.
  rewrite GoFacts.shl32_one by assumption. rewrite land_pow2_pos by lia.
  pose proof (ft_store_ok m ns i nn Hok Hi) as Hok'.
  assert (Hlen : length ns = 32%nat) by apply Hok.
  assert (Hlook : forall j, 0 <= j < 32 ->
            ft_lookup V (firstn (Z.to_nat i) ns ++ nn :: skipn (S (Z.to_nat i)) ns) j
            = if j =? i then nn else ft_lookup V ns j)
    by (intros j Hj; apply ft_lookup_store; lia).
  destruct nn as [nd|]; cbn [is_some] in Hok'.
  - rewrite SliceFacts.store_slice_ok by lia. cbn [Go.bind].
    eexists; split; [reflexivity|]. cbn [set_post]. split; [exact Hok'|].
    split; [reflexivity|]. exact Hlook.
  - destruct (Z.testbit m i) eqn:Hb.
    + rewrite SliceFacts.store_slice_ok by lia. cbn [Go.bind]. unfold Go.andnot.
      destruct (Z.eqb_spec (Z.ldiff m (2 ^ i)) 0) as [E0|Hne].
      * eexists; split; [reflexivity|]. cbn [set_post]. split; [reflexivity|].
        intros j Hj Hji. cbn [lookup].
        destruct Hok as (_ & _ & Hbits). pose proof (Hbits j Hj) as Hbj.
        rewrite (ldiff_zero_others m i j) in Hbj by (try assumption; lia).
        destruct (ft_lookup V ns j); [discriminate|reflexivity].
      * destruct (GradeTables && (bitCount32 (Z.ldiff m (2 ^ i)) <? TABLE_CAPACITY / 2)).
        -- rewrite full_entries_spec by apply Hok'.
           destruct (downgrade_spec V hp
                       (ft_lookup V (firstn (Z.to_nat i) ns ++ None :: skipn (S (Z.to_nat i)) ns)))
             as (m' & ns' & E & Hct & _ & Hl').
           rewrite E. eexists; split; [reflexivity|]. cbn [set_post].
           split; [exact Hct|]. split; [reflexivity|].
           intros j Hj. cbn [lookup]. rewrite Hl' by assumption. apply Hlook. assumption.
        -- eexists; split; [reflexivity|]. cbn [set_post]. split; [exact Hok'|].
           split; [reflexivity|]. exact Hlook.
    + eexists; split; [reflexivity|]. cbn [set_post]. split; [exact Hok|].
      split; [reflexivity|]. intros j Hj. destruct (Z.eqb_spec j i) as [->|]; [|reflexivity].
      cbn [lookup]. destruct Hok as (_ & _ & Hbits). pose proof (Hbits i Hi) as Hbi.
      rewrite Hb in Hbi. destruct (ft_lookup V ns i); [discriminate|reflexivity].
Qed.

Lemma table_set_spec : forall t i nn, table_ok t -> 0 <= i < 32 ->
  exists r, table_set V GradeTables t i nn = Ok r /\ set_post t i nn r.
Proof.
  intros [hp m ns|hp m ns] i nn Hok Hi; cbn [table_set].
  - apply compressed_set_spec; assumption.
  - apply full_set_spec; assumption.
Qed.

End WithValues.
End TableFacts.

(** ** Hash-path prefixes *)
Module Prefix.
Import Hamt32 Bits32.

(** The hash-path prefix of [h] at depth [d]: its low [5 * d] bits. *)
Definition pre (h d : Z) : Z := Z.land h (Z.ones (5 * d)).

Lemma pre_0 : forall h, pre h 0 = 0.
Proof. intros h. unfold pre. apply Z.land_0_r. Qed.

Lemma pre_range : forall h d, 0 <= d -> 0 <= pre h d < 2 ^ (5 * d).
Proof.
  intros h d Hd. unfold pre. rewrite Z.land_ones by lia.
  apply Z.mod_pos_bound. apply Z.pow_pos_nonneg; lia.
Qed.

Lemma pre_id : forall x d, 0 <= d -> 0 <= x < 2 ^ (5 * d) -> pre x d = x.
Proof.
  intros x d Hd Hx. unfold pre. rewrite Z.land_ones by lia. apply Z.mod_small. exact Hx.
Qed.

Lemma pre_pre : forall h a b, 0 <= a <= b -> pre (pre h b) a = pre h a.
Proof.
  intros h a b H. unfold pre. rewrite <- Z.land_assoc. f_equal.
  rewrite Z.land_ones by lia. apply Z.ones_mod_pow2. lia.
Qed.

Lemma pre_testbit : forall h d k, 0 <= d -> 0 <= k ->
  Z.testbit (pre h d) k = Z.testbit h k && (k <? 5 * d).
Proof.
  intros h d k Hd Hk. unfold pre. rewrite Z.land_spec. f_equal.
  destruct (Z.ltb_spec k (5 * d)).
  - apply Z.ones_spec_low. lia.
  - apply Z.ones_spec_high. lia.
Qed.

Lemma index_pre : forall h d j, 0 <= j <= 5 -> j < d -> index (pre h d) j = index h j.
Proof.
  intros h d j Hj Hd. apply Z.bits_inj'. intros b Hb.
  rewrite !index_testbit by lia. destruct (Z.ltb_spec b 5); [|reflexivity].
  rewrite pre_testbit by lia.
  replace (5 * j + b <? 5 * d) with true by (symmetry; apply Z.ltb_lt; lia).
  apply andb_true_r.
Qed.

Lemma pre_succ : forall h d, 0 <= d <= 5 ->
  pre h (d + 1) = Z.lor (pre h d) (Z.shiftl (index h d) (5 * d)).
Proof.
  intros h d Hd. apply Z.bits_inj'. intros k Hk.
  rewrite Z.lor_spec, !pre_testbit by lia.
  destruct (Z.ltb_spec k (5 * d)).
  - rewrite Z.shiftl_spec_low by lia.
    replace (k <? 5 * (d + 1)) with true by (symmetry; apply Z.ltb_lt; lia).
    rewrite orb_false_r. reflexivity.
  - rewrite Z.shiftl_spec by lia. rewrite index_testbit by lia.
    rewrite andb_false_r. cbn [orb].
    replace (5 * d + (k - 5 * d)) with k by lia.
    destruct (Z.ltb_spec (k - 5 * d) 5).
    + replace (k <? 5 * (d + 1)) with true by (symmetry; apply Z.ltb_lt; lia).
      apply andb_true_r.
    + replace (k <? 5 * (d + 1)) with false by (symmetry; apply Z.ltb_ge; lia).
      apply andb_false_r.
Qed.

(** The running hash path of [Put]: extended by the index of the level. *)
Lemma buildHashPath_pre : forall h d, 0 <= d <= 5 ->
  buildHashPath (pre h d) (index h d) d = pre h (d + 1).
Proof.
  intros h d Hd. rewrite buildHashPath_or by (try apply index_range; lia).
  rewrite pre_succ by lia. unfold NBITS32. do 2 f_equal. lia.
Qed.

Lemma pre_full : forall h, 0 <= h < 2 ^ 30 -> pre h 6 = h.
Proof. intros h H. apply pre_id; [lia|exact H]. Qed.

Lemma mask30_pre : forall h, Z.land h mask30 = pre h 6.
Proof. intros h. reflexivity. Qed.

Lemma hashPathMask_pre : forall hp d, 0 <= d <= 6 -> Z.land hp (hashPathMask d) = pre hp d.
Proof. intros hp d Hd. rewrite hashPathMask_spec by lia. reflexivity. Qed.

(** A hash goes on from the table of prefix [pre x d] into the slot of [x]
    exactly when it has the prefix [pre x (d + 1)]. *)
Lemma pre_step : forall h x d, 0 <= d <= 5 ->
  pre h (d + 1) = pre x (d + 1) <-> pre h d = pre x d /\ index h d = index x d.
Proof.
  intros h x d Hd. split.
  - intros H. split.
    + rewrite <- (pre_pre h d (d + 1)), <- (pre_pre x d (d + 1)) by lia. rewrite H. reflexivity.
    + rewrite <- (index_pre h (d + 1) d), <- (index_pre x (d + 1) d) by lia.
      rewrite H. reflexivity.
  - intros [H1 H2]. rewrite !pre_succ by lia. rewrite H1, H2. reflexivity.
Qed.

(** Two 30-bit hashcodes with the same six indices are equal. *)
Lemma same_prefix_6 : forall h1 h2, 0 <= h1 < 2 ^ 30 -> 0 <= h2 < 2 ^ 30 ->
  pre h1 6 = pre h2 6 -> h1 = h2.
Proof. intros h1 h2 H1 H2 H. rewrite !pre_full in H by assumption. exact H. Qed.

End Prefix.

(** ** The trie of package hamt32_functional: well-formed tables *)
Module TrieFacts.
Import Hamt32 Bits32 Popcount CompressedFacts EntryFacts FullFacts TableFacts Prefix.

Lemma rank_empty : forall i, rank 0 i = 0.
Proof.
  intros i. unfold rank. induction (Z.to_nat i) as [|n IH]; [reflexivity|].
  change (popcount_below (S n) 0)
    with (popcount_below n 0 + (if Z.testbit 0 (Z.of_nat n) then 1 else 0)).
  rewrite IH, Z.testbit_0_l. reflexivity.
Qed.

Section WithValues.

Variable V : Type.

Lemma empty_ok : ct_ok V 0 [].
Proof. split; [lia|]. rewrite bitCount32_zero. reflexivity. Qed.

Lemma empty_lookup : forall j, ct_lookup V 0 [] j = None.
Proof. intros j. unfold ct_lookup. rewrite Z.testbit_0_l. reflexivity. Qed.

(** The table of one child. *)
Lemma singleton_ok : forall i (nd : node V), 0 <= i < 32 ->
  ct_ok V (2 ^ i) [nd]
  /\ forall j, 0 <= j < 32 -> ct_lookup V (2 ^ i) [nd] j = if j =? i then Some nd else None.
Proof.
  intros i nd Hi.
  pose proof (ct_insert_ok V 0 [] i nd empty_ok Hi (Z.testbit_0_l i)) as Hok.
  pose proof (fun j => ct_insert_lookup V 0 [] i nd j empty_ok Hi (Z.testbit_0_l i)) as Hl.
  rewrite Z.lor_0_l, firstn_nil, skipn_nil in *. cbn [app] in *.
  split; [exact Hok|]. intros j Hj. rewrite Hl by assumption. rewrite empty_lookup. reflexivity.
Qed.

(** The table of two children, the lower slot first. *)
Lemma pair_ok : forall i1 i2 (n1 n2 : node V), 0 <= i1 < 32 -> 0 <= i2 < 32 -> i1 <> i2 ->
  ct_ok V (Z.lor (2 ^ i1) (2 ^ i2)) (if i1 <? i2 then [n1; n2] else [n2; n1])
  /\ forall j, 0 <= j < 32 ->
       ct_lookup V (Z.lor (2 ^ i1) (2 ^ i2)) (if i1 <? i2 then [n1; n2] else [n2; n1]) j
       = if j =? i2 then Some n2 else if j =? i1 then Some n1 else None.
Proof.
  intros i1 i2 n1 n2 H1 H2 Hne.
  destruct (singleton_ok i1 n1 H1) as [Hok1 Hl1].
  assert (Hb : Z.testbit (2 ^ i1) i2 = false).
  { rewrite testbit_pow2 by lia. apply Z.eqb_neq. lia. }
  assert (Hr : rank (2 ^ i1) i2 = if i1 <? i2 then 1 else 0).
  { rewrite <- (Z.lor_0_l (2 ^ i1)). rewrite rank_set by lia.
    rewrite rank_empty, Z.testbit_0_l. cbn [negb]. rewrite andb_true_r. reflexivity. }
  pose proof (ct_insert_ok V (2 ^ i1) [n1] i2 n2 Hok1 H2 Hb) as Hok.
  pose proof (fun j => ct_insert_lookup V (2 ^ i1) [n1] i2 n2 j Hok1 H2 Hb) as Hl.
  rewrite Hr in Hok, Hl.
  assert (E : firstn (Z.to_nat (if i1 <? i2 then 1 else 0)) [n1]
              ++ n2 :: skipn (Z.to_nat (if i1 <? i2 then 1 else 0)) [n1]
              = if i1 <? i2 then [n1; n2] else [n2; n1])
    by (destruct (i1 <? i2); reflexivity).
  rewrite E in Hok, Hl. split; [exact Hok|].
  intros j Hj. rewrite Hl by assumption. rewrite Hl1 by assumption. reflexivity.
Qed.

(** [Get]'s loop from depth [d] on, with the iterations that are left. *)
Definition Get_at (d : Z) (t : table V) (h : Z) (k : key) : result (option V) :=
  Get_loop V (S (Z.to_nat (MAXDEPTH + 1 - d))) d h k t.

Lemma Get_at_lookup : forall d t h k, 0 <= d <= MAXDEPTH -> table_ok V t ->
  Get_at d t h k
  = match lookup V t (index h d) with
    | None => Ok None
    | Some (leafNode lf) => if Leaves.hashcode lf =? h then Ok (Leaves.get lf k) else Ok None
    | Some (tableNode c) => Get_at (d + 1) c h k
    end.
Proof.
  intros d t h k Hd Hok. unfold Get_at, MAXDEPTH in *.
  replace (Z.to_nat (5 + 1 - d)) with (S (Z.to_nat (5 + 1 - (d + 1)))) by lia.
  cbn [Get_loop]. unfold MAXDEPTH.
  replace (d <=? 5) with true by (symmetry; apply Z.leb_le; lia).
  rewrite table_get_lookup by (try assumption; apply index_range; lia).
  cbn [Go.bind]. rewrite (GoFacts.u64_small (d + 1)) by lia. reflexivity.
Qed.

(** Well-formed tables: the layout of every table, the hash path of a table
    is the prefix that leads to it, and a child sits in the slot its
    hashcode gives at the depth of the table; no table lies below
    [MAXDEPTH]. *)
Inductive wf_table : Z -> table V -> Prop :=
| wf_table_intro : forall d t,
    0 <= d <= MAXDEPTH -> table_ok V t -> 0 <= table_hashcode t < 2 ^ (5 * d) ->
    (forall i nd, 0 <= i < 32 -> lookup V t i = Some nd -> wf_node d (table_hashcode t) i nd) ->
    wf_table d t
with wf_node : Z -> Z -> Z -> node V -> Prop :=
| wf_leaf : forall d p i l,
    0 <= Leaves.hashcode l < 2 ^ 30 ->
    pre (Leaves.hashcode l) d = p -> index (Leaves.hashcode l) d = i ->
    wf_node d p i (leafNode l)
| wf_sub : forall d p i c,
    pre (table_hashcode c) d = p -> index (table_hashcode c) d = i ->
    wf_table (d + 1) c ->
    wf_node d p i (tableNode c).

Lemma wf_table_depth : forall d t, wf_table d t -> 0 <= d <= MAXDEPTH.
Proof. intros d t H. inversion H. assumption. Qed.

Lemma wf_table_ok : forall d t, wf_table d t -> table_ok V t.
Proof. intros d t H. inversion H. assumption. Qed.

Lemma wf_table_range : forall d t, wf_table d t -> 0 <= table_hashcode t < 2 ^ (5 * d).
Proof. intros d t H. inversion H. assumption. Qed.

Lemma wf_table_child : forall d t i nd, wf_table d t -> 0 <= i < 32 ->
  lookup V t i = Some nd -> wf_node d (table_hashcode t) i nd.
Proof. intros d t i nd H. inversion H. auto. Qed.

Lemma wf_node_leaf_inv : forall d p i l, wf_node d p i (leafNode l) ->
  0 <= Leaves.hashcode l < 2 ^ 30
  /\ pre (Leaves.hashcode l) d = p /\ index (Leaves.hashcode l) d = i.
Proof. intros d p i l H. inversion H. auto. Qed.

Lemma wf_node_table_inv : forall d p i c, wf_node d p i (tableNode c) ->
  pre (table_hashcode c) d = p /\ index (table_hashcode c) d = i /\ wf_table (d + 1) c.
Proof. intros d p i c H. inversion H. auto. Qed.

Lemma wf_table_pre : forall d t, wf_table d t -> pre (table_hashcode t) d = table_hashcode t.
Proof.
  intros d t H. pose proof (wf_table_depth d t H). apply pre_id; [lia|].
  apply wf_table_range. assumption.
Qed.

(** A hash with the prefix of the table [t] has the prefix of the child
    table [c] exactly when its index at the depth of [t] is the slot of [c]. *)
Lemma routes_child : forall d t i c h, wf_table d t -> 0 <= i < 32 ->
  lookup V t i = Some (tableNode c) -> pre h d = table_hashcode t ->
  (pre h (d + 1) = table_hashcode c <-> index h d = i).
Proof.
  intros d t i c h Hwf Hi Hl Hp.
  pose proof (wf_table_depth d t Hwf) as Hd. unfold MAXDEPTH in Hd.
  pose proof (wf_table_child d t i (tableNode c) Hwf Hi Hl) as Hn.
  inversion Hn as [|d' p' i' c' Hpc Hic Hwc]; subst.
  rewrite <- (wf_table_pre (d + 1) c Hwc) at 1.
  rewrite pre_step by lia. rewrite Hp, Hpc. intuition auto.
Qed.

Variable GradeTables : bool.

(** Storing a child that belongs to slot [i]. *)
Lemma wf_table_set : forall d t i nd, wf_table d t -> 0 <= i < 32 ->
  wf_node d (table_hashcode t) i nd ->
  exists t', table_set V GradeTables t i (Some nd) = Ok (Some t')
             /\ wf_table d t' /\ table_hashcode t' = table_hashcode t
             /\ forall j, 0 <= j < 32 ->
                  lookup V t' j = if j =? i then Some nd else lookup V t j.
Proof.
  intros d t i nd Hwf Hi Hnd.
  destruct (table_set_spec V GradeTables t i (Some nd) (wf_table_ok d t Hwf) Hi)
    as ([t'|] & Hset & Hpost); cbn [set_post] in Hpost.
  - destruct Hpost as (Hok & Hhc & Hl). exists t'. split; [exact Hset|].
    split; [|split; assumption].
    constructor.
    + apply (wf_table_depth d t Hwf).
    + exact Hok.
    + rewrite Hhc. apply (wf_table_range d t Hwf).
    + intros j nd' Hj Hl'. rewrite Hhc. rewrite Hl in Hl' by assumption.
      destruct (Z.eqb_spec j i) as [->|Hne].
      * injection Hl' as <-. exact Hnd.
      * apply (wf_table_child d t j nd' Hwf Hj Hl').
  - destruct Hpost as [Hc _]. discriminate.
Qed.

End WithValues.
End TrieFacts.

(** ** [Put] and [Get] of package hamt32_functional on well-formed maps *)
Module PutFacts.
Import Hamt32 Bits32 Popcount CompressedFacts EntryFacts FullFacts TableFacts Prefix TrieFacts.

Section WithValues.

Variable V : Type.
Variable Hash30 : key -> Z.
Variable GradeTables : bool.
(** [key.Hash30()] is a 30-bit hashcode. *)
Hypothesis Hash30_range : forall k, 0 <= Hash30 k < 2 ^ 30.

Lemma Get_at_same_slot : forall d (t t' : table V) h k, 0 <= d <= MAXDEPTH ->
  table_ok V t -> table_ok V t' ->
  lookup V t' (index h d) = lookup V t (index h d) ->
  Get_at V d t' h k = Get_at V d t h k.
Proof.
  intros d t t' h k Hd Hok Hok' Hl.
  rewrite (Get_at_lookup V d t') by assumption.
  rewrite (Get_at_lookup V d t) by assumption.
  rewrite Hl. reflexivity.
Qed.

Lemma routes_iff : forall d (t : table V) i c h, wf_table V d t -> 0 <= i < 32 ->
  lookup V t i = Some (tableNode c) ->
  (pre h (d + 1) = table_hashcode c <-> pre h d = table_hashcode t /\ index h d = i).
Proof.
  intros d t i c h Hwf Hi Hl.
  pose proof (wf_table_depth V d t Hwf) as Hd. unfold MAXDEPTH in Hd.
  destruct (wf_node_table_inv V _ _ _ _ (wf_table_child V d t i (tableNode c) Hwf Hi Hl))
    as (Hpc & Hic & Hwc).
  rewrite <- (wf_table_pre V (d + 1) c Hwc) at 1.
  rewrite pre_step by lia. rewrite Hpc, Hic. reflexivity.
Qed.

(** What a lookup finds below the table [newCompressedTable2] builds for the
    leaves [leaf1] and [leaf2]. *)
Definition two_leaves (leaf1 : leafI V) (leaf2 : flatLeaf V) (h : Z) (k : key) : option V :=
  if h =? Leaves.fl_hash leaf2 then Leaves.flatLeaf_get leaf2 k
  else if h =? Leaves.hashcode leaf1 then Leaves.get leaf1 k
  else None.

Lemma newCompressedTable2_loop_spec : forall n d (leaf1 : leafI V) (leaf2 : flatLeaf V),
  0 <= Leaves.hashcode leaf1 < 2 ^ 30 -> 0 <= Leaves.fl_hash leaf2 < 2 ^ 30 ->
  Leaves.hashcode leaf1 <> Leaves.fl_hash leaf2 ->
  0 <= d <= 6 -> pre (Leaves.hashcode leaf1) d = pre (Leaves.fl_hash leaf2) d ->
  (Z.to_nat (MAXDEPTH + 1 - d) < n)%nat ->
  exists t,
    newCompressedTable2_loop V n d (pre (Leaves.fl_hash leaf2) d)
      (pre (Leaves.fl_hash leaf2) d) leaf1 leaf2 = Ok t
    /\ wf_table V d t /\ table_hashcode t = pre (Leaves.fl_hash leaf2) d
    /\ forall h k, pre h d = pre (Leaves.fl_hash leaf2) d ->
         Get_at V d t h k = Ok (two_leaves leaf1 leaf2 h k).
Proof.
  induction n as [|n IH]; intros d leaf1 leaf2 H1 H2 Hne Hd Hpre Hn; [lia|].
  set (h1 := Leaves.hashcode leaf1) in *. set (h2 := Leaves.fl_hash leaf2) in *.
  cbn [newCompressedTable2_loop]. fold h1 h2. unfold MAXDEPTH in *.
  destruct (Z.leb_spec d 5) as [Hd5|Hd6].
  2:{ exfalso. apply Hne. apply same_prefix_6; try assumption.
      replace d with 6 in Hpre by lia. exact Hpre. }
  pose proof (index_range h1 d ltac:(lia)) as Hi1.
  pose proof (index_range h2 d ltac:(lia)) as Hi2.
  destruct (Z.eqb_spec (index h1 d) (index h2 d)) as [Hidx|Hidx]; cbn [negb].
  - (* same slot: one more table *)
    rewrite Hidx. rewrite buildHashPath_pre by lia.
    rewrite (GoFacts.u64_small (d + 1)) by lia.
    assert (Hpre' : pre h1 (d + 1) = pre h2 (d + 1)) by (apply pre_step; [lia|auto]).
    destruct (IH (d + 1) leaf1 leaf2 H1 H2 Hne ltac:(lia) Hpre' ltac:(lia))
      as (t0 & Hloop & Hwf0 & Hhc0 & Hget0).
    fold h1 h2 in Hloop, Hhc0, Hget0. rewrite Hloop. cbn [Go.bind].
    rewrite GoFacts.shl32_one by assumption.
    destruct (singleton_ok V (index h2 d) (tableNode t0) Hi2) as [Hok Hl].
    eexists. split; [reflexivity|]. split; [|split; [reflexivity|]].
    + constructor; cbn [table_hashcode table_ok lookup].
      * unfold MAXDEPTH. lia.
      * exact Hok.
      * apply pre_range. lia.
      * intros i nd Hi Hlk. rewrite Hl in Hlk by assumption.
        destruct (Z.eqb_spec i (index h2 d)) as [->|]; [|discriminate].
        injection Hlk as <-.
        constructor; [rewrite Hhc0; apply pre_pre; lia
                     |rewrite Hhc0; apply index_pre; lia|exact Hwf0].
    + intros h k Hh. rewrite Get_at_lookup by (try exact Hok; unfold MAXDEPTH; lia).
      cbn [lookup]. rewrite Hl by (apply index_range; lia).
      destruct (Z.eqb_spec (index h d) (index h2 d)) as [E|E].
      * apply Hget0. apply pre_step; [lia|auto].
      * unfold two_leaves. fold h1 h2.
        destruct (Z.eqb_spec h h2) as [->|_]; [congruence|].
        destruct (Z.eqb_spec h h1) as [->|_]; [congruence|]. reflexivity.
  - (* the leaves part *)
    rewrite !GoFacts.shl32_one by assumption. rewrite Z.lor_0_l.
    destruct (pair_ok V (index h1 d) (index h2 d) (leafNode leaf1)
                (leafNode (Leaves.FlatVal leaf2)) Hi1 Hi2 Hidx) as [Hok Hl].
    eexists. split; [reflexivity|]. split; [|split; [reflexivity|]].
    + constructor; cbn [table_hashcode table_ok lookup].
      * unfold MAXDEPTH. lia.
      * exact Hok.
      * apply pre_range. lia.
      * intros i nd Hi Hlk. rewrite Hl in Hlk by assumption.
        destruct (Z.eqb_spec i (index h2 d)) as [->|].
        -- injection Hlk as <-. constructor; cbn [Leaves.hashcode]; fold h2; auto.
        -- destruct (Z.eqb_spec i (index h1 d)) as [->|]; [|discriminate].
           injection Hlk as <-. constructor; fold h1; auto.
    + intros h k Hh. rewrite Get_at_lookup by (try exact Hok; unfold MAXDEPTH; lia).
      cbn [lookup]. rewrite Hl by (apply index_range; lia).
      unfold two_leaves. fold h1 h2.
      destruct (Z.eqb_spec (index h d) (index h2 d)) as [E2|E2].
      * cbn [Leaves.hashcode Leaves.get]. fold h2. rewrite (Z.eqb_sym h2 h).
        destruct (Z.eqb_spec h h2) as [->|Hh2]; [reflexivity|].
        destruct (Z.eqb_spec h h1) as [->|_]; [congruence|reflexivity].
      * destruct (Z.eqb_spec h h2) as [->|_]; [congruence|].
        destruct (Z.eqb_spec (index h d) (index h1 d)) as [E1|E1].
        -- fold h1. rewrite (Z.eqb_sym h1 h). destruct (h =? h1); reflexivity.
        -- destruct (Z.eqb_spec h h1) as [->|_]; [congruence|reflexivity].
Qed.

Lemma newCompressedTable2_spec : forall d h30 k v (oldLeaf : leafI V),
  0 <= Leaves.hashcode oldLeaf < 2 ^ 30 -> Leaves.hashcode oldLeaf <> h30 ->
  0 <= h30 < 2 ^ 30 -> 0 <= d <= 6 -> pre (Leaves.hashcode oldLeaf) d = pre h30 d ->
  exists t,
    newCompressedTable2 V d (pre h30 d) oldLeaf (NewFlatLeaf_deref V h30 k v) = Ok t
    /\ wf_table V d t /\ table_hashcode t = pre h30 d
    /\ forall h k', pre h d = pre h30 d ->
         Get_at V d t h k'
         = Ok (two_leaves oldLeaf (NewFlatLeaf_deref V h30 k v) h k').
Proof.
  intros d h30 k v oldLeaf H1 Hne H30 Hd Hpre.
  assert (Eh : Leaves.fl_hash (NewFlatLeaf_deref V h30 k v) = h30).
  { unfold NewFlatLeaf_deref. cbn [Leaves.fl_hash]. rewrite mask30_pre. apply pre_full.
    exact H30. }
  unfold newCompressedTable2. rewrite hashPathMask_pre by lia.
  rewrite pre_pre by lia.
  pose proof (newCompressedTable2_loop_spec (S (S (Z.to_nat MAXDEPTH))) d oldLeaf
                (NewFlatLeaf_deref V h30 k v)) as H.
  rewrite Eh in H. apply H; try assumption. unfold MAXDEPTH. lia.
Qed.

(** The recorded path: the tables from the parent of [t] up to the root, each
    holding the next one in the slot its hash path gives. *)
Inductive chain : Z -> table V -> pathT V -> Prop :=
| chain_root : forall t, chain 0 t []
| chain_step : forall d t P rest,
    wf_table V d P ->
    lookup V P (index (table_hashcode t) d) = Some (tableNode t) ->
    chain d P rest ->
    chain (d + 1) t (P :: rest).

(** The bottom of the path: the root the descent started from. *)
Fixpoint path_root (t : table V) (path : pathT V) : table V :=
  match path with
  | [] => t
  | P :: rest => path_root P rest
  end.

Lemma chain_length : forall d t path, chain d t path -> Z.of_nat (length path) = d.
Proof.
  induction 1 as [t|d t P rest Hwf Hl Hc IH]; [reflexivity|].
  cbn [length]. lia.
Qed.

(** Reading from the root with a hash that has the prefix of [t] comes to
    [t]. *)
Lemma chain_get : forall d t path, chain d t path ->
  forall h k, pre h d = table_hashcode t ->
  Get_at V 0 (path_root t path) h k = Get_at V d t h k.
Proof.
  induction 1 as [t|d t P rest Hwf Hl Hc IH]; intros h k Hp; [reflexivity|].
  cbn [path_root].
  pose proof (wf_table_depth V d P Hwf) as Hd.
  pose proof (index_range (table_hashcode t) d Hd) as Hi.
  destruct (proj1 (routes_iff d P _ t h Hwf Hi Hl) Hp) as [HpP Hidx].
  rewrite IH by exact HpP.
  rewrite Get_at_lookup by (try assumption; apply (wf_table_ok V d P Hwf)).
  rewrite Hidx, Hl. reflexivity.
Qed.

(** [copyUp] rebuilds the tables of the path around the new table [t']: a
    lookup from the new root with a hash that has the prefix of [t] comes to
    [t'], and any other lookup finds what it found from the old root. *)
Lemma copyUp_spec : forall d t path, chain d t path ->
  forall t', wf_table V d t' -> table_hashcode t' = table_hashcode t ->
  exists r', copyUp V GradeTables t (Some t') path = Ok (Some r')
    /\ wf_table V 0 r'
    /\ forall h k, Get_at V 0 r' h k
                   = if pre h d =? table_hashcode t then Get_at V d t' h k
                     else Get_at V 0 (path_root t path) h k.
Proof.
  induction 1 as [t|d t P rest Hwf Hl Hc IH]; intros t' Hwf' Hhc.
  - exists t'. split; [reflexivity|]. split; [exact Hwf'|]. intros h k.
    pose proof (wf_table_range V 0 t' Hwf') as Hr. rewrite Hhc in Hr.
    change (2 ^ (5 * 0)) with 1 in Hr. rewrite pre_0.
    replace (table_hashcode t) with 0 by lia. reflexivity.
  - pose proof (wf_table_depth V d P Hwf) as Hd.
    pose proof (index_range (table_hashcode t) d Hd) as Hi.
    pose proof (chain_length _ _ _ Hc) as Hlen.
    cbn [copyUp path_root option_map]. cbn [length]. rewrite Nat2Z.inj_succ, Hlen.
    replace (Z.succ d - 1) with d by lia.
    unfold MAXDEPTH in Hd. rewrite (GoFacts.u64_small d) by lia.
    destruct (wf_node_table_inv V _ _ _ _ (wf_table_child V d P _ _ Hwf Hi Hl))
      as (Hpc & Hic & Hwc).
    destruct (wf_table_set V GradeTables d P (index (table_hashcode t) d) (tableNode t')
                Hwf Hi) as (P' & Hset & HwfP' & HhcP' & HlP').
    { constructor; [rewrite Hhc; exact Hpc|rewrite Hhc; reflexivity|exact Hwf']. }
    rewrite Hset. cbn [Go.bind].
    destruct (IH P' HwfP' HhcP') as (r' & Hcu & Hwfr & Hget).
    exists r'. split; [exact Hcu|]. split; [exact Hwfr|]. intros h k.
    rewrite Hget.
    pose proof (routes_iff d P _ t h Hwf Hi Hl) as Hroute.
    destruct (Z.eqb_spec (pre h d) (table_hashcode P)) as [HpP|HpP].
    + rewrite Get_at_lookup by (try (unfold MAXDEPTH; lia); apply (wf_table_ok V d P' HwfP')).
      rewrite HlP' by (apply index_range; lia).
      destruct (Z.eqb_spec (index h d) (index (table_hashcode t) d)) as [E|E].
      * replace (pre h (d + 1) =? table_hashcode t) with true; [reflexivity|].
        symmetry. apply Z.eqb_eq. apply Hroute. auto.
      * replace (pre h (d + 1) =? table_hashcode t) with false.
        2:{ symmetry. apply Z.eqb_neq. intros Hc'. apply E. apply Hroute. exact Hc'. }
        rewrite (chain_get d P rest Hc h k HpP).
        rewrite (Get_at_lookup V d P) by (try (unfold MAXDEPTH; lia);
                                          apply (wf_table_ok V d P Hwf)).
        reflexivity.
    + replace (pre h (d + 1) =? table_hashcode t) with false; [reflexivity|].
      symmetry. apply Z.eqb_neq. intros Hc'. apply HpP. apply Hroute. exact Hc'.
Qed.

(** What [Put] of [k] and [v] owes the map rooted at [old]: a well-formed
    new root from which [k] reads [v] and every other key reads what it read
    from [old].  The only panic is the type assertion of the log call. *)
Definition put_post (k : key) (v : V) (old : table V) (r : result (Hamt V * bool)) : Prop :=
  match r with
  | Ok (h', _) =>
      exists r', root h' = Some r' /\ wf_table V 0 r'
        /\ Get_at V 0 r' (Hash30 k) k = Ok (Some v)
        /\ forall k', k' <> k ->
             Get_at V 0 r' (Hash30 k') k' = Get_at V 0 old (Hash30 k') k'
  | Panic p => p = InterfaceConversion
  | OutOfFuel => False
  end.

Lemma put_finish : forall d t path t' k v n b,
  chain d t path -> wf_table V d t' -> table_hashcode t' = table_hashcode t ->
  pre (Hash30 k) d = table_hashcode t ->
  Get_at V d t' (Hash30 k) k = Ok (Some v) ->
  (forall k', k' <> k -> pre (Hash30 k') d = table_hashcode t ->
     Get_at V d t' (Hash30 k') k' = Get_at V d t (Hash30 k') k') ->
  put_post k v (path_root t path)
    (r <- copyUp V GradeTables t (Some t') path ;; Ok (mkHamt r n, b)).
Proof.
  intros d t path t' k v n b Hc Hwf' Hhc Hp Hk Hother.
  destruct (copyUp_spec d t path Hc t' Hwf' Hhc) as (r' & Hcu & Hwfr & Hget).
  rewrite Hcu. cbn [Go.bind put_post]. exists r'. split; [reflexivity|].
  split; [exact Hwfr|]. split.
  - rewrite Hget. rewrite (proj2 (Z.eqb_eq _ _) Hp). exact Hk.
  - intros k' Hne. rewrite Hget.
    destruct (Z.eqb_spec (pre (Hash30 k') d) (table_hashcode t)) as [E|E]; [|reflexivity].
    rewrite (Hother k' Hne E). symmetry. apply chain_get; assumption.
Qed.

Lemma NewFlatLeaf_hashcode : forall k v,
  Leaves.hashcode (NewFlatLeaf V (Hash30 k) k v) = Hash30 k.
Proof.
  intros k v. unfold NewFlatLeaf, Leaves.NewFlatLeaf. cbn [Leaves.hashcode Leaves.fl_hash].
  rewrite mask30_pre. apply pre_full. apply Hash30_range.
Qed.

Lemma NewFlatLeaf_get : forall k v k',
  Leaves.get (NewFlatLeaf V (Hash30 k) k v) k' = if byteSlicesEqual k k' then Some v else None.
Proof. intros k v k'. reflexivity. Qed.

Lemma Put_loop_spec : forall n nh d k v curTable path,
  chain d curTable path -> wf_table V d curTable ->
  pre (Hash30 k) d = table_hashcode curTable ->
  (Z.to_nat (MAXDEPTH + 1 - d) < n)%nat ->
  put_post k v (path_root curTable path)
    (Put_loop V GradeTables n nh d (Hash30 k) k v (NewFlatLeaf V (Hash30 k) k v)
       curTable path (pre (Hash30 k) d)).
Proof.
  induction n as [|n IH]; intros nh d k v curTable path Hc Hwf Hp Hn; [lia|].
  pose proof (wf_table_depth V d curTable Hwf) as Hd.
  pose proof (wf_table_ok V d curTable Hwf) as Hok.
  pose proof (index_range (Hash30 k) d Hd) as Hi.
  pose proof (Hash30_range k) as Hk30.
  cbn [Put_loop]. unfold MAXDEPTH in Hd, Hn |- *.
  replace (d <=? 5) with true by (symmetry; apply Z.leb_le; lia).
  rewrite table_get_lookup by assumption. cbn [Go.bind].
  destruct (lookup V curTable (index (Hash30 k) d)) as [[oldLeaf|c]|] eqn:Hl.
  - (* a leaf *)
    destruct (wf_node_leaf_inv V _ _ _ _ (wf_table_child V d curTable _ _ Hwf Hi Hl))
      as (Hr1 & Hp1 & Hi1).
    destruct (Z.eqb_spec (Leaves.hashcode oldLeaf) (Hash30 k)) as [Heq|Hneq].
    + (* the hashcode of the key *)
      destruct oldLeaf as [f|f|cl]; cbn [Leaves.assert_flatLeaf Go.bind put_post];
        [|reflexivity|reflexivity].
      pose proof (Leaf32Facts.get_put32_same V (Leaves.FlatVal f) k v) as Hsame.
      pose proof (Leaf32Facts.get_put32_other V (Leaves.FlatVal f) k v) as Hoth.
      pose proof (Leaf32Facts.hashcode_put32 V (Leaves.FlatVal f) k v) as Hhp.
      destruct (leaf_put V (Leaves.FlatVal f) k v)
        as [newLeaf' inserted]. cbn [fst] in Hsame, Hoth, Hhp.
      destruct (wf_table_set V GradeTables d curTable (index (Hash30 k) d)
                  (leafNode newLeaf') Hwf Hi) as (t' & Hset & Hwf' & Hhc' & Hl').
      { constructor; rewrite Hhp; assumption. }
      rewrite Hset. cbn [Go.bind].
      apply (put_finish d curTable path t' k v); try assumption.
      * rewrite Get_at_lookup by (try (unfold MAXDEPTH; lia); apply (wf_table_ok V d t' Hwf')).
        rewrite Hl' by assumption. rewrite Z.eqb_refl.
        rewrite Hhp, Heq, Z.eqb_refl, Hsame. reflexivity.
      * intros k' Hne Hp'.
        rewrite Get_at_lookup by (try (unfold MAXDEPTH; lia); apply (wf_table_ok V d t' Hwf')).
        rewrite (Get_at_lookup V d curTable) by (try (unfold MAXDEPTH; lia); assumption).
        rewrite Hl' by (apply index_range; unfold MAXDEPTH; lia).
        destruct (Z.eqb_spec (index (Hash30 k') d) (index (Hash30 k) d)) as [E|E];
          [|reflexivity].
        rewrite E, Hl, Hhp. rewrite (Hoth k' Hne). reflexivity.
    + (* another hashcode: a table for the two leaves *)
      rewrite buildHashPath_pre by lia.
      rewrite (GoFacts.u64_small (d + 1)) by lia.
      assert (Hpre1 : pre (Leaves.hashcode oldLeaf) (d + 1) = pre (Hash30 k) (d + 1)).
      { apply pre_step; [lia|]. split; [congruence|assumption]. }
      destruct (newCompressedTable2_spec (d + 1) (Hash30 k) k v oldLeaf Hr1 Hneq Hk30
                  ltac:(lia) Hpre1) as (ct & Hct & Hwfc & Hhcc & Hgetc).
      rewrite Hct. cbn [Go.bind].
      destruct (wf_table_set V GradeTables d curTable (index (Hash30 k) d)
                  (tableNode ct) Hwf Hi) as (t' & Hset & Hwf' & Hhc' & Hl').
      { constructor; [rewrite Hhcc, <- Hp; apply pre_pre; lia
                     |rewrite Hhcc; apply index_pre; lia|exact Hwfc]. }
      rewrite Hset. cbn [Go.bind].
      assert (Eh : Leaves.fl_hash (NewFlatLeaf_deref V (Hash30 k) k v) = Hash30 k).
      { unfold NewFlatLeaf_deref. cbn [Leaves.fl_hash]. rewrite mask30_pre.
        apply pre_full. assumption. }
      apply (put_finish d curTable path t' k v); try assumption.
      * rewrite Get_at_lookup by (try (unfold MAXDEPTH; lia); apply (wf_table_ok V d t' Hwf')).
        rewrite Hl' by assumption. rewrite Z.eqb_refl.
        rewrite Hgetc by reflexivity. unfold two_leaves. rewrite Eh, Z.eqb_refl.
        unfold NewFlatLeaf_deref, Leaves.flatLeaf_get. cbn [Leaves.fl_key Leaves.fl_val].
        rewrite byteSlicesEqual_refl. reflexivity.
      * intros k' Hne Hp'.
        rewrite Get_at_lookup by (try (unfold MAXDEPTH; lia); apply (wf_table_ok V d t' Hwf')).
        rewrite (Get_at_lookup V d curTable) by (try (unfold MAXDEPTH; lia); assumption).
        rewrite Hl' by (apply index_range; unfold MAXDEPTH; lia).
        destruct (Z.eqb_spec (index (Hash30 k') d) (index (Hash30 k) d)) as [E|E];
          [|reflexivity].
        rewrite E, Hl.
        rewrite Hgetc by (apply pre_step; [lia|]; split; [congruence|assumption]).
        unfold two_leaves. rewrite Eh.
        rewrite (Z.eqb_sym (Leaves.hashcode oldLeaf) (Hash30 k')).
        destruct (Z.eqb_spec (Hash30 k') (Hash30 k)) as [E2|E2].
        -- rewrite E2. replace (Hash30 k =? Leaves.hashcode oldLeaf) with false
             by (symmetry; apply Z.eqb_neq; congruence).
           unfold NewFlatLeaf_deref, Leaves.flatLeaf_get. cbn [Leaves.fl_key Leaves.fl_val].
           rewrite (byteSlicesEqual_neq k k') by congruence. reflexivity.
        -- destruct (Hash30 k' =? Leaves.hashcode oldLeaf); reflexivity.
  - (* a table: one level down *)
    destruct (wf_node_table_inv V _ _ _ _ (wf_table_child V d curTable _ _ Hwf Hi Hl))
      as (Hpc & Hic & Hwc).
    pose proof (wf_table_depth V (d + 1) c Hwc) as Hd1. unfold MAXDEPTH in Hd1.
    rewrite buildHashPath_pre by lia.
    rewrite (GoFacts.u64_small (d + 1)) by lia.
    unfold path_push.
    change (path_root curTable path) with (path_root c (curTable :: path)).
    apply IH.
    + constructor; [exact Hwf|rewrite Hic; exact Hl|exact Hc].
    + exact Hwc.
    + apply (routes_iff d curTable _ c (Hash30 k) Hwf Hi Hl). auto.
    + unfold MAXDEPTH. lia.
  - (* an empty slot *)
    destruct (wf_table_set V GradeTables d curTable (index (Hash30 k) d)
                (leafNode (NewFlatLeaf V (Hash30 k) k v)) Hwf Hi)
      as (t' & Hset & Hwf' & Hhc' & Hl').
    { constructor; rewrite NewFlatLeaf_hashcode; auto. }
    rewrite Hset. cbn [Go.bind].
    apply (put_finish d curTable path t' k v); try assumption.
    + rewrite Get_at_lookup by (try (unfold MAXDEPTH; lia); apply (wf_table_ok V d t' Hwf')).
      rewrite Hl' by assumption. rewrite Z.eqb_refl.
      rewrite NewFlatLeaf_hashcode, Z.eqb_refl, NewFlatLeaf_get, byteSlicesEqual_refl.
      reflexivity.
    + intros k' Hne Hp'.
      rewrite Get_at_lookup by (try (unfold MAXDEPTH; lia); apply (wf_table_ok V d t' Hwf')).
      rewrite (Get_at_lookup V d curTable) by (try (unfold MAXDEPTH; lia); assumption).
      rewrite Hl' by (apply index_range; unfold MAXDEPTH; lia).
      destruct (Z.eqb_spec (index (Hash30 k') d) (index (Hash30 k) d)) as [E|E];
        [|reflexivity].
      rewrite E, Hl. rewrite NewFlatLeaf_hashcode, NewFlatLeaf_get.
      rewrite (byteSlicesEqual_neq k k') by congruence.
      destruct (Hash30 k =? Hash30 k'); reflexivity.
Qed.

(** A well-formed map: the empty one, or a well-formed root table. *)
Definition wf (h : Hamt V) : Prop :=
  match root h with
  | None => True
  | Some t => wf_table V 0 t
  end.

Lemma Get_root : forall (h : Hamt V) t k, root h = Some t ->
  Get V Hash30 h k = Get_at V 0 t (Hash30 k) k.
Proof. intros h t k Hr. unfold Get. rewrite Hr. reflexivity. Qed.

(** The table [Put] makes for the first key of a map. *)
Lemma newCompressedTable_spec : forall k v,
  newCompressedTable V 0 (Hash30 k) (NewFlatLeaf V (Hash30 k) k v)
  = compressedTable 0 (2 ^ index (Hash30 k) 0) [leafNode (NewFlatLeaf V (Hash30 k) k v)]
  /\ wf_table V 0 (newCompressedTable V 0 (Hash30 k) (NewFlatLeaf V (Hash30 k) k v))
  /\ forall k', Get_at V 0 (newCompressedTable V 0 (Hash30 k) (NewFlatLeaf V (Hash30 k) k v))
                  (Hash30 k') k'
                = Ok (if (index (Hash30 k') 0 =? index (Hash30 k) 0)
                         && (Hash30 k =? Hash30 k') && byteSlicesEqual k k'
                      then Some v else None).
Proof.
  intros k v.
  pose proof (index_range (Hash30 k) 0 ltac:(unfold MAXDEPTH; lia)) as Hi.
  assert (E : newCompressedTable V 0 (Hash30 k) (NewFlatLeaf V (Hash30 k) k v)
              = compressedTable 0 (2 ^ index (Hash30 k) 0)
                  [leafNode (NewFlatLeaf V (Hash30 k) k v)]).
  { unfold newCompressedTable. rewrite hashPathMask_pre, pre_0 by lia.
    rewrite GoFacts.shl32_one by assumption. reflexivity. }
  rewrite E. split; [reflexivity|].
  destruct (singleton_ok V (index (Hash30 k) 0) (leafNode (NewFlatLeaf V (Hash30 k) k v)) Hi)
    as [Hok Hl].
  split.
  - constructor; cbn [table_hashcode table_ok lookup].
    + unfold MAXDEPTH. lia.
    + exact Hok.
    + change (2 ^ (5 * 0)) with 1. lia.
    + intros i nd Hi' Hlk. rewrite Hl in Hlk by assumption.
      destruct (Z.eqb_spec i (index (Hash30 k) 0)) as [->|]; [|discriminate].
      injection Hlk as <-. constructor; rewrite NewFlatLeaf_hashcode.
      * apply Hash30_range.
      * apply pre_0.
      * reflexivity.
  - intros k'. rewrite Get_at_lookup by (try exact Hok; unfold MAXDEPTH; lia).
    cbn [lookup]. rewrite Hl by (apply index_range; unfold MAXDEPTH; lia).
    destruct (index (Hash30 k') 0 =? index (Hash30 k) 0); [|reflexivity].
    rewrite NewFlatLeaf_hashcode, NewFlatLeaf_get. cbn [andb].
    destruct (Hash30 k =? Hash30 k'); reflexivity.
Qed.

(** [Put] on a well-formed map: the map returned is well formed, [Get] finds
    the value of the key in it, and every other key reads as before; [Put]
    does not return only when the type assertion of its log call panics. *)
Lemma Put_spec : forall (h : Hamt V) k v, wf h ->
  match Put V Hash30 GradeTables h k v with
  | Ok (h', _) =>
      wf h' /\ Get V Hash30 h' k = Ok (Some v)
      /\ forall k', k' <> k -> Get V Hash30 h' k' = Get V Hash30 h k'
  | Panic p => p = InterfaceConversion
  | OutOfFuel => False
  end.
Proof.
  intros h k v Hwf. unfold Put, wf in *.
  destruct (root h) as [curTable|] eqn:Hr.
  - pose proof (Put_loop_spec loop_fuel h 0 k v curTable (newPathT V) (chain_root curTable)
                  Hwf) as H.
    rewrite (pre_0 (Hash30 k)) in H.
    specialize (H ltac:(pose proof (wf_table_range V 0 curTable Hwf) as Hrg;
                        change (2 ^ (5 * 0)) with 1 in Hrg; lia)
                  ltac:(unfold loop_fuel, MAXDEPTH; lia)).
    cbn [path_root newPathT] in H. unfold newPathT.
    destruct (Put_loop _ _ _ _ _ _ _ _ _ _ _ _) as [[h' b]|p|]; cbn [put_post] in H;
      [|exact H|exact H].
    destruct H as (r' & Hr' & Hwf' & Hk & Hother).
    rewrite Hr'. split; [exact Hwf'|]. split.
    + rewrite (Get_root h' r') by assumption. exact Hk.
    + intros k' Hne. rewrite (Get_root h' r'), (Get_root h curTable) by assumption.
      apply Hother. exact Hne.
  - destruct (newCompressedTable_spec k v) as (_ & Hwf0 & Hget).
    cbn [root]. split; [exact Hwf0|].
    set (t0 := newCompressedTable V 0 (Hash30 k) (NewFlatLeaf V (Hash30 k) k v)) in *.
    set (n0 := Go.u64 (nentries h + 1)).
    assert (Hg : forall k', Get V Hash30 (mkHamt (Some t0) n0) k'
                            = Get_at V 0 t0 (Hash30 k') k')
      by (intros k'; apply Get_root; reflexivity).
    split.
    + rewrite Hg, Hget.
      rewrite !Z.eqb_refl, byteSlicesEqual_refl. reflexivity.
    + intros k' Hne. rewrite Hg, Hget.
      rewrite (byteSlicesEqual_neq k k') by congruence. rewrite !andb_false_r.
      unfold Get. rewrite Hr. reflexivity.
Qed.

(** A second [Put] with the hashcode of the first key of a map panics: the
    leaf of the first key is stored as a pointer, which the type assertion
    [oldLeaf.(flatLeaf)] refuses. *)
Lemma Put_same_hash_panics : forall k1 v1 k2 v2, Hash30 k2 = Hash30 k1 ->
  exists m, Put V Hash30 GradeTables EMPTY k1 v1 = Ok (m, true)
            /\ nentries m = 1 /\ wf m
            /\ Put V Hash30 GradeTables m k2 v2 = Panic InterfaceConversion.
Proof.
  intros k1 v1 k2 v2 Hh.
  destruct (newCompressedTable_spec k1 v1) as (E & Hwf0 & _).
  eexists. split; [reflexivity|]. split; [reflexivity|]. split; [exact Hwf0|].
  unfold Put. cbn [root nentries EMPTY]. unfold loop_fuel. cbn [Put_loop].
  change (0 <=? MAXDEPTH) with true. cbv iota.
  rewrite table_get_lookup
    by (try (apply index_range; unfold MAXDEPTH; lia); apply (wf_table_ok V 0 _ Hwf0)).
  rewrite E. cbn [lookup Go.bind].
  pose proof (index_range (Hash30 k1) 0 ltac:(unfold MAXDEPTH; lia)) as Hi.
  destruct (singleton_ok V (index (Hash30 k1) 0)
              (leafNode (NewFlatLeaf V (Hash30 k1) k1 v1)) Hi) as [_ Hl].
  rewrite Hh. rewrite Hl by assumption. rewrite Z.eqb_refl.
  rewrite NewFlatLeaf_hashcode, Z.eqb_refl. reflexivity.
Qed.

End WithValues.
End PutFacts.

(** * The sparse table: lookup and promotion *)
Module SparseTable.
Import Hamt32 Popcount CompressedFacts EntryFacts FullFacts TableFacts.

Lemma shiftl_one : forall i, 0 <= i -> Z.shiftl 1 i = 2 ^ i.
Proof. intros i Hi. apply Z.shiftl_1_l. Qed.

Lemma low_mask : forall i, 0 <= i < 32 -> Go.u32 (Go.shl32 1 i - 1) = 2 ^ i - 1.
Proof.
  intros i Hi. rewrite GoFacts.shl32_one by assumption. apply GoFacts.u32_small.
  assert (0 < 2 ^ i) by (apply Z.pow_pos_nonneg; lia).
  assert (2 ^ i < 2 ^ 32) by (apply Z.pow_lt_mono_r; lia). lia.
Qed.

(** The position of slot [i] among the children. *)
Lemma position_rank : forall m i, 0 <= i < 32 ->
  bitCount32 (Z.land m (Z.shiftl 1 i - 1)) = rank m i.
Proof.
  intros m i Hi. rewrite shiftl_one, <- low_mask by lia. apply bitCount32_below. assumption.
Qed.

(** C4: in a sparse table laid out as section 4.3 has it (as many children
    as the bitmap has bits set), [get(i)] for a slot index [i] returns
    nothing when bit [i] of the bitmap is clear, and otherwise the child at
    position [popcount(bitmap & ((1<<i) - 1))] of the children sequence,
    which exists. *)
Theorem compressed_get_sparse_lookup :
  forall (V : Type) (nodeMap : Z) (nodes : list (node V)) (i : Z),
  ct_ok V nodeMap nodes -> 0 <= i < 32 ->
  let j := bitCount32 (Z.land nodeMap (Z.shiftl 1 i - 1)) in
  compressed_get V nodeMap nodes i
  = Ok (if Z.land nodeMap (Z.shiftl 1 i) =? 0 then None else nth_error nodes (Z.to_nat j))
  /\ ((Z.land nodeMap (Z.shiftl 1 i) =? 0) = false ->
      exists child, nth_error nodes (Z.to_nat j) = Some child).
Proof.
  intros V nodeMap nodes i Hok Hi j. subst j.
  rewrite position_rank, shiftl_one, land_pow2_eq0 by lia. split.
  - rewrite compressed_get_lookup by assumption. unfold ct_lookup.
    destruct (Z.testbit nodeMap i); reflexivity.
  - intros Hb. destruct (Z.testbit nodeMap i) eqn:Hbit; [|discriminate].
    destruct (ct_lookup_set V nodeMap nodes i Hok Hi Hbit) as [nd Hnd].
    unfold ct_lookup in Hnd. rewrite Hbit in Hnd. exists nd. exact Hnd.
Qed.

Definition sample_leaf (h : Z) (v : Z) : node Z :=
  leafNode (Leaves.FlatPtr (Leaves.mkFlatLeaf h [] v)).

(** Slots 0, 2 and 7 occupied; slot 7 is the third child. *)
Lemma compressed_get_sparse_lookup_witness :
  compressed_get Z 133 [sample_leaf 0 10; sample_leaf 2 20; sample_leaf 7 30] 7
  = Ok (Some (sample_leaf 7 30))
  /\ compressed_get Z 133 [sample_leaf 0 10; sample_leaf 2 20; sample_leaf 7 30] 5 = Ok None.
Proof.
  assert (Hok : ct_ok Z 133 [sample_leaf 0 10; sample_leaf 2 20; sample_leaf 7 30])
    by (split; [lia|reflexivity]).
  split.
  - exact (proj1 (compressed_get_sparse_lookup Z 133 _ 7 Hok ltac:(lia))).
  - exact (proj1 (compressed_get_sparse_lookup Z 133 _ 5 Hok ltac:(lia))).
Defined.

(** C8: an insertion by [set(i, node)] into an empty slot of a sparse table
    that brings the number of set bits of the bitmap to [TABLE_CAPACITY/2]
    or more returns the dense table [upgradeToFullTable] builds from the
    entries of the enlarged table: its children are the old ones and [node]
    at slot [i].  The method asks for no policy flag, so this holds when
    promotion is enabled.  Below the threshold the result is the enlarged
    sparse table. *)
Theorem compressed_set_promotion_threshold :
  forall (V : Type) (hashPath nodeMap : Z) (nodes : list (node V)) (i : Z) (nd : node V),
  ct_ok V nodeMap nodes -> 0 <= i < 32 -> Z.land nodeMap (Z.shiftl 1 i) = 0 ->
  let nodeMap' := Z.lor nodeMap (Z.shiftl 1 i) in
  exists nodes' : list (node V),
    ct_ok V nodeMap' nodes' /\
    (forall j, 0 <= j < 32 ->
       ct_lookup V nodeMap' nodes' j = if j =? i then Some nd else ct_lookup V nodeMap nodes j) /\
    (TABLE_CAPACITY / 2 <= bitCount32 nodeMap' ->
       exists ents m ns,
         compressed_entries V nodeMap' nodes' = Ok ents /\
         compressed_set V hashPath nodeMap nodes i (Some nd)
         = Ok (Some (upgradeToFullTable V hashPath ents)) /\
         upgradeToFullTable V hashPath ents = fullTable hashPath m ns /\
         ft_ok V m ns /\
         forall j, 0 <= j < 32 ->
           ft_lookup V ns j = if j =? i then Some nd else ct_lookup V nodeMap nodes j) /\
    (bitCount32 nodeMap' < TABLE_CAPACITY / 2 ->
       compressed_set V hashPath nodeMap nodes i (Some nd)
       = Ok (Some (compressedTable hashPath nodeMap' nodes'))).
Proof.
  intros V hashPath nodeMap nodes i nd Hok Hi Hclear nodeMap'. subst nodeMap'.
  rewrite shiftl_one in * by lia.
  assert (Hb : Z.testbit nodeMap i = false).
  { pose proof (land_pow2_eq0 nodeMap i ltac:(lia)) as E. rewrite Hclear in E.
    destruct (Z.testbit nodeMap i); [discriminate|reflexivity]. }
  pose proof (ct_insert_ok V nodeMap nodes i nd Hok Hi Hb) as Hok'.
  exists (firstn (Z.to_nat (rank nodeMap i)) nodes ++ nd :: skipn (Z.to_nat (rank nodeMap i)) nodes).
  split; [exact Hok'|]. split; [intros j Hj; apply ct_insert_lookup; assumption|].
  assert (Hset : forall k : result (option (table V)) -> Prop,
            k (nt_nodes <- Ok (firstn (Z.to_nat (rank nodeMap i)) nodes
                               ++ nd :: skipn (Z.to_nat (rank nodeMap i)) nodes) ;;
               (if TABLE_CAPACITY / 2 <=? bitCount32 (Z.lor nodeMap (2 ^ i)) then
                  ents <- compressed_entries V (Z.lor nodeMap (2 ^ i)) nt_nodes ;;
                  Ok (Some (upgradeToFullTable V hashPath ents))
                else Ok (Some (compressedTable hashPath (Z.lor nodeMap (2 ^ i)) nt_nodes)))) ->
            k (compressed_set V hashPath nodeMap nodes i (Some nd))).
  { intros k Hk. unfold compressed_set.
    rewrite GoFacts.shl32_one by assumption.
    replace (Go.u32 (2 ^ i - 1)) with (Go.u32 (Go.shl32 1 i - 1))
      by (rewrite GoFacts.shl32_one by assumption; reflexivity).
    rewrite bitCount32_below by assumption.
    rewrite land_pow2_eq0, Hb by lia. cbn [negb].
    pose proof (ct_ok_rank_le V nodeMap nodes i Hok ltac:(lia)).
    rewrite SliceFacts.insert_slice_ok by lia. exact Hk. }
  split.
  - intros Hge. apply Z.leb_le in Hge.
    destruct (upgrade_spec V hashPath (ct_lookup V (Z.lor nodeMap (2 ^ i))
                (firstn (Z.to_nat (rank nodeMap i)) nodes
                 ++ nd :: skipn (Z.to_nat (rank nodeMap i)) nodes)))
      as (m & ns & E & Hft & Hlook).
    eexists; exists m, ns. split; [apply compressed_entries_spec; exact Hok'|].
    split; [|split; [exact E|split; [exact Hft|]]].
    + apply Hset. cbn [Go.bind]. rewrite Hge.
      rewrite compressed_entries_spec by exact Hok'. reflexivity.
    + intros j Hj. rewrite Hlook by assumption. apply ct_insert_lookup; assumption.
  - intros Hlt. apply Hset. cbn [Go.bind].
    destruct (Z.leb_spec (TABLE_CAPACITY / 2) (bitCount32 (Z.lor nodeMap (2 ^ i)))); [lia|].
    reflexivity.
Qed.

Definition fifteen_leaves : list (node Z) :=
  map (fun k => sample_leaf k k) [0; 1; 2; 3; 4; 5; 6; 7; 8; 9; 10; 11; 12; 13; 14].

(** The sixteenth child makes the table dense; the fourth leaves it sparse. *)
Lemma compressed_set_promotion_threshold_witness :
  (exists m ns,
     compressed_set Z 0 32767 fifteen_leaves 20 (Some (sample_leaf 20 20))
     = Ok (Some (fullTable 0 m ns))
     /\ ft_lookup Z ns 20 = Some (sample_leaf 20 20)
     /\ ft_lookup Z ns 14 = Some (sample_leaf 14 14))
  /\ (exists ns,
        compressed_set Z 0 133 [sample_leaf 0 10; sample_leaf 2 20; sample_leaf 7 30] 5
          (Some (sample_leaf 5 5))
        = Ok (Some (compressedTable 0 165 ns))).
Proof.
  split.
  - destruct (compressed_set_promotion_threshold Z 0 32767 fifteen_leaves 20
                (sample_leaf 20 20))
      as (nodes' & _ & _ & Hfull & _).
    + split; [lia|reflexivity].
    + lia.
    + reflexivity.
    + destruct Hfull as (ents & m & ns & _ & Hset & Hup & _ & Hlook).
      * vm_compute. discriminate.
      * exists m, ns. split; [rewrite Hset, Hup; reflexivity|].
        split; [exact (Hlook 20 ltac:(lia))|exact (Hlook 14 ltac:(lia))].
  - destruct (compressed_set_promotion_threshold Z 0 133
                [sample_leaf 0 10; sample_leaf 2 20; sample_leaf 7 30] 5 (sample_leaf 5 5))
      as (nodes' & _ & _ & _ & Hsparse).
    + split; [lia|reflexivity].
    + lia.
    + reflexivity.
    + exists nodes'. apply Hsparse. vm_compute. reflexivity.
Defined.

End SparseTable.

(** * Package hamt: hash paths and leaf deletion *)
Module Variant64.
Import Hamt64 GoFacts.

Lemma shl64_one : forall i, 0 <= i < 64 -> Go.shl64 1 i = 2 ^ i.
Proof.
  intros i H. unfold Go.shl64. rewrite Z.shiftl_1_l. apply u64_small.
  split; [apply Z.pow_nonneg; lia|]. apply Z.pow_lt_mono_r; lia.
Qed.

Lemma prefix_bit_clear : forall p n, 0 <= n -> 0 <= p < 2 ^ n -> Z.land p (2 ^ n) = 0.
Proof.
  intros p n Hn Hp. rewrite Popcount.land_pow2 by assumption.
  replace (Z.testbit p n) with false; [reflexivity|].
  symmetry. apply Z.testbit_false; [assumption|].
  rewrite Z.div_small by assumption. reflexivity.
Qed.

(** When the 64-bit [buildHashPath] returns, it returns the bitwise AND of
    the prefix and the shifted slot index. *)
Lemma buildHashPath_and : forall hashPath depth idx r,
  buildHashPath hashPath depth idx = Ok r ->
  r = Z.land hashPath (Go.shl64 idx (Go.u64 (depth * NBITS))).
Proof.
  intros hashPath depth idx r. unfold buildHashPath.
  destruct (0 <? _); [discriminate|]. intros H. injection H as <-. reflexivity.
Qed.

(** C6, package hamt: on every prefix valid at depth [depth] (nothing set
    from bit [depth * NBITS] on) the 64-bit [buildHashPath] panics, whatever
    the slot index; it does not return [p | (i << (d * NBITS))]. *)
Theorem buildHashPath64_valid_prefix_panics : forall hashPath depth idx,
  0 <= depth <= MAXDEPTH -> 0 <= hashPath < 2 ^ (depth * NBITS) ->
  buildHashPath hashPath depth idx = Panic ExplicitPanic.
Proof.
  intros hashPath depth idx Hd Hp. unfold buildHashPath, NBITS, MAXDEPTH in *.
  rewrite (u64_small (depth * 6)) by lia.
  rewrite shl64_one by lia.
  rewrite prefix_bit_clear by (try assumption; lia).
  reflexivity.
Qed.

Lemma buildHashPath64_valid_prefix_panics_witness :
  buildHashPath 0 1 5 = Panic ExplicitPanic
  /\ Z.lor 0 (Z.shiftl 5 (1 * NBITS)) = 320.
Proof.
  split; [|reflexivity].
  apply (buildHashPath64_valid_prefix_panics 0 1 5); [unfold MAXDEPTH; lia|].
  unfold NBITS. simpl. lia.
Defined.

Section WithValues.

Variable V : Type.

(** C7: what [del(k)] returns for a key the leaf does not hold.  A flat leaf
    and a collision leaf of two entries return a nil leaf (not the leaf
    itself), no value and false; a collision leaf of another size returns a
    rebuilt leaf with the same entries, no value and false. *)
Theorem leaf_del_absent_key : forall (l : leafI V) (k : key),
  Leaves.get l k = None ->
  leaf_del V l k
  = (match l with
     | Leaves.FlatVal _ | Leaves.FlatPtr _ => None
     | Leaves.CollisionPtr c =>
         if (length (Leaves.cl_kvs c) =? 2)%nat then None
         else Some (Leaves.CollisionPtr
                      (Leaves.mkCollisionLeaf (Leaves.cl_hash c) (Leaves.cl_kvs c)))
     end, None, false).
Proof.
  intros [f|f|c] k Hget; unfold leaf_del; cbn [Leaves.del Leaves.get] in *.
  1,2: unfold Leaves.flatLeaf_get in Hget; unfold Leaves.flatLeaf_del;
       destruct (byteSlicesEqual (Leaves.fl_key f) k); [discriminate|reflexivity].
  destruct (Nat.eqb_spec (length (Leaves.cl_kvs c)) 2) as [Hlen|Hlen].
  - destruct c as [h kvs]. cbn [Leaves.cl_kvs] in *.
    destruct kvs as [|kv0 [|kv1 [|kv2 rest]]]; try discriminate.
    cbn [Leaves.kvs_get] in Hget.
    destruct (byteSlicesEqual (Leaves.kv_key kv0) k) eqn:E0; [discriminate|].
    destruct (byteSlicesEqual (Leaves.kv_key kv1) k) eqn:E1; [discriminate|].
    unfold Leaves.collisionLeaf_del. cbn [Leaves.cl_kvs].
    rewrite (byteSlicesEqual_sym k (Leaves.kv_key kv0)), E0.
    rewrite (byteSlicesEqual_sym k (Leaves.kv_key kv1)), E1. reflexivity.
  - apply LeafFacts.collisionLeaf_del_absent_many; assumption.
Qed.

End WithValues.

Definition key_a : key := [Byte.x61].
Definition key_b : key := [Byte.x62].

Lemma leaf_del_absent_key_witness :
  leaf_del Z (Leaves.FlatVal (Leaves.mkFlatLeaf (hashOf key_a) key_a 1)) key_b
  = (None, None, false)
  /\ leaf_del Z (Leaves.CollisionPtr
                   (Leaves.mkCollisionLeaf 7 [Leaves.mkKeyVal key_a 1; Leaves.mkKeyVal [] 2]))
       key_b
     = (None, None, false).
Proof.
  split.
  - exact (leaf_del_absent_key Z
             (Leaves.FlatVal (Leaves.mkFlatLeaf (hashOf key_a) key_a 1)) key_b eq_refl).
  - exact (leaf_del_absent_key Z
             (Leaves.CollisionPtr
                (Leaves.mkCollisionLeaf 7 [Leaves.mkKeyVal key_a 1; Leaves.mkKeyVal [] 2]))
             key_b eq_refl).
Defined.

End Variant64.

(** * Package hamt32_functional: every operation comes to an end *)
Module Termination32.
Import Hamt32 GoFacts.

Section WithValues.

Variable V : Type.
Variable Hash30 : key -> Z.
Variable GradeTables : bool.

Lemma finished_compressed_entries_loop : forall n i j nodeMap (nodes : list (node V)),
  finished (compressed_entries_loop V n i j nodeMap nodes) = true.
Proof.
  induction n as [|n IH]; intros i j nodeMap nodes; cbn [compressed_entries_loop]; [reflexivity|].
  destruct (0 <? _); [|apply IH].
  apply finished_bind; [apply finished_index_slice|]. intros nd.
  apply finished_bind; [apply IH|reflexivity].
Qed.

Lemma finished_compressed_set : forall hp nodeMap (nodes : list (node V)) idx nn,
  finished (compressed_set V hp nodeMap nodes idx nn) = true.
Proof.
  intros hp nodeMap nodes idx nn. unfold compressed_set. destruct nn as [n|].
  - destruct (_ =? 0).
    + apply finished_bind; [apply finished_insert_slice|]. intros nt_nodes.
      destruct (_ <=? _); [|reflexivity].
      apply finished_bind; [apply finished_compressed_entries_loop|reflexivity].
    + apply finished_bind; [apply finished_store_slice|reflexivity].
  - destruct (0 <? _); [|reflexivity].
    apply finished_bind; [apply finished_remove_slice|]. intros nt_nodes.
    destruct (_ =? 0); reflexivity.
Qed.

Lemma finished_full_set : forall hp nodeMap (nodes : list (option (node V))) idx nn,
  finished (full_set V GradeTables hp nodeMap nodes idx nn) = true.
Proof.
  intros hp nodeMap nodes idx nn. unfold full_set, full_store. destruct nn as [n|].
  - apply finished_bind; [apply finished_store_slice|reflexivity].
  - destruct (0 <? _); [|reflexivity].
    apply finished_bind; [apply finished_store_slice|]. intros nodes'.
    destruct (_ =? 0); [reflexivity|]. destruct (_ && _); reflexivity.
Qed.

Lemma finished_table_get : forall (t : table V) idx, finished (table_get V t idx) = true.
Proof.
  intros [hp m ns|hp m ns] idx; cbn [table_get].
  - unfold compressed_get. destruct (_ =? 0); [reflexivity|].
    apply finished_bind; [apply finished_index_slice|reflexivity].
  - apply finished_index_slice.
Qed.

Lemma finished_table_set : forall (t : table V) idx nn,
  finished (table_set V GradeTables t idx nn) = true.
Proof.
  intros [hp m ns|hp m ns] idx nn; cbn [table_set].
  - apply finished_compressed_set.
  - apply finished_full_set.
Qed.

(** [copyUp] pops one table of the path per call. *)
Lemma finished_copyUp : forall path (oldTable : table V) newTable,
  finished (copyUp V GradeTables oldTable newTable path) = true.
Proof.
  induction path as [|oldParent path' IH]; intros oldTable newTable; cbn [copyUp];
    [reflexivity|].
  apply finished_bind; [apply finished_table_set|]. intros newParent. apply IH.
Qed.

(** The loop of [newCompressedTable2] started at depth [d] tests its
    condition at most [MAXDEPTH + 2 - d] times. *)
Lemma finished_newCompressedTable2_loop : forall n d hashPath curHashPath leaf1 leaf2,
  0 <= d -> (Z.to_nat (MAXDEPTH + 1 - d) < n)%nat ->
  finished (newCompressedTable2_loop V n d hashPath curHashPath leaf1 leaf2) = true.
Proof.
  induction n as [|n IH]; intros d hashPath curHashPath leaf1 leaf2 Hd Hn; [lia|].
  cbn [newCompressedTable2_loop]. unfold MAXDEPTH in *.
  destruct (Z.leb_spec d 5).
  - destruct (negb _); [reflexivity|].
    apply finished_bind; [|reflexivity].
    rewrite (u64_small (d + 1)) by lia. apply IH; lia.
  - destruct (leaf_put V leaf1 (Leaves.fl_key leaf2) (Leaves.fl_val leaf2)) as [lf b].
    apply finished_bind; [apply finished_compressed_set|reflexivity].
Qed.

Lemma finished_newCompressedTable2 : forall depth hashPath leaf1 leaf2, 1 <= depth ->
  finished (newCompressedTable2 V depth hashPath leaf1 leaf2) = true.
Proof.
  intros depth hashPath leaf1 leaf2 Hd. unfold newCompressedTable2.
  apply finished_newCompressedTable2_loop; [lia|]. unfold MAXDEPTH. lia.
Qed.

(** The loops of [Get], [Put] and [Del] started at depth [depth] test their
    condition at most [MAXDEPTH + 2 - depth] times: one table per level from
    [depth] to [MAXDEPTH], and the test that ends the loop. *)
Lemma finished_Get_loop : forall n depth h30 k (curTable : table V),
  0 <= depth -> (Z.to_nat (MAXDEPTH + 1 - depth) < n)%nat ->
  finished (Get_loop V n depth h30 k curTable) = true.
Proof.
  induction n as [|n IH]; intros depth h30 k curTable Hd Hn; [lia|].
  cbn [Get_loop]. unfold MAXDEPTH in *.
  destruct (Z.leb_spec depth 5); [|reflexivity].
  apply finished_bind; [apply finished_table_get|]. intros [[lf|t]|]; [| |reflexivity].
  - destruct (_ =? _); reflexivity.
  - rewrite (u64_small (depth + 1)) by lia. apply IH; lia.
Qed.

Lemma finished_Put_loop : forall n (nh : Hamt V) depth h30 k v newLeaf curTable path hashPath,
  0 <= depth -> (Z.to_nat (MAXDEPTH + 1 - depth) < n)%nat ->
  finished (Put_loop V GradeTables n nh depth h30 k v newLeaf curTable path hashPath)
  = true.
Proof.
  induction n as [|n IH]; intros nh depth h30 k v newLeaf curTable path hashPath Hd Hn; [lia|].
  cbn [Put_loop]. unfold MAXDEPTH in *.
  destruct (Z.leb_spec depth 5); [|reflexivity].
  apply finished_bind; [apply finished_table_get|]. intros [[oldLeaf|t]|].
  - destruct (_ =? _).
    + apply finished_bind; [destruct oldLeaf; reflexivity|]. intros _.
      destruct (leaf_put V oldLeaf k v) as [newLeaf' inserted].
      apply finished_bind; [apply finished_table_set|]. intros newTable.
      apply finished_bind; [apply finished_copyUp|reflexivity].
    + apply finished_bind.
      { apply finished_newCompressedTable2. rewrite (u64_small (depth + 1)) by lia. lia. }
      intros collisionTable.
      apply finished_bind; [apply finished_table_set|]. intros newTable.
      apply finished_bind; [apply finished_copyUp|reflexivity].
  - rewrite (u64_small (depth + 1)) by lia. apply IH; lia.
  - apply finished_bind; [apply finished_table_set|]. intros newTable.
    apply finished_bind; [apply finished_copyUp|reflexivity].
Qed.

Lemma finished_Del_loop : forall n (h : Hamt V) depth h30 k curTable path,
  0 <= depth -> (Z.to_nat (MAXDEPTH + 1 - depth) < n)%nat ->
  finished (Del_loop V GradeTables n h depth h30 k curTable path) = true.
Proof.
  induction n as [|n IH]; intros h depth h30 k curTable path Hd Hn; [lia|].
  cbn [Del_loop]. unfold MAXDEPTH in *.
  destruct (Z.leb_spec depth 5); [|reflexivity].
  apply finished_bind; [apply finished_table_get|]. intros [[oldLeaf|t]|]; [| |reflexivity].
  - destruct (negb _); [reflexivity|].
    destruct (leaf_del V oldLeaf k) as [[newLeaf val] deleted].
    apply finished_bind; [apply finished_table_set|]. intros newTable.
    apply finished_bind; [apply finished_copyUp|reflexivity].
  - rewrite (u64_small (depth + 1)) by lia. apply IH; lia.
Qed.

End WithValues.

(** C9: [Get], [Put] and [Del] come to an end on every map, for every key
    and value, whatever the tables hold: run with [loop_fuel], that is
    [MAXDEPTH + 2] tests of the loop condition (one table per level 0 to
    [MAXDEPTH], then the test that leaves the loop), none of them is stopped
    by the bound; [copyUp] recurses on the recorded path, and the loop of
    [newCompressedTable2] is bounded in the same way. *)
Theorem operations_terminate :
  forall (V : Type) (Hash30 : key -> Z) (GradeTables : bool) (h : Hamt V) (k : key) (v : V),
  loop_fuel = S (Z.to_nat (MAXDEPTH + 1))
  /\ finished (Get V Hash30 h k) = true
  /\ finished (Put V Hash30 GradeTables h k v) = true
  /\ finished (Del V Hash30 GradeTables h k) = true.
Proof.
  intros V Hash30 GradeTables h k v. split; [reflexivity|].
  assert (Hfuel : (Z.to_nat (MAXDEPTH + 1 - 0) < loop_fuel)%nat)
    by (unfold loop_fuel, MAXDEPTH; lia).
  split; [|split].
  - unfold Get. destruct (root h); [|reflexivity].
    apply finished_Get_loop; [lia|exact Hfuel].
  - unfold Put. destruct (root h); [|reflexivity].
    apply finished_Put_loop; [lia|exact Hfuel].
  - unfold Del. destruct (root h); [|reflexivity].
    apply finished_Del_loop; [lia|exact Hfuel].
Qed.

End Termination32.

(** * Package hamt32_functional: Put, Get and the size of the map *)
Module Variant32.
Import Hamt32 Prefix TrieFacts PutFacts.

(** A controlled hash for the examples: the first byte of the key. *)
Definition first_byte (k : key) : Z :=
  match k with
  | [] => 0
  | b :: _ => Z.of_N (Byte.to_N b)
  end.

Lemma first_byte_range : forall k, 0 <= first_byte k < 2 ^ 30.
Proof.
  intros [|b rest]; cbn [first_byte]; [lia|].
  pose proof (Byte.to_N_bounded b) as H.
  change (2 ^ 30) with 1073741824. lia.
Qed.

Definition key_1 : key := [Byte.x01].
Definition key_1' : key := [Byte.x01; Byte.x00].
Definition key_33 : key := [Byte.x21].

(** C1: a [Put] of a key that is the only key of the map panics in the type
    assertion of the log call (the leaf [Put] stored is a pointer), so there
    is no map to [Get] from: get after put fails for the map [EMPTY.Put(k, v)]
    and the same key, for every hash function and table policy. *)
Theorem Put32_again_panics :
  forall (V : Type) (Hash30 : key -> Z) (GradeTables : bool),
  (forall k, 0 <= Hash30 k < 2 ^ 30) ->
  forall (k : key) (v v' : V),
  exists m, Put V Hash30 GradeTables EMPTY k v = Ok (m, true)
            /\ Get V Hash30 m k = Ok (Some v)
            /\ Put V Hash30 GradeTables m k v' = Panic InterfaceConversion.
Proof.
  intros V Hash30 GradeTables Hrange k v v'.
  destruct (Put_same_hash_panics V Hash30 GradeTables Hrange k v k v' eq_refl)
    as (m & Hput & _ & _ & Hpanic).
  exists m. split; [exact Hput|]. split; [|exact Hpanic].
  pose proof (Put_spec V Hash30 GradeTables Hrange EMPTY k v I) as H.
  rewrite Hput in H. apply H.
Qed.

Lemma Put32_again_panics_witness :
  exists m, Put Z first_byte true EMPTY key_1 10 = Ok (m, true)
            /\ Get Z first_byte m key_1 = Ok (Some 10)
            /\ Put Z first_byte true m key_1 20 = Panic InterfaceConversion.
Proof. exact (Put32_again_panics Z first_byte true first_byte_range key_1 10 20). Defined.

(** C3: two distinct keys with the same hashcode put into the empty map: the
    second [Put] panics in the type assertion of the log call, so no
    collision leaf is built. *)
Theorem Put32_full_collision_panics :
  forall (V : Type) (Hash30 : key -> Z) (GradeTables : bool),
  (forall k, 0 <= Hash30 k < 2 ^ 30) ->
  forall (k1 k2 : key) (v1 v2 : V), k1 <> k2 -> Hash30 k1 = Hash30 k2 ->
  exists m, Put V Hash30 GradeTables EMPTY k1 v1 = Ok (m, true)
            /\ Put V Hash30 GradeTables m k2 v2 = Panic InterfaceConversion.
Proof.
  intros V Hash30 GradeTables Hrange k1 k2 v1 v2 _ Hh.
  destruct (Put_same_hash_panics V Hash30 GradeTables Hrange k1 v1 k2 v2 (eq_sym Hh))
    as (m & Hput & _ & _ & Hpanic).
  exists m. split; assumption.
Qed.

Lemma Put32_full_collision_panics_witness :
  first_byte key_1 = first_byte key_1'
  /\ exists m, Put Z first_byte true EMPTY key_1 10 = Ok (m, true)
               /\ Put Z first_byte true m key_1' 20 = Panic InterfaceConversion.
Proof.
  split; [reflexivity|].
  apply (Put32_full_collision_panics Z first_byte true first_byte_range key_1 key_1' 10 20).
  - discriminate.
  - reflexivity.
Defined.

(** C2: on a well-formed map, a [Put] that returns gives a well-formed map in
    which [Get] finds the value of the key, every other key reading what it
    read in the map [Put] was called on; [Put] fails to return only by the
    panic of the type assertion of its log call. *)
Theorem Put32_Get_frame :
  forall (V : Type) (Hash30 : key -> Z) (GradeTables : bool),
  (forall k, 0 <= Hash30 k < 2 ^ 30) ->
  forall (m1 : Hamt V) (k : key) (v : V), wf V m1 ->
  match Put V Hash30 GradeTables m1 k v with
  | Ok (m2, _) =>
      wf V m2 /\ Get V Hash30 m2 k = Ok (Some v)
      /\ forall k', k' <> k -> Get V Hash30 m2 k' = Get V Hash30 m1 k'
  | Panic p => p = InterfaceConversion
  | OutOfFuel => False
  end.
Proof.
  intros V Hash30 GradeTables Hrange m1 k v Hwf.
  apply Put_spec; assumption.
Qed.

Definition map_1 : Hamt Z :=
  mkHamt (Some (newCompressedTable Z 0 1 (NewFlatLeaf Z 1 key_1 10))) 1.

Lemma Put32_Get_frame_witness :
  Put Z first_byte true EMPTY key_1 10 = Ok (map_1, true)
  /\ wf Z map_1
  /\ exists m2 b,
       Put Z first_byte true map_1 key_33 20 = Ok (m2, b)
       /\ wf Z m2
       /\ Get Z first_byte m2 key_33 = Ok (Some 20)
       /\ Get Z first_byte m2 key_1 = Get Z first_byte map_1 key_1.
Proof.
  assert (E1 : Put Z first_byte true EMPTY key_1 10 = Ok (map_1, true)) by reflexivity.
  assert (Hwf : wf Z map_1).
  { pose proof (Put_spec Z first_byte true first_byte_range EMPTY key_1 10 I) as H.
    rewrite E1 in H. apply H. }
  split; [exact E1|]. split; [exact Hwf|].
  pose proof (Put32_Get_frame Z first_byte true first_byte_range map_1 key_33 20 Hwf) as H.
  destruct (Put Z first_byte true map_1 key_33 20) as [[m2 b]|p|] eqn:E2.
  - exists m2, b. destruct H as (Hwf2 & Hget & Hother).
    split; [reflexivity|]. split; [exact Hwf2|]. split; [exact Hget|].
    apply Hother. discriminate.
  - vm_compute in E2. discriminate E2.
  - contradiction.
Defined.

End Variant32.

(** * Bit utilities and keys *)
Module BitUtilities.

(** X1: [index] of package hamt32_functional returns the digit of the hash
    at the given depth in base 32: bits [5 * depth] to [5 * depth + 4], a
    slot number below 32. *)
Theorem index32_digit : forall h d, 0 <= d <= Hamt32.MAXDEPTH ->
  Hamt32.index h d = (h / 2 ^ (5 * d)) mod 32 /\ 0 <= Hamt32.index h d < 32.
Proof.
  intros h d Hd. unfold Hamt32.MAXDEPTH in Hd. split.
  - rewrite Bits32.index_spec by (unfold Hamt32.MAXDEPTH; lia).
    rewrite Z.shiftr_div_pow2 by lia. change 31 with (Z.ones 5).
    rewrite Z.land_ones by lia. reflexivity.
  - apply Bits32.index_range. unfold Hamt32.MAXDEPTH. lia.
Qed.

Lemma index32_digit_witness :
  Hamt32.index 1000 1 = (1000 / 2 ^ (5 * 1)) mod 32 /\ 0 <= Hamt32.index 1000 1 < 32.
Proof. apply (index32_digit 1000 1). unfold Hamt32.MAXDEPTH. lia. Defined.

(** X2: [buildHashPath] of package hamt32_functional extends the prefix of a
    hash by the index of the next level, and the six indices of a 30-bit
    hash put together from depth 0 to [MAXDEPTH] give the hash back. *)
Theorem buildHashPath32_rebuilds_hash : forall h, 0 <= h < 2 ^ 30 ->
  (forall d, 0 <= d <= Hamt32.MAXDEPTH ->
     Hamt32.buildHashPath (Z.land h (Hamt32.hashPathMask d)) (Hamt32.index h d) d
     = Z.land h (Hamt32.hashPathMask (d + 1)))
  /\ fold_left (fun p d => Hamt32.buildHashPath p (Hamt32.index h d) d) [0; 1; 2; 3; 4; 5] 0
     = h.
Proof.
  intros h Hh. split.
  - intros d Hd. unfold Hamt32.MAXDEPTH in Hd.
    rewrite !Prefix.hashPathMask_pre by lia. apply Prefix.buildHashPath_pre. lia.
  - pose proof (Prefix.buildHashPath_pre h 0 ltac:(lia)) as E0.
    pose proof (Prefix.buildHashPath_pre h 1 ltac:(lia)) as E1.
    pose proof (Prefix.buildHashPath_pre h 2 ltac:(lia)) as E2.
    pose proof (Prefix.buildHashPath_pre h 3 ltac:(lia)) as E3.
    pose proof (Prefix.buildHashPath_pre h 4 ltac:(lia)) as E4.
    pose proof (Prefix.buildHashPath_pre h 5 ltac:(lia)) as E5.
    rewrite Prefix.pre_0 in E0.
    change (0 + 1) with 1 in E0. change (1 + 1) with 2 in E1. change (2 + 1) with 3 in E2.
    change (3 + 1) with 4 in E3. change (4 + 1) with 5 in E4. change (5 + 1) with 6 in E5.
    cbn [fold_left]. rewrite E0, E1, E2, E3, E4, E5.
    apply Prefix.pre_full. exact Hh.
Qed.

Lemma buildHashPath32_rebuilds_hash_witness :
  fold_left (fun p d => Hamt32.buildHashPath p (Hamt32.index 123456789 d) d)
    [0; 1; 2; 3; 4; 5] 0 = 123456789.
Proof.
  apply (buildHashPath32_rebuilds_hash 123456789). change (2 ^ 30) with 1073741824. lia.
Defined.

Lemma idxMask64_spec : forall d, 0 <= d <= 9 -> Hamt64.idxMask d = Z.shiftl 63 (6 * d).
Proof.
  intros d Hd. unfold Hamt64.idxMask, Hamt64.NBITS.
  change (Go.u8 (Go.u8 (Z.shiftl 1 6) - 1)) with 63.
  rewrite (GoFacts.u64_small (d * 6)) by lia.
  replace (d * 6) with (6 * d) by lia.
  unfold Go.shl64. apply GoFacts.u64_small. rewrite Z.shiftl_mul_pow2 by lia.
  assert (0 < 2 ^ (6 * d)) by (apply Z.pow_pos_nonneg; lia).
  assert (2 ^ (6 * d) <= 2 ^ 54) by (apply Z.pow_le_mono_r; lia).
  change (2 ^ 54) with 18014398509481984 in *.
  change (2 ^ 64) with 18446744073709551616. lia.
Qed.

Lemma index64_spec : forall hash depth, 0 <= depth <= Hamt64.MAXDEPTH ->
  Hamt64.index hash depth = (hash / 2 ^ (6 * depth)) mod 64.
Proof.
  intros hash depth Hd. unfold Hamt64.MAXDEPTH in Hd.
  unfold Hamt64.index. rewrite idxMask64_spec by lia. unfold Hamt64.NBITS.
  rewrite (GoFacts.u64_small (depth * 6)) by lia.
  replace (depth * 6) with (6 * depth) by lia.
  rewrite Z.shiftr_land, Z.shiftr_shiftl_l by lia.
  replace (6 * depth - 6 * depth) with 0 by lia. rewrite Z.shiftl_0_r.
  rewrite Z.shiftr_div_pow2 by lia. change 63 with (Z.ones 6).
  rewrite Z.land_ones by lia. reflexivity.
Qed.

Lemma index64_range : forall hash depth, 0 <= depth <= Hamt64.MAXDEPTH ->
  0 <= Hamt64.index hash depth < 64.
Proof.
  intros hash depth Hd. rewrite index64_spec by exact Hd. apply Z.mod_pos_bound. lia.
Qed.

(** X3: [index] of package hamt returns the digit of the hash at the given
    depth in base 64: bits [6 * depth] to [6 * depth + 5], a slot number
    below 64. *)
Theorem index64_digit : forall hash depth, 0 <= depth <= Hamt64.MAXDEPTH ->
  Hamt64.index hash depth = (hash / 2 ^ (6 * depth)) mod 64
  /\ 0 <= Hamt64.index hash depth < 64.
Proof.
  intros hash depth Hd. split; [apply index64_spec|apply index64_range]; exact Hd.
Qed.

Lemma index64_digit_witness :
  Hamt64.index 100000 2 = (100000 / 2 ^ (6 * 2)) mod 64
  /\ 0 <= Hamt64.index 100000 2 < 64.
Proof. apply (index64_digit 100000 2). unfold Hamt64.MAXDEPTH. lia. Defined.

(** X4: [byteSlicesEqual] answers true exactly for equal byte slices (the
    empty slice included, slices of different lengths excluded). *)
Theorem byteSlicesEqual_decides_equality : forall k1 k2 : key,
  byteSlicesEqual k1 k2 = true <-> k1 = k2.
Proof. intros k1 k2. apply byteSlicesEqual_spec. Qed.

End BitUtilities.

(** * Leaves of package hamt: put, get and del together *)
Module LeafProperties.
Import Hamt64.

Section WithValues.

Variable V : Type.

(** The keys a leaf holds, in the order of its entries. *)
Definition leaf_keys (l : leafI V) : list key :=
  match l with
  | Leaves.FlatVal f | Leaves.FlatPtr f => [Leaves.fl_key f]
  | Leaves.CollisionPtr c => map (@Leaves.kv_key V) (Leaves.cl_kvs c)
  end.

(** No key twice in a leaf. *)
Definition distinct_keys (l : leafI V) : Prop := NoDup (leaf_keys l).

Lemma kvs_get_none : forall (kvs : list (Leaves.keyVal V)) k,
  Leaves.kvs_get kvs k = None <-> ~ In k (map (@Leaves.kv_key V) kvs).
Proof.
  induction kvs as [|kv rest IH]; intros k; cbn [Leaves.kvs_get map In].
  - split; auto.
  - destruct (byteSlicesEqual (Leaves.kv_key kv) k) eqn:E.
    + apply byteSlicesEqual_spec in E. split; [discriminate|]. intros H. exfalso. auto.
    + rewrite IH. split.
      * intros H [Hc|Hc]; [|auto]. subst k. rewrite byteSlicesEqual_refl in E. discriminate.
      * intros H Hc. apply H. auto.
Qed.

Lemma kvs_replace_keys : forall (kvs : list (Leaves.keyVal V)) k v kvs',
  Leaves.kvs_replace kvs k v = Some kvs' ->
  map (@Leaves.kv_key V) kvs' = map (@Leaves.kv_key V) kvs.
Proof.
  induction kvs as [|kv rest IH]; intros k v kvs' H; cbn [Leaves.kvs_replace] in H;
    [discriminate|].
  destruct (byteSlicesEqual (Leaves.kv_key kv) k).
  - injection H as <-. reflexivity.
  - destruct (Leaves.kvs_replace rest k v) as [rest'|] eqn:Er; [|discriminate].
    injection H as <-. cbn [map]. f_equal. eapply IH. eassumption.
Qed.

Lemma kvs_replace_some : forall (kvs : list (Leaves.keyVal V)) k v,
  Leaves.kvs_replace kvs k v <> None <-> Leaves.kvs_get kvs k <> None.
Proof.
  induction kvs as [|kv rest IH]; intros k v; cbn [Leaves.kvs_replace Leaves.kvs_get].
  - split; auto.
  - destruct (byteSlicesEqual (Leaves.kv_key kv) k); [split; discriminate|].
    rewrite <- (IH k v). destruct (Leaves.kvs_replace rest k v); split; congruence.
Qed.

Lemma NoDup_snoc : forall (l : list key) k, NoDup l -> ~ In k l -> NoDup (l ++ [k]).
Proof.
  induction l as [|a l IH]; intros k Hnd Hin; cbn [app].
  - constructor; [auto|constructor].
  - inversion Hnd as [|a' l' Ha Hl]; subst. constructor.
    + rewrite in_app_iff. intros [H|[H|[]]]; [auto|]. subst. apply Hin. left. reflexivity.
    + apply IH; [assumption|]. intros H. apply Hin. right. assumption.
Qed.

(** The loop of collisionLeaf.del on a leaf without repeated keys: the
    entries of the other keys are kept in order, the value and the flag are
    those of the entry found. *)
Lemma kvs_del_spec : forall (kvs : list (Leaves.keyVal V)) k nl retVal removed,
  NoDup (map (@Leaves.kv_key V) kvs) ->
  Leaves.kvs_del kvs k nl retVal removed
  = (nl ++ filter (fun kv => negb (byteSlicesEqual k (Leaves.kv_key kv))) kvs,
     match Leaves.kvs_get kvs k with Some v => Some v | None => retVal end,
     match Leaves.kvs_get kvs k with Some _ => true | None => removed end).
Proof.
  induction kvs as [|kv rest IH]; intros k nl retVal removed Hnd;
    cbn [Leaves.kvs_del Leaves.kvs_get filter map] in *.
  - rewrite app_nil_r. reflexivity.
  - inversion Hnd as [|a l Ha Hl]; subst.
    rewrite (byteSlicesEqual_sym k (Leaves.kv_key kv)).
    destruct (byteSlicesEqual (Leaves.kv_key kv) k) eqn:E; cbn [negb].
    + apply byteSlicesEqual_spec in E. subst k.
      rewrite IH by assumption.
      rewrite (proj2 (kvs_get_none rest (Leaves.kv_key kv)) Ha). reflexivity.
    + rewrite IH by assumption. rewrite <- app_assoc. reflexivity.
Qed.

Lemma kvs_get_filter_same : forall (kvs : list (Leaves.keyVal V)) k,
  Leaves.kvs_get (filter (fun kv => negb (byteSlicesEqual k (Leaves.kv_key kv))) kvs) k = None.
Proof.
  induction kvs as [|kv rest IH]; intros k; cbn [filter]; [reflexivity|].
  destruct (byteSlicesEqual k (Leaves.kv_key kv)) eqn:E; cbn [negb]; [apply IH|].
  cbn [Leaves.kvs_get]. rewrite byteSlicesEqual_sym, E. apply IH.
Qed.

Lemma kvs_get_filter_other : forall (kvs : list (Leaves.keyVal V)) k k', k' <> k ->
  Leaves.kvs_get (filter (fun kv => negb (byteSlicesEqual k (Leaves.kv_key kv))) kvs) k'
  = Leaves.kvs_get kvs k'.
Proof.
  induction kvs as [|kv rest IH]; intros k k' Hne; cbn [filter]; [reflexivity|].
  destruct (byteSlicesEqual k (Leaves.kv_key kv)) eqn:E; cbn [negb Leaves.kvs_get].
  - apply byteSlicesEqual_spec in E. subst k.
    rewrite (byteSlicesEqual_neq (Leaves.kv_key kv) k') by congruence. apply IH. assumption.
  - destruct (byteSlicesEqual (Leaves.kv_key kv) k'); [reflexivity|]. apply IH. assumption.
Qed.

Lemma NoDup_filter_keys : forall (kvs : list (Leaves.keyVal V)) (p : Leaves.keyVal V -> bool),
  NoDup (map (@Leaves.kv_key V) kvs) -> NoDup (map (@Leaves.kv_key V) (filter p kvs)).
Proof.
  induction kvs as [|kv rest IH]; intros p Hnd; cbn [filter map] in *; [constructor|].
  inversion Hnd as [|a l Ha Hl]; subst. destruct (p kv); cbn [map].
  - constructor; [|apply IH; assumption].
    intros Hin. apply Ha. apply in_map_iff in Hin. destruct Hin as (x & Hx & Hf).
    apply filter_In in Hf. apply in_map_iff. exists x. tauto.
  - apply IH. assumption.
Qed.

(** collisionLeaf.del on a leaf that does not have exactly two entries. *)
Lemma collisionLeaf_del_general : forall h (kvs : list (Leaves.keyVal V)) k mask newIsPtr,
  NoDup (map (@Leaves.kv_key V) kvs) -> length kvs <> 2%nat ->
  Leaves.collisionLeaf_del V mask newIsPtr (Leaves.mkCollisionLeaf h kvs) k
  = (Some (Leaves.CollisionPtr
             (Leaves.mkCollisionLeaf h
                (filter (fun kv => negb (byteSlicesEqual k (Leaves.kv_key kv))) kvs))),
     Leaves.kvs_get kvs k,
     match Leaves.kvs_get kvs k with Some _ => true | None => false end).
Proof.
  intros h kvs k mask newIsPtr Hnd Hlen. unfold Leaves.collisionLeaf_del.
  cbn [Leaves.cl_kvs Leaves.cl_hash].
  destruct kvs as [|kv0 [|kv1 [|kv2 rest]]]; cbv iota beta;
    try (rewrite (kvs_del_spec _ k [] None false Hnd); cbn [app];
         destruct (Leaves.kvs_get _ k); reflexivity).
  exfalso. apply Hlen. reflexivity.
Qed.

End WithValues.

(** X5: reading a leaf after [put]: the key just put is found with the new
    value, whatever the leaf held, and every other key reads what it read
    before. *)
Theorem leaf_put_then_get : forall (V : Type) (l : leafI V) (k : key) (v : V),
  Leaves.get (fst (leaf_put V l k v)) k = Some v
  /\ forall k', k' <> k -> Leaves.get (fst (leaf_put V l k v)) k' = Leaves.get l k'.
Proof.
  intros V l k v. split.
  - apply LeafFacts.get_put_same.
  - intros k' Hne. apply LeafFacts.get_put_other. exact Hne.
Qed.

(** X6: the flag [put] returns is true exactly when the leaf already held
    the key (a replacement); a leaf without repeated keys stays so, a flat
    leaf put with another key becoming a collision leaf of the two
    entries. *)
Theorem leaf_put_flag_and_keys : forall (V : Type) (l : leafI V) (k : key) (v : V),
  snd (leaf_put V l k v) = (match Leaves.get l k with Some _ => true | None => false end)
  /\ leaf_keys V (fst (leaf_put V l k v))
     = (if snd (leaf_put V l k v) then leaf_keys V l else leaf_keys V l ++ [k])
  /\ (distinct_keys V l -> distinct_keys V (fst (leaf_put V l k v))).
Proof.
  intros V l k v.
  assert (H12 : snd (leaf_put V l k v)
                = (match Leaves.get l k with Some _ => true | None => false end)
                /\ leaf_keys V (fst (leaf_put V l k v))
                   = (if snd (leaf_put V l k v) then leaf_keys V l else leaf_keys V l ++ [k])).
  { destruct l as [f|f|c]; unfold leaf_put; cbn [Leaves.put Leaves.get].
    1,2: unfold Leaves.flatLeaf_put, Leaves.flatLeaf_get;
         destruct (byteSlicesEqual (Leaves.fl_key f) k) eqn:E; cbn [fst snd];
         [apply byteSlicesEqual_spec in E; subst k; split; reflexivity
         |split; reflexivity].
    unfold Leaves.collisionLeaf_put.
    destruct (Leaves.kvs_replace (Leaves.cl_kvs c) k v) as [kvs'|] eqn:E; cbn [fst snd].
    - assert (Hg : Leaves.kvs_get (Leaves.cl_kvs c) k <> None)
        by (apply (kvs_replace_some V _ k v); congruence).
      destruct (Leaves.kvs_get (Leaves.cl_kvs c) k); [|congruence].
      split; [reflexivity|]. cbn [leaf_keys Leaves.cl_kvs].
      apply (kvs_replace_keys V _ k v). exact E.
    - rewrite (LeafFacts.kvs_replace_none V _ k v E). split; [reflexivity|].
      cbn [leaf_keys Leaves.cl_kvs]. apply map_app. }
  destruct H12 as [H1 H2]. split; [exact H1|]. split; [exact H2|].
  unfold distinct_keys. intros Hnd. rewrite H2, H1.
  destruct (Leaves.get l k) eqn:Hg; [exact Hnd|].
  apply NoDup_snoc; [exact Hnd|].
  destruct l as [f|f|c]; cbn [leaf_keys Leaves.get] in *.
  1,2: unfold Leaves.flatLeaf_get in Hg;
       destruct (byteSlicesEqual (Leaves.fl_key f) k) eqn:E; [discriminate|];
       intros [Hc|[]]; subst k; rewrite byteSlicesEqual_refl in E; discriminate.
  apply kvs_get_none. exact Hg.
Qed.

(** X7: [del] on a leaf without repeated keys returns the value [get] finds
    for the key and reports deleted exactly when [get] finds it; a leaf that
    is returned no longer holds the key, holds no key twice, and reads every
    other key as before. *)
Theorem leaf_del_reports_get : forall (V : Type) (l : leafI V) (k : key),
  distinct_keys V l ->
  snd (fst (leaf_del V l k)) = Leaves.get l k
  /\ snd (leaf_del V l k) = (match Leaves.get l k with Some _ => true | None => false end)
  /\ forall l', fst (fst (leaf_del V l k)) = Some l' ->
       Leaves.get l' k = None /\ distinct_keys V l'
       /\ forall k', k' <> k -> Leaves.get l' k' = Leaves.get l k'.
Proof.
  intros V l k Hnd. unfold distinct_keys in Hnd.
  destruct l as [f|f|c]; unfold leaf_del; cbn [Leaves.del Leaves.get leaf_keys] in *.
  1,2: unfold Leaves.flatLeaf_del, Leaves.flatLeaf_get;
       destruct (byteSlicesEqual (Leaves.fl_key f) k); cbn [fst snd];
       (split; [reflexivity|]); (split; [reflexivity|]); intros l' Hl'; discriminate.
  destruct c as [h kvs]. cbn [Leaves.cl_kvs Leaves.cl_hash] in *.
  destruct (Nat.eq_dec (length kvs) 2) as [Hlen|Hlen].
  2:{ rewrite (collisionLeaf_del_general V h kvs k sixtyBitMask false Hnd Hlen).
      cbn [fst snd]. split; [reflexivity|]. split; [reflexivity|].
      intros l' Hl'. injection Hl' as <-. cbn [Leaves.get Leaves.cl_kvs].
      split; [apply kvs_get_filter_same|]. split.
      - unfold distinct_keys. cbn [leaf_keys Leaves.cl_kvs]. apply NoDup_filter_keys.
        exact Hnd.
      - intros k' Hne. apply kvs_get_filter_other. exact Hne. }
  destruct kvs as [|kv0 [|kv1 [|kv2 rest]]]; try discriminate Hlen.
  unfold Leaves.collisionLeaf_del. cbn [Leaves.cl_kvs Leaves.cl_hash].
cbn [map] in Hnd. cbn [Leaves.kvs_get].
  assert (Hne01 : Leaves.kv_key kv0 <> Leaves.kv_key kv1).
  { inversion Hnd as [|a l0 Ha Hl]; subst. intros Hc. apply Ha. left. auto. }
  rewrite (byteSlicesEqual_sym k (Leaves.kv_key kv0)).
  rewrite (byteSlicesEqual_sym k (Leaves.kv_key kv1)).
  destruct (byteSlicesEqual (Leaves.kv_key kv0) k) eqn:E0.
  - apply byteSlicesEqual_spec in E0. subst k. cbn [fst snd].
    split; [reflexivity|]. split; [reflexivity|].
    intros l' Hl'. injection Hl' as <-. unfold Leaves.NewFlatLeaf.
    cbn [Leaves.get]. unfold Leaves.flatLeaf_get. cbn [Leaves.fl_key Leaves.fl_val].
    rewrite (byteSlicesEqual_neq (Leaves.kv_key kv1) (Leaves.kv_key kv0)) by congruence.
    split; [reflexivity|]. split.
    + unfold distinct_keys. cbn [leaf_keys Leaves.fl_key]. constructor; [auto|constructor].
    + intros k' Hne. rewrite (byteSlicesEqual_neq (Leaves.kv_key kv0) k') by congruence.
      destruct (byteSlicesEqual (Leaves.kv_key kv1) k'); reflexivity.
  - destruct (byteSlicesEqual (Leaves.kv_key kv1) k) eqn:E1.
    + apply byteSlicesEqual_spec in E1. subst k. cbn [fst snd].
      split; [reflexivity|]. split; [reflexivity|].
      intros l' Hl'. injection Hl' as <-. unfold Leaves.NewFlatLeaf.
      cbn [Leaves.get]. unfold Leaves.flatLeaf_get. cbn [Leaves.fl_key Leaves.fl_val].
      rewrite E0. split; [reflexivity|]. split.
      * unfold distinct_keys. cbn [leaf_keys Leaves.fl_key]. constructor; [auto|constructor].
      * intros k' Hne. rewrite (byteSlicesEqual_neq (Leaves.kv_key kv1) k') by congruence.
        destruct (byteSlicesEqual (Leaves.kv_key kv0) k'); reflexivity.
    + cbn [fst snd]. split; [reflexivity|]. split; [reflexivity|].
      intros l' Hl'. discriminate.
Qed.

Lemma leaf_del_reports_get_witness :
  let l := Leaves.CollisionPtr
             (Leaves.mkCollisionLeaf 7 [Leaves.mkKeyVal [Byte.x61] 1; Leaves.mkKeyVal [Byte.x62] 2])
  in distinct_keys Z l
     /\ leaf_del Z l [Byte.x61]
        = (Some (Leaves.FlatVal (Leaves.mkFlatLeaf 7 [Byte.x62] 2)), Some 1, true)
     /\ snd (fst (leaf_del Z l [Byte.x61])) = Leaves.get l [Byte.x61].
Proof.
  assert (Hd : distinct_keys Z
                 (Leaves.CollisionPtr
                    (Leaves.mkCollisionLeaf 7
                       [Leaves.mkKeyVal [Byte.x61] 1; Leaves.mkKeyVal [Byte.x62] 2]))).
  { unfold distinct_keys. cbn. constructor.
    - intros [H|[]]. discriminate.
    - constructor; [auto|constructor]. }
  split; [exact Hd|]. split; [reflexivity|].
  exact (proj1 (leaf_del_reports_get Z _ [Byte.x61] Hd)).
Defined.

End LeafProperties.

(** * The sparse table of package hamt32: entries, set and get together *)
Module SparseProperties.
Import Hamt32 Popcount CompressedFacts EntryFacts FullFacts TableFacts.

Section WithValues.

Variable V : Type.

Lemma slots_entries_In : forall (lookup : Z -> option (node V)) n a i nd,
  In (i, nd) (slots_entries V lookup a n) <-> a <= i < a + Z.of_nat n /\ lookup i = Some nd.
Proof.
  intros lookup n. induction n as [|n IH]; intros a i nd; cbn [slots_entries].
  - cbn [In]. split; [tauto|]. intros [H _]. lia.
  - destruct (lookup a) as [nd0|] eqn:E; cbn [In]; rewrite ?IH.
    + split.
      * intros [H|[H1 H2]]; [injection H as <- <-; split; [lia|assumption]|split; [lia|assumption]].
      * intros [H1 H2]. destruct (Z.eq_dec i a) as [->|Hne].
        -- left. congruence.
        -- right. split; [lia|assumption].
    + split.
      * intros [H1 H2]. split; [lia|assumption].
      * intros [H1 H2]. split; [|assumption].
        destruct (Z.eq_dec i a) as [->|Hne]; [congruence|lia].
Qed.

Lemma slots_entries_sorted : forall (lookup : Z -> option (node V)) n a,
  StronglySorted (fun e1 e2 : tableEntry V => fst e1 < fst e2) (slots_entries V lookup a n).
Proof.
  intros lookup n. induction n as [|n IH]; intros a; cbn [slots_entries]; [constructor|].
  destruct (lookup a) as [nd0|]; [|apply IH].
  constructor; [apply IH|]. apply Forall_forall. intros [i nd] Hin.
  apply slots_entries_In in Hin. cbn [fst]. lia.
Qed.

Lemma skipn_nth : forall (A : Type) (l : list A) r x,
  nth_error l r = Some x -> skipn r l = x :: skipn (S r) l.
Proof.
  intros A l. induction l as [|a l IH]; intros [|r] x H; cbn in *; try discriminate.
  - congruence.
  - apply IH. assumption.
Qed.

(** The children of the slots [i] to [i + n - 1] are a segment of the
    children sequence. *)
Lemma slots_entries_nodes : forall nodeMap (nodes : list (node V)) n i,
  ct_ok V nodeMap nodes -> 0 <= i -> i + Z.of_nat n <= 32 ->
  map snd (slots_entries V (ct_lookup V nodeMap nodes) i n)
  = firstn (Z.to_nat (rank nodeMap (i + Z.of_nat n) - rank nodeMap i))
      (skipn (Z.to_nat (rank nodeMap i)) nodes).
Proof.
  intros nodeMap nodes n. induction n as [|n IH]; intros i Hok Hi Hn.
  - cbn [slots_entries map]. rewrite Z.add_0_r, Z.sub_diag. reflexivity.
  - cbn [slots_entries].
    replace (i + Z.of_nat (S n)) with (i + 1 + Z.of_nat n) by lia.
    pose proof (rank_succ nodeMap i Hi) as Hs.
    pose proof (rank_bounds nodeMap i Hi) as Hb.
    pose proof (rank_mono nodeMap (i + 1) (i + 1 + Z.of_nat n) ltac:(lia)) as Hm.
    destruct (Z.testbit nodeMap i) eqn:Hbit.
    + destruct (ct_lookup_set V nodeMap nodes i Hok ltac:(lia) Hbit) as [nd Hnd].
      rewrite Hnd. cbn [map snd]. rewrite IH by (try assumption; lia).
      unfold ct_lookup in Hnd. rewrite Hbit in Hnd.
      rewrite (skipn_nth _ nodes _ nd Hnd).
      replace (Z.to_nat (rank nodeMap (i + 1 + Z.of_nat n) - rank nodeMap i))
        with (S (Z.to_nat (rank nodeMap (i + 1 + Z.of_nat n) - rank nodeMap (i + 1)))) by lia.
      cbn [firstn]. do 3 f_equal. lia.
    + assert (E : ct_lookup V nodeMap nodes i = None)
        by (unfold ct_lookup; rewrite Hbit; reflexivity).
      rewrite E. rewrite IH by (try assumption; lia).
      rewrite Hs. rewrite Z.add_0_r. reflexivity.
Qed.

End WithValues.

(** X8: [entries] of a sparse table laid out with as many children as the
    bitmap has bits returns one pair per occupied slot, in ascending slot
    order, each slot with the child [get] returns for it. *)
Theorem compressed_entries_ascending :
  forall (V : Type) (nodeMap : Z) (nodes : list (node V)),
  ct_ok V nodeMap nodes ->
  exists ents,
    compressed_entries V nodeMap nodes = Ok ents
    /\ Z.of_nat (length ents) = bitCount32 nodeMap
    /\ StronglySorted (fun e1 e2 : tableEntry V => fst e1 < fst e2) ents
    /\ forall i nd, In (i, nd) ents
                    <-> 0 <= i < 32 /\ compressed_get V nodeMap nodes i = Ok (Some nd).
Proof.
  intros V nodeMap nodes Hok. eexists. split; [apply compressed_entries_spec; exact Hok|].
  split; [|split].
  - rewrite bitCount32_rank, <- (Z.sub_0_r (rank nodeMap 32)), <- (rank_zero nodeMap).
    apply (length_slots_entries V _ nodeMap 32 0); [lia|].
    intros k Hk. apply (lookup_bit V (compressedTable 0 nodeMap nodes) k Hok). lia.
  - apply slots_entries_sorted.
  - intros i nd. rewrite slots_entries_In. split.
    + intros [Hi Hl]. split; [lia|]. rewrite compressed_get_lookup by (try assumption; lia).
      rewrite Hl. reflexivity.
    + intros [Hi Hg]. split; [lia|]. rewrite compressed_get_lookup in Hg by assumption.
      congruence.
Qed.

Definition three_children : list (node Z) :=
  [SparseTable.sample_leaf 0 10; SparseTable.sample_leaf 2 20; SparseTable.sample_leaf 7 30].

Lemma compressed_entries_ascending_witness :
  ct_ok Z 133 three_children
  /\ exists ents,
       compressed_entries Z 133 three_children = Ok ents
       /\ Z.of_nat (length ents) = bitCount32 133
       /\ StronglySorted (fun e1 e2 : tableEntry Z => fst e1 < fst e2) ents
       /\ forall i nd, In (i, nd) ents
                       <-> 0 <= i < 32 /\ compressed_get Z 133 three_children i = Ok (Some nd).
Proof.
  assert (Hok : ct_ok Z 133 three_children) by (split; [lia|reflexivity]).
  split; [exact Hok|]. exact (compressed_entries_ascending Z 133 three_children Hok).
Defined.

(** X9: [downgradeToCompressedTable] applied to the [entries] of a
    well-laid-out sparse table gives the table back: the same bitmap and the
    same children sequence. *)
Theorem downgrade_of_entries :
  forall (V : Type) (hashPath nodeMap : Z) (nodes : list (node V)),
  ct_ok V nodeMap nodes ->
  exists ents,
    compressed_entries V nodeMap nodes = Ok ents
    /\ downgradeToCompressedTable V hashPath ents = compressedTable hashPath nodeMap nodes.
Proof.
  intros V hashPath nodeMap nodes Hok.
  eexists. split; [apply compressed_entries_spec; exact Hok|].
  rewrite downgradeToCompressedTable_eq. f_equal.
  - destruct (bitmap_of_all V (ct_lookup V nodeMap nodes)) as [Hr Hb].
    apply Z.bits_inj'. intros k Hk. destruct (Z.ltb_spec k 32).
    + rewrite Hb by lia. symmetry.
      apply (lookup_bit V (compressedTable 0 nodeMap nodes) k Hok). lia.
    + rewrite !bitmap_high by (try lia; try assumption; apply Hok). reflexivity.
  - rewrite (slots_entries_nodes V nodeMap nodes 32 0 Hok) by lia.
    rewrite rank_zero. cbn [Z.to_nat skipn]. rewrite Z.add_0_l, Z.sub_0_r.
    change (Z.of_nat 32) with 32. rewrite <- bitCount32_rank.
    destruct Hok as [_ Hlen]. rewrite <- Hlen, Nat2Z.id. apply firstn_all.
Qed.

Lemma downgrade_of_entries_witness :
  exists ents,
    compressed_entries Z 133 three_children = Ok ents
    /\ downgradeToCompressedTable Z 5 ents = compressedTable 5 133 three_children.
Proof.
  apply (downgrade_of_entries Z 5 133 three_children). split; [lia|reflexivity].
Defined.

End SparseProperties.

(** * The sparse table of package hamt32: set, and the tables built for leaves *)
Module SparseBuilders.
Import Hamt32 Bits32 Popcount CompressedFacts EntryFacts FullFacts TableFacts Prefix TrieFacts.
Import PutFacts.

Section WithValues.

Variable V : Type.

Lemma only_bit : forall m i, 0 <= m < 2 ^ 32 -> 0 <= i < 32 ->
  Z.testbit m i = true -> Z.ldiff m (2 ^ i) = 0 -> m = 2 ^ i.
Proof.
  intros m i Hm Hi Hb H0. apply Z.bits_inj'. intros j Hj.
  rewrite testbit_pow2 by lia. destruct (Z.eqb_spec j i) as [->|Hne]; [exact Hb|].
  apply (ldiff_zero_others m i j); (lia || assumption).
Qed.

Lemma ldiff_nonzero : forall m i, 0 <= i -> Z.ldiff m (2 ^ i) <> 0 -> m <> 0.
Proof. intros m i Hi H Hc. apply H. rewrite Hc. apply Z.ldiff_0_l. Qed.

End WithValues.

(** X10: [set] on a well-laid-out sparse table, in the cases that do not
    promote it (a child stored over an occupied slot, a child removed, nil
    stored in an empty slot, or an insertion that leaves the occupancy below
    [TABLE_CAPACITY/2]): the result is nil exactly when the only child was
    removed; otherwise it is a well-laid-out sparse table with the same hash
    path in which [get] returns the stored node for the slot and what it
    returned before for every other slot, and which is not empty unless the
    table was. *)
Theorem compressed_set_then_get :
  forall (V : Type) (hashPath nodeMap : Z) (nodes : list (node V)) (i : Z)
         (nn : option (node V)),
  ct_ok V nodeMap nodes -> 0 <= i < 32 ->
  nn = None \/ Z.testbit nodeMap i = true \/ bitCount32 nodeMap + 1 < TABLE_CAPACITY / 2 ->
  (exists nodeMap' nodes',
     compressed_set V hashPath nodeMap nodes i nn
     = Ok (Some (compressedTable hashPath nodeMap' nodes'))
     /\ ct_ok V nodeMap' nodes'
     /\ (nodeMap <> 0 -> nodeMap' <> 0)
     /\ forall j, 0 <= j < 32 ->
          compressed_get V nodeMap' nodes' j
          = if j =? i then Ok nn else compressed_get V nodeMap nodes j)
  \/ (compressed_set V hashPath nodeMap nodes i nn = Ok None
      /\ nn = None /\ nodeMap = 2 ^ i).
Proof.
  intros V hashPath nodeMap nodes i nn Hok Hi Hcase.
  assert (Hget : forall m ns, ct_ok V m ns ->
            (forall j, 0 <= j < 32 ->
               ct_lookup V m ns j = if j =? i then nn else ct_lookup V nodeMap nodes j) ->
            forall j, 0 <= j < 32 ->
              compressed_get V m ns j = if j =? i then Ok nn else compressed_get V nodeMap nodes j).
  { intros m ns Hok' Hl j Hj. rewrite !compressed_get_lookup by assumption.
    rewrite Hl by assumption. destruct (j =? i); reflexivity. }
  unfold compressed_set.
  rewrite GoFacts.shl32_one by assumption.
  replace (Go.u32 (2 ^ i - 1)) with (Go.u32 (Go.shl32 1 i - 1))
    by (rewrite GoFacts.shl32_one by assumption; reflexivity).
  rewrite bitCount32_below by assumption.
  rewrite land_pow2_eq0, land_pow2_pos by lia.
  change (TABLE_CAPACITY / 2) with 16 in *.
  destruct nn as [nd|]; destruct (Z.testbit nodeMap i) eqn:Hb; cbn [negb].
  - (* a child over an occupied slot *)
    pose proof (ct_ok_rank_lt V nodeMap nodes i Hok Hi Hb).
    rewrite SliceFacts.store_slice_ok by lia. cbn [Go.bind].
    left. do 2 eexists. split; [reflexivity|].
    split; [apply ct_store_ok; assumption|]. split; [auto|].
    apply Hget; [apply ct_store_ok; assumption|].
    intros j Hj. apply ct_store_lookup; assumption.
  - (* an insertion below the threshold *)
    destruct Hcase as [Hc|[Hc|Hc]]; [discriminate|discriminate|].
    pose proof (ct_ok_rank_le V nodeMap nodes i Hok ltac:(lia)).
    rewrite SliceFacts.insert_slice_ok by lia. cbn [Go.bind].
    rewrite bitCount32_set, Hb by assumption.
    destruct (Z.leb_spec 16 (bitCount32 nodeMap + 1)); [lia|].
    left. do 2 eexists. split; [reflexivity|].
    split; [apply ct_insert_ok; assumption|]. split.
    + intros _ Hc'. apply Z.lor_eq_0_iff in Hc'. destruct Hc' as [_ Hc'].
      revert Hc'. apply Z.pow_nonzero; lia.
    + apply Hget; [apply ct_insert_ok; assumption|].
      intros j Hj. apply ct_insert_lookup; assumption.
  - (* a child removed *)
    pose proof (ct_ok_rank_lt V nodeMap nodes i Hok Hi Hb).
    rewrite SliceFacts.remove_slice_ok by lia. cbn [Go.bind]. unfold Go.andnot.
    destruct (Z.eqb_spec (Z.ldiff nodeMap (2 ^ i)) 0) as [E0|Hne].
    + right. split; [reflexivity|]. split; [reflexivity|].
      apply only_bit; (assumption || apply Hok).
    + left. do 2 eexists. split; [reflexivity|].
      split; [apply ct_remove_ok; assumption|]. split; [auto|].
      apply Hget; [apply ct_remove_ok; assumption|].
      intros j Hj. apply ct_remove_lookup; assumption.
  - (* nil into an empty slot: the table itself *)
    left. do 2 eexists. split; [reflexivity|]. split; [exact Hok|]. split; [auto|].
    apply Hget; [exact Hok|]. intros j Hj.
    destruct (Z.eqb_spec j i) as [->|]; [|reflexivity].
    unfold ct_lookup. rewrite Hb. reflexivity.
Qed.

Lemma compressed_set_then_get_witness :
  compressed_set Z 0 133 SparseProperties.three_children 2 None
  = Ok (Some (compressedTable 0 129
                [SparseTable.sample_leaf 0 10; SparseTable.sample_leaf 7 30]))
  /\ ((exists nodeMap' nodes',
         compressed_set Z 0 133 SparseProperties.three_children 2 None
         = Ok (Some (compressedTable 0 nodeMap' nodes'))
         /\ ct_ok Z nodeMap' nodes'
         /\ (133 <> 0 -> nodeMap' <> 0)
         /\ forall j, 0 <= j < 32 ->
              compressed_get Z nodeMap' nodes' j
              = if j =? 2 then Ok None
                else compressed_get Z 133 SparseProperties.three_children j)
      \/ (compressed_set Z 0 133 SparseProperties.three_children 2 None = Ok None
          /\ @None (node Z) = None /\ 133 = 2 ^ 2)).
Proof.
  split; [reflexivity|].
  apply (compressed_set_then_get Z 0 133 SparseProperties.three_children 2 None).
  - split; [lia|reflexivity].
  - lia.
  - left. reflexivity.
Defined.

(** X11: [newCompressedTable] builds a well-laid-out table of one child: the
    hash path is the prefix of the given hash at the depth, [get] returns the
    leaf for the slot [index(hashPath, depth)] and nil for every other slot. *)
Theorem newCompressedTable_single_child :
  forall (V : Type) (depth hashPath : Z) (lf : leafI V),
  0 <= depth <= MAXDEPTH ->
  exists nodeMap nodes,
    newCompressedTable V depth hashPath lf
    = compressedTable (Z.land hashPath (Z.ones (5 * depth))) nodeMap nodes
    /\ ct_ok V nodeMap nodes
    /\ forall j, 0 <= j < 32 ->
         compressed_get V nodeMap nodes j
         = Ok (if j =? index hashPath depth then Some (leafNode lf) else None).
Proof.
  intros V depth hashPath lf Hd.
  pose proof (index_range hashPath depth Hd) as Hi. unfold MAXDEPTH in Hd.
  destruct (singleton_ok V (index hashPath depth) (leafNode lf) Hi) as [Hok Hl].
  exists (2 ^ index hashPath depth), [leafNode lf]. split; [|split].
  - unfold newCompressedTable. rewrite hashPathMask_spec by lia.
    rewrite GoFacts.shl32_one by assumption. reflexivity.
  - exact Hok.
  - intros j Hj. rewrite compressed_get_lookup by assumption. rewrite Hl by assumption.
    reflexivity.
Qed.

Lemma newCompressedTable_single_child_witness :
  exists nodeMap nodes,
    newCompressedTable Z 1 1000 (Leaves.FlatPtr (Leaves.mkFlatLeaf 1000 [] 5))
    = compressedTable (Z.land 1000 (Z.ones (5 * 1))) nodeMap nodes
    /\ ct_ok Z nodeMap nodes
    /\ forall j, 0 <= j < 32 ->
         compressed_get Z nodeMap nodes j
         = Ok (if j =? index 1000 1
               then Some (leafNode (Leaves.FlatPtr (Leaves.mkFlatLeaf 1000 [] 5)))
               else None).
Proof.
  apply (newCompressedTable_single_child Z 1 1000). unfold MAXDEPTH. lia.
Defined.

End SparseBuilders.

(** * newCompressedTable2: the table built for two leaves *)
Module TwoLeaves.
Import Hamt32 Bits32 Popcount CompressedFacts EntryFacts FullFacts TableFacts Prefix TrieFacts.
Import PutFacts.

(** X12: for two leaves with different 30-bit hashcodes that share the
    prefix [hashPath] of depth [depth], [newCompressedTable2] returns a
    table with that hash path under which the loop of [Get], started at
    [depth] with a hashcode of that prefix, finds the second leaf for its
    hashcode, the first leaf for its own, and nothing for any other. *)
Theorem newCompressedTable2_finds_both :
  forall (V : Type) (depth hashPath : Z) (leaf1 : leafI V) (leaf2 : flatLeaf V),
  0 <= Leaves.hashcode leaf1 < 2 ^ 30 -> 0 <= Leaves.fl_hash leaf2 < 2 ^ 30 ->
  Leaves.hashcode leaf1 <> Leaves.fl_hash leaf2 ->
  0 <= depth <= MAXDEPTH ->
  Z.land (Leaves.hashcode leaf1) (Z.ones (5 * depth)) = hashPath ->
  Z.land (Leaves.fl_hash leaf2) (Z.ones (5 * depth)) = hashPath ->
  exists t,
    newCompressedTable2 V depth hashPath leaf1 leaf2 = Ok t
    /\ table_hashcode t = hashPath
    /\ forall h k, Z.land h (Z.ones (5 * depth)) = hashPath ->
         Get_loop V (S (Z.to_nat (MAXDEPTH + 1 - depth))) depth h k t
         = Ok (if h =? Leaves.fl_hash leaf2 then Leaves.flatLeaf_get leaf2 k
               else if h =? Leaves.hashcode leaf1 then Leaves.get leaf1 k
               else None).
Proof.
  intros V depth hashPath leaf1 leaf2 H1 H2 Hne Hd Hp1 Hp2.
  unfold MAXDEPTH in Hd.
  destruct (newCompressedTable2_loop_spec V (S (S (Z.to_nat MAXDEPTH))) depth
              leaf1 leaf2 H1 H2 Hne ltac:(lia)
              ltac:(unfold pre; congruence) ltac:(unfold MAXDEPTH; lia))
    as (t & Hloop & _ & Hhc & Hget).
  exists t. unfold newCompressedTable2. rewrite hashPathMask_pre by lia.
  fold (pre (Leaves.fl_hash leaf2) depth) in Hp2.
  rewrite <- Hp2. rewrite pre_pre by lia.
  split; [exact Hloop|]. split; [exact Hhc|].
  intros h k Hh. apply (Hget h k). exact Hh.
Qed.

Definition leaf_at_1 : leafI Z := Leaves.FlatPtr (Leaves.mkFlatLeaf 1 [Byte.x01] 10).
Definition leaf_at_33 : flatLeaf Z := Leaves.mkFlatLeaf 33 [Byte.x21] 20.

Lemma newCompressedTable2_finds_both_witness :
  exists t,
    newCompressedTable2 Z 1 1 leaf_at_1 leaf_at_33 = Ok t
    /\ table_hashcode t = 1
    /\ forall h k, Z.land h (Z.ones (5 * 1)) = 1 ->
         Get_loop Z (S (Z.to_nat (MAXDEPTH + 1 - 1))) 1 h k t
         = Ok (if h =? Leaves.fl_hash leaf_at_33 then Leaves.flatLeaf_get leaf_at_33 k
               else if h =? Leaves.hashcode leaf_at_1 then Leaves.get leaf_at_1 k
               else None).
Proof.
  apply (newCompressedTable2_finds_both Z 1 1 leaf_at_1 leaf_at_33);
    cbn; try lia; try reflexivity; try (unfold MAXDEPTH; lia).
Defined.

Section WithValues.

Variable V : Type.
Variable Hash30 : key -> Z.

Lemma compressed_get_singleton : forall i (nd : node V), 0 <= i < 32 ->
  compressed_get V (Go.shl32 1 i) [nd] i = Ok (Some nd).
Proof.
  intros i nd Hi. rewrite GoFacts.shl32_one by assumption.
  destruct (singleton_ok V i nd Hi) as [Hok Hl].
  rewrite compressed_get_lookup by assumption. rewrite Hl by assumption.
  rewrite Z.eqb_refl. reflexivity.
Qed.

(** With one hashcode for both leaves the loop never finds two different
    slots: it chains one-child tables down to [MAXDEPTH] and ends with an
    empty table, the table [set] returns for the merged leaf being dropped. *)
Lemma newCompressedTable2_loop_same_hash : forall n d hashPath curHashPath
    (leaf1 : leafI V) (leaf2 : flatLeaf V),
  Leaves.hashcode leaf1 = Leaves.fl_hash leaf2 -> 0 <= d <= 6 ->
  (Z.to_nat (MAXDEPTH + 1 - d) < n)%nat ->
  exists t,
    newCompressedTable2_loop V n d hashPath curHashPath leaf1 leaf2 = Ok t
    /\ table_hashcode t = curHashPath
    /\ forall k m, (Z.to_nat (MAXDEPTH + 1 - d) < m)%nat ->
         Get_loop V m d (Leaves.fl_hash leaf2) k t = Ok None.
Proof.
  induction n as [|n IH]; intros d hashPath curHashPath leaf1 leaf2 Hh Hd Hn; [lia|].
  cbn [newCompressedTable2_loop]. unfold MAXDEPTH in *.
  destruct (Z.leb_spec d 5) as [Hd5|Hd6].
  - rewrite Hh, Z.eqb_refl. cbn [negb].
    rewrite (GoFacts.u64_small (d + 1)) by lia.
    destruct (IH (d + 1) (buildHashPath hashPath (index (Leaves.fl_hash leaf2) d) d)
                (buildHashPath hashPath (index (Leaves.fl_hash leaf2) d) d)
                leaf1 leaf2 Hh ltac:(lia) ltac:(lia)) as (t0 & Hloop & _ & Hget).
    rewrite Hloop. cbn [Go.bind]. eexists. split; [reflexivity|].
    split; [reflexivity|]. intros k m Hm.
    destruct m as [|m]; [lia|]. cbn [Get_loop]. unfold MAXDEPTH.
    replace (d <=? 5) with true by (symmetry; apply Z.leb_le; lia).
    cbn [table_get].
    rewrite compressed_get_singleton
      by (apply index_range; unfold MAXDEPTH; lia).
    cbn [Go.bind]. rewrite (GoFacts.u64_small (d + 1)) by lia.
    apply Hget. lia.
  - destruct (leaf_put V leaf1 (Leaves.fl_key leaf2) (Leaves.fl_val leaf2))
      as [lf b].
    destruct (compressed_set_spec V curHashPath 0 [] (index (Leaves.hashcode leaf1) 5)
                (Some (leafNode lf)) (empty_ok V)
                (index_range _ 5 ltac:(unfold MAXDEPTH; lia))) as (r & Hset & _).
    rewrite Hset. cbn [Go.bind]. eexists. split; [reflexivity|].
    split; [reflexivity|]. intros k m Hm.
    destruct m as [|m]; [lia|]. cbn [Get_loop]. unfold MAXDEPTH.
    replace (d <=? 5) with false by (symmetry; apply Z.leb_gt; lia). reflexivity.
Qed.

End WithValues.

(** X13: called with two leaves of one and the same hashcode,
    [newCompressedTable2] returns a table in which neither leaf can be
    found: the loop of [Get] started at [depth] with that hashcode returns
    nothing, for every key.  The collision leaf it builds at the bottom is
    stored in a copy of the last table, and the copy is dropped. *)
Theorem newCompressedTable2_same_hash_loses_leaves :
  forall (V : Type) (depth hashPath : Z) (leaf1 : leafI V) (leaf2 : flatLeaf V),
  Leaves.hashcode leaf1 = Leaves.fl_hash leaf2 -> 0 <= depth <= MAXDEPTH + 1 ->
  exists t,
    newCompressedTable2 V depth hashPath leaf1 leaf2 = Ok t
    /\ forall k, Get_loop V (S (Z.to_nat (MAXDEPTH + 1 - depth))) depth
                   (Leaves.fl_hash leaf2) k t = Ok None.
Proof.
  intros V depth hashPath leaf1 leaf2 Hh Hd. unfold MAXDEPTH in Hd.
  destruct (newCompressedTable2_loop_same_hash V (S (S (Z.to_nat MAXDEPTH))) depth
              hashPath (Z.land hashPath (hashPathMask depth)) leaf1 leaf2 Hh
              ltac:(lia) ltac:(unfold MAXDEPTH; lia)) as (t & Hloop & _ & Hget).
  exists t. split; [exact Hloop|]. intros k. apply Hget. lia.
Qed.

Lemma newCompressedTable2_same_hash_loses_leaves_witness :
  exists t,
    newCompressedTable2 Z 1 1 leaf_at_1
      (Leaves.mkFlatLeaf 1 [Byte.x01; Byte.x00] 20) = Ok t
    /\ forall k, Get_loop Z (S (Z.to_nat (MAXDEPTH + 1 - 1))) 1 1 k t = Ok None.
Proof.
  apply (newCompressedTable2_same_hash_loses_leaves Z 1 1 leaf_at_1
           (Leaves.mkFlatLeaf 1 [Byte.x01; Byte.x00] 20)).
  - reflexivity.
  - unfold MAXDEPTH. lia.
Defined.

End TwoLeaves.

(** * The map of package hamt32_functional: size, Get, Del *)
Module MapProperties.
Import Hamt32 Bits32 Popcount CompressedFacts EntryFacts FullFacts TableFacts Prefix TrieFacts.
Import PutFacts.

Section WithValues.

Variable V : Type.
Variable Hash30 : key -> Z.
Variable GradeTables : bool.

(** The size of the map a [Put] returns and the flag it returns. *)
Definition put_counts (h : Hamt V) (r : result (Hamt V * bool)) : Prop :=
  match r with
  | Ok (h', inserted) =>
      nentries h' = if inserted then Go.u64 (nentries h + 1) else nentries h
  | _ => True
  end.

Lemma put_counts_bind : forall (A : Type) (h : Hamt V) (r : result A)
    (f : A -> result (Hamt V * bool)),
  (forall a, put_counts h (f a)) -> put_counts h (Go.bind r f).
Proof. intros A h [a|p|] f H; cbn; auto. Qed.

Lemma Put_loop_counts : forall n (nh : Hamt V) depth h30 k v newLeaf curTable path hashPath,
  put_counts nh (Put_loop V GradeTables n nh depth h30 k v newLeaf curTable path
                   hashPath).
Proof.
  induction n as [|n IH]; intros nh depth h30 k v newLeaf curTable path hashPath;
    cbn [Put_loop]; [exact I|].
  destruct (depth <=? MAXDEPTH); [|reflexivity].
  apply put_counts_bind. intros [[oldLeaf|t]|].
  - destruct (Leaves.hashcode oldLeaf =? h30).
    + apply put_counts_bind. intros _.
      destruct (leaf_put V oldLeaf k v) as [newLeaf' inserted].
      apply put_counts_bind. intros newTable. apply put_counts_bind. intros r.
      reflexivity.
    + apply put_counts_bind. intros collisionTable.
      apply put_counts_bind. intros newTable. apply put_counts_bind. intros r.
      reflexivity.
  - apply IH.
  - apply put_counts_bind. intros newTable. apply put_counts_bind. intros r. reflexivity.
Qed.

(** The size of the map a [Del] returns, the value and the flag. *)
Definition del_counts (h : Hamt V) (r : result (Hamt V * option V * bool)) : Prop :=
  match r with
  | Ok (h', val, deleted) =>
      nentries h' = (if deleted then Go.u64 (nentries h - 1) else nentries h)
      /\ deleted = (match val with Some _ => true | None => false end)
      /\ (deleted = false -> nentries h' = nentries h)
  | _ => True
  end.

Lemma del_counts_bind : forall (A : Type) (h : Hamt V) (r : result A)
    (f : A -> result (Hamt V * option V * bool)),
  (forall a, del_counts h (f a)) -> del_counts h (Go.bind r f).
Proof. intros A h [a|p|] f H; cbn; auto. Qed.

Lemma Del_loop_counts : forall n (h : Hamt V) depth h30 k curTable path,
  del_counts h (Del_loop V GradeTables n h depth h30 k curTable path).
Proof.
  induction n as [|n IH]; intros h depth h30 k curTable path; cbn [Del_loop]; [exact I|].
  assert (Hsame : del_counts h (Ok (h, None, false))) by (cbn; auto).
  destruct (depth <=? MAXDEPTH); [|exact Hsame].
  apply del_counts_bind. intros [[oldLeaf|t]|]; [| |exact Hsame].
  - destruct (negb (Leaves.hashcode oldLeaf =? h30)); [exact Hsame|].
    pose proof (Leaf32Facts.del_flag V oldLeaf k) as Hf.
    destruct (leaf_del V oldLeaf k) as [[newLeaf val] deleted]. cbn [fst snd] in Hf.
    apply del_counts_bind. intros newTable. apply del_counts_bind. intros r.
    cbn [del_counts nentries]. split; [reflexivity|]. split; [exact Hf|].
    intros ->. reflexivity.
  - apply IH.
Qed.

End WithValues.

(** X14: whenever [Put] returns, the size of the map it returns is the size
    of the receiver plus one (on [uint]) if the flag it returns is true, and
    the size of the receiver if it is false, for every map, key and value. *)
Theorem Put32_size_follows_flag :
  forall (V : Type) (Hash30 : key -> Z) (GradeTables : bool) (h : Hamt V) (k : key) (v : V)
         (h' : Hamt V) (inserted : bool),
  Put V Hash30 GradeTables h k v = Ok (h', inserted) ->
  nentries h' = if inserted then Go.u64 (nentries h + 1) else nentries h.
Proof.
  intros V Hash30 GradeTables h k v h' inserted H.
  assert (Hc : put_counts V h (Put V Hash30 GradeTables h k v)).
  { unfold Put. destruct (root h); [apply Put_loop_counts|reflexivity]. }
  rewrite H in Hc. exact Hc.
Qed.

Lemma Put32_size_follows_flag_witness :
  exists h',
    Put Z Variant32.first_byte true Variant32.map_1 Variant32.key_33 20 = Ok (h', true)
    /\ nentries h' = Go.u64 (nentries Variant32.map_1 + 1).
Proof.
  assert (E : exists h',
            Put Z Variant32.first_byte true Variant32.map_1 Variant32.key_33 20
            = Ok (h', true)) by (vm_compute; eexists; reflexivity).
  destruct E as [h' E]. exists h'. split; [exact E|].
  exact (Put32_size_follows_flag Z Variant32.first_byte true Variant32.map_1
           Variant32.key_33 20 h' true E).
Defined.

(** X15: whenever [Del] returns, the flag it returns is true exactly when it
    returns a value, and the size of the map it returns is the size of the
    receiver minus one (on [uint]) if the flag is true and the size of the
    receiver if it is false. *)
Theorem Del32_size_follows_flag :
  forall (V : Type) (Hash30 : key -> Z) (GradeTables : bool) (h : Hamt V) (k : key)
         (h' : Hamt V) (val : option V) (deleted : bool),
  Del V Hash30 GradeTables h k = Ok (h', val, deleted) ->
  nentries h' = (if deleted then Go.u64 (nentries h - 1) else nentries h)
  /\ deleted = (match val with Some _ => true | None => false end).
Proof.
  intros V Hash30 GradeTables h k h' val deleted H.
  assert (Hc : del_counts V h (Del V Hash30 GradeTables h k)).
  { unfold Del. destruct (root h); [apply Del_loop_counts|exact I]. }
  rewrite H in Hc. destruct Hc as (H1 & H2 & _). split; assumption.
Qed.

Lemma Del32_size_follows_flag_witness :
  Del Z Variant32.first_byte true Variant32.map_1 Variant32.key_1
  = Ok (mkHamt None 0, Some 10, true)
  /\ 0 = Go.u64 (nentries Variant32.map_1 - 1).
Proof.
  split; [vm_compute; reflexivity|].
  exact (proj1 (Del32_size_follows_flag Z Variant32.first_byte true Variant32.map_1
                  Variant32.key_1 (mkHamt None 0) (Some 10) true
                  ltac:(vm_compute; reflexivity))).
Defined.

Section OnWellFormedMaps.

Variable V : Type.
Variable Hash30 : key -> Z.
Variable GradeTables : bool.
Hypothesis Hash30_range : forall k, 0 <= Hash30 k < 2 ^ 30.

(** On well-formed tables the loop of [Get] returns. *)
Lemma Get_at_returns : forall n d (t : table V) h k,
  wf_table V d t -> (Z.to_nat (MAXDEPTH - d) <= n)%nat ->
  exists r, Get_at V d t h k = Ok r.
Proof.
  induction n as [|n IH]; intros d t h k Hwf Hn;
    pose proof (wf_table_depth V d t Hwf) as Hd;
    pose proof (index_range h d Hd) as Hi;
    rewrite Get_at_lookup by (try assumption; apply (wf_table_ok V d t Hwf));
    destruct (lookup V t (index h d)) as [[lf|c]|] eqn:Hl;
    try (destruct (Leaves.hashcode lf =? h); eexists; reflexivity);
    try (eexists; reflexivity);
    destruct (wf_node_table_inv V _ _ _ _ (wf_table_child V d t _ _ Hwf Hi Hl))
      as (_ & _ & Hwc);
    pose proof (wf_table_depth V (d + 1) c Hwc) as Hd1.
  - unfold MAXDEPTH in *. lia.
  - apply IH; [exact Hwc|]. unfold MAXDEPTH in *. lia.
Qed.

(** The loop of [Get] on a table that may be nil. *)
Definition Get_opt (d : Z) (o : option (table V)) (h : Z) (k : key) : result (option V) :=
  match o with
  | Some t => Get_at V d t h k
  | None => Ok None
  end.

(** Removing the child of a slot. *)
Lemma wf_table_unset : forall d (t : table V) i, wf_table V d t -> 0 <= i < 32 ->
  exists r, table_set V GradeTables t i None = Ok r
    /\ match r with
       | Some t' =>
           wf_table V d t' /\ table_hashcode t' = table_hashcode t
           /\ forall j, 0 <= j < 32 -> lookup V t' j = if j =? i then None else lookup V t j
       | None => forall j, 0 <= j < 32 -> j <> i -> lookup V t j = None
       end.
Proof.
  intros d t i Hwf Hi.
  destruct (table_set_spec V GradeTables t i None (wf_table_ok V d t Hwf) Hi)
    as (r & Hset & Hpost).
  exists r. split; [exact Hset|]. destruct r as [t'|]; cbn [set_post] in Hpost.
  - destruct Hpost as (Hok & Hhc & Hl). split; [|split; assumption].
    constructor.
    + apply (wf_table_depth V d t Hwf).
    + exact Hok.
    + rewrite Hhc. apply (wf_table_range V d t Hwf).
    + intros j nd Hj Hl'. rewrite Hhc. rewrite Hl in Hl' by assumption.
      destruct (j =? i); [discriminate|].
      apply (wf_table_child V d t j nd Hwf Hj Hl').
  - apply Hpost.
Qed.

(** [copyUp] with a new table that may be nil: a table emptied by the
    removal is itself removed from its parent, up to the root. *)
Lemma copyUp_opt_spec : forall d t path, chain V d t path -> wf_table V d t ->
  forall newTable : option (table V),
  (forall t', newTable = Some t' ->
     wf_table V d t' /\ table_hashcode t' = table_hashcode t) ->
  exists r, copyUp V GradeTables t newTable path = Ok r
    /\ (forall r', r = Some r' -> wf_table V 0 r')
    /\ forall h k, Get_opt 0 r h k
                   = if pre h d =? table_hashcode t then Get_opt d newTable h k
                     else Get_at V 0 (path_root V t path) h k.
Proof.
  induction 1 as [t|d t P rest Hwf Hl Hc IH]; intros Hwft newTable Hnew.
  - exists newTable. split; [reflexivity|]. split.
    + intros r' Hr. apply (Hnew r' Hr).
    + intros h k. pose proof (wf_table_range V 0 t Hwft) as Hr.
      change (2 ^ (5 * 0)) with 1 in Hr. rewrite pre_0.
      replace (table_hashcode t) with 0 by lia. reflexivity.
  - pose proof (wf_table_depth V d P Hwf) as Hd.
    pose proof (index_range (table_hashcode t) d Hd) as Hi.
    pose proof (chain_length V _ _ _ Hc) as Hlen.
    cbn [copyUp path_root]. cbn [length]. rewrite Nat2Z.inj_succ, Hlen.
    replace (Z.succ d - 1) with d by lia.
    unfold MAXDEPTH in Hd. rewrite (GoFacts.u64_small d) by lia.
    destruct (wf_node_table_inv V _ _ _ _ (wf_table_child V d P _ _ Hwf Hi Hl))
      as (Hpc & Hic & Hwc).
    assert (Hstep : exists newParent,
              table_set V GradeTables P (index (table_hashcode t) d)
                (option_map tableNode newTable) = Ok newParent
              /\ (forall P', newParent = Some P' ->
                    wf_table V d P' /\ table_hashcode P' = table_hashcode P)
              /\ forall h k, pre h d = table_hashcode P ->
                   Get_opt d newParent h k
                   = if index h d =? index (table_hashcode t) d
                     then Get_opt (d + 1) newTable h k
                     else Get_at V d P h k).
    { destruct newTable as [t'|]; cbn [option_map].
      - destruct (Hnew t' eq_refl) as [Hwf' Hhc].
        destruct (wf_table_set V GradeTables d P (index (table_hashcode t) d) (tableNode t')
                    Hwf Hi) as (P' & Hset & HwfP' & HhcP' & HlP').
        { constructor; [rewrite Hhc; exact Hpc|rewrite Hhc; reflexivity|exact Hwf']. }
        exists (Some P'). split; [exact Hset|]. split.
        + intros P'' HP. injection HP as <-. split; assumption.
        + intros h k Hp. cbn [Get_opt].
          rewrite Get_at_lookup
            by (try (unfold MAXDEPTH; lia); apply (wf_table_ok V d P' HwfP')).
          rewrite HlP' by (apply index_range; unfold MAXDEPTH; lia).
          destruct (index h d =? index (table_hashcode t) d); [reflexivity|].
          rewrite (Get_at_lookup V d P)
            by (try (unfold MAXDEPTH; lia); apply (wf_table_ok V d P Hwf)).
          reflexivity.
      - destruct (wf_table_unset d P (index (table_hashcode t) d) Hwf Hi)
          as (r & Hset & Hpost).
        exists r. split; [exact Hset|]. destruct r as [P'|].
        + destruct Hpost as (HwfP' & HhcP' & HlP'). split.
          * intros P'' HP. injection HP as <-. split; assumption.
          * intros h k Hp. cbn [Get_opt].
            rewrite Get_at_lookup
              by (try (unfold MAXDEPTH; lia); apply (wf_table_ok V d P' HwfP')).
            rewrite HlP' by (apply index_range; unfold MAXDEPTH; lia).
            destruct (index h d =? index (table_hashcode t) d); [reflexivity|].
            rewrite (Get_at_lookup V d P)
              by (try (unfold MAXDEPTH; lia); apply (wf_table_ok V d P Hwf)).
            reflexivity.
        + split; [intros P' HP; discriminate|].
          intros h k Hp. cbn [Get_opt].
          destruct (Z.eqb_spec (index h d) (index (table_hashcode t) d)) as [E|E];
            [reflexivity|].
          rewrite (Get_at_lookup V d P)
            by (try (unfold MAXDEPTH; lia); apply (wf_table_ok V d P Hwf)).
          rewrite (Hpost (index h d)) by (try assumption; apply index_range;
                                          unfold MAXDEPTH; lia).
          reflexivity. }
    destruct Hstep as (newParent & Hset & HwfNP & HgetNP).
    rewrite Hset. cbn [Go.bind].
    destruct (IH Hwf newParent HwfNP) as (r & Hcu & Hwfr & Hget).
    exists r. split; [exact Hcu|]. split; [exact Hwfr|]. intros h k.
    rewrite Hget. pose proof (routes_iff V d P _ t h Hwf Hi Hl) as Hroute.
    destruct (Z.eqb_spec (pre h d) (table_hashcode P)) as [HpP|HpP].
    + rewrite (HgetNP h k HpP).
      destruct (Z.eqb_spec (index h d) (index (table_hashcode t) d)) as [E|E].
      * replace (pre h (d + 1) =? table_hashcode t) with true; [reflexivity|].
        symmetry. apply Z.eqb_eq. apply Hroute. auto.
      * replace (pre h (d + 1) =? table_hashcode t) with false.
        2:{ symmetry. apply Z.eqb_neq. intros Hc'. apply E. apply Hroute. exact Hc'. }
        symmetry. apply (chain_get V d P rest Hc h k HpP).
    + replace (pre h (d + 1) =? table_hashcode t) with false; [reflexivity|].
      symmetry. apply Z.eqb_neq. intros Hc'. apply HpP. apply Hroute. exact Hc'.
Qed.

(** The leaf [del] returns carries the hashcode of the leaf. *)
Lemma leaf_del_hashcode : forall (l l' : leafI V) k val deleted,
  leaf_del V l k = (Some l', val, deleted) -> 0 <= Leaves.hashcode l < 2 ^ 30 ->
  Leaves.hashcode l' = Leaves.hashcode l.
Proof.
  intros l l' k val deleted H _. exact (Leaf32Facts.del_hashcode V l l' k val deleted H).
Qed.

(** What [Del] of [k] owes the map [h] rooted at [old]: it returns, the map
    returned is well formed, and the keys with another hashcode read in it
    what they read in [h]. *)
Definition del_post (k : key) (old : table V) (r : result (Hamt V * option V * bool))
    : Prop :=
  match r with
  | Ok (h', _, _) =>
      wf V h'
      /\ forall k', Hash30 k' <> Hash30 k ->
           Get V Hash30 h' k' = Get_at V 0 old (Hash30 k') k'
  | _ => False
  end.

Lemma Get_mk : forall r n k,
  Get V Hash30 (mkHamt r n) k = Get_opt 0 r (Hash30 k) k.
Proof. intros [t|] n k; reflexivity. Qed.

Lemma Del_loop_spec : forall n (h : Hamt V) d k curTable path,
  chain V d curTable path -> wf_table V d curTable ->
  pre (Hash30 k) d = table_hashcode curTable ->
  root h = Some (path_root V curTable path) -> wf_table V 0 (path_root V curTable path) ->
  (Z.to_nat (MAXDEPTH + 1 - d) < n)%nat ->
  del_post k (path_root V curTable path)
    (Del_loop V GradeTables n h d (Hash30 k) k curTable path).
Proof.
  induction n as [|n IH]; intros h d k curTable path Hc Hwf Hp Hroot Hwfroot Hn; [lia|].
  pose proof (wf_table_depth V d curTable Hwf) as Hd.
  pose proof (wf_table_ok V d curTable Hwf) as Hok.
  pose proof (index_range (Hash30 k) d Hd) as Hi.
  assert (Hsame : del_post k (path_root V curTable path) (Ok (h, None, false))).
  { cbn [del_post]. split; [unfold wf; rewrite Hroot; exact Hwfroot|].
    intros k' _. apply Get_root. exact Hroot. }
  cbn [Del_loop]. unfold MAXDEPTH in Hd, Hn |- *.
  replace (d <=? 5) with true by (symmetry; apply Z.leb_le; lia).
  rewrite table_get_lookup by assumption. cbn [Go.bind].
  destruct (lookup V curTable (index (Hash30 k) d)) as [[oldLeaf|c]|] eqn:Hl;
    [| |exact Hsame].
  - destruct (wf_node_leaf_inv V _ _ _ _ (wf_table_child V d curTable _ _ Hwf Hi Hl))
      as (Hr1 & Hp1 & Hi1).
    destruct (Z.eqb_spec (Leaves.hashcode oldLeaf) (Hash30 k)) as [Heq|Hneq]; cbn [negb];
      [|exact Hsame].
    destruct (leaf_del V oldLeaf k) as [[newLeaf val] deleted] eqn:Edel.
    assert (Hstep : exists newTable,
              table_set V GradeTables curTable (index (Hash30 k) d)
                (option_map leafNode newLeaf) = Ok newTable
              /\ (forall t', newTable = Some t' ->
                    wf_table V d t' /\ table_hashcode t' = table_hashcode curTable)
              /\ forall k', Hash30 k' <> Hash30 k ->
                   pre (Hash30 k') d = table_hashcode curTable ->
                   Get_opt d newTable (Hash30 k') k' = Get_at V d curTable (Hash30 k') k').
    { destruct newLeaf as [l'|]; cbn [option_map].
      - pose proof (leaf_del_hashcode oldLeaf l' k val deleted Edel Hr1) as Hhash.
        destruct (wf_table_set V GradeTables d curTable (index (Hash30 k) d) (leafNode l')
                    Hwf Hi) as (t' & Hset & Hwf' & Hhc' & Hl').
        { constructor; rewrite Hhash; assumption. }
        exists (Some t'). split; [exact Hset|]. split.
        + intros t'' Ht. injection Ht as <-. split; assumption.
        + intros k' Hne Hp'. cbn [Get_opt].
          rewrite Get_at_lookup
            by (try (unfold MAXDEPTH; lia); apply (wf_table_ok V d t' Hwf')).
          rewrite (Get_at_lookup V d curTable) by (try (unfold MAXDEPTH; lia); assumption).
          rewrite Hl' by (apply index_range; unfold MAXDEPTH; lia).
          destruct (Z.eqb_spec (index (Hash30 k') d) (index (Hash30 k) d)) as [E|E];
            [|reflexivity].
          rewrite E, Hl, Hhash, Heq.
          replace (Hash30 k =? Hash30 k') with false
            by (symmetry; apply Z.eqb_neq; congruence).
          reflexivity.
      - destruct (wf_table_unset d curTable (index (Hash30 k) d) Hwf Hi)
          as (r & Hset & Hpost).
        exists r. split; [exact Hset|]. destruct r as [t'|].
        + destruct Hpost as (Hwf' & Hhc' & Hl'). split.
          * intros t'' Ht. injection Ht as <-. split; assumption.
          * intros k' Hne Hp'. cbn [Get_opt].
            rewrite Get_at_lookup
              by (try (unfold MAXDEPTH; lia); apply (wf_table_ok V d t' Hwf')).
            rewrite (Get_at_lookup V d curTable)
              by (try (unfold MAXDEPTH; lia); assumption).
            rewrite Hl' by (apply index_range; unfold MAXDEPTH; lia).
            destruct (Z.eqb_spec (index (Hash30 k') d) (index (Hash30 k) d)) as [E|E];
              [|reflexivity].
            rewrite E, Hl, Heq.
            replace (Hash30 k =? Hash30 k') with false
              by (symmetry; apply Z.eqb_neq; congruence).
            reflexivity.
        + split; [intros t' Ht; discriminate|].
          intros k' Hne Hp'. cbn [Get_opt].
          rewrite (Get_at_lookup V d curTable) by (try (unfold MAXDEPTH; lia); assumption).
          destruct (Z.eqb_spec (index (Hash30 k') d) (index (Hash30 k) d)) as [E|E].
          * rewrite E, Hl, Heq.
            replace (Hash30 k =? Hash30 k') with false
              by (symmetry; apply Z.eqb_neq; congruence).
            reflexivity.
          * rewrite (Hpost (index (Hash30 k') d))
              by (try assumption; apply index_range; unfold MAXDEPTH; lia).
            reflexivity. }
    destruct Hstep as (newTable & Hset & Hnew & Hframe).
    rewrite Hset. cbn [Go.bind].
    destruct (copyUp_opt_spec d curTable path Hc Hwf newTable Hnew)
      as (r & Hcu & Hwfr & Hget).
    rewrite Hcu. cbn [Go.bind del_post]. split.
    + unfold wf. cbn [root]. destruct r as [r'|]; [apply Hwfr; reflexivity|exact I].
    + intros k' Hne. rewrite Get_mk, Hget.
      destruct (Z.eqb_spec (pre (Hash30 k') d) (table_hashcode curTable)) as [E|E];
        [|reflexivity].
      rewrite (Hframe k' Hne E). symmetry. apply chain_get; assumption.
  - destruct (wf_node_table_inv V _ _ _ _ (wf_table_child V d curTable _ _ Hwf Hi Hl))
      as (Hpc & Hic & Hwc).
    pose proof (wf_table_depth V (d + 1) c Hwc) as Hd1. unfold MAXDEPTH in Hd1.
    rewrite (GoFacts.u64_small (d + 1)) by lia. unfold path_push.
    change (path_root V curTable path) with (path_root V c (curTable :: path)) in *.
    apply IH; try assumption.
    + constructor; [exact Hwf|rewrite Hic; exact Hl|exact Hc].
    + apply (routes_iff V d curTable _ c (Hash30 k) Hwf Hi Hl). auto.
    + unfold MAXDEPTH. lia.
Qed.

End OnWellFormedMaps.

(** X16: on a well-formed map (the tables laid out by their bitmaps, every
    child in the slot of its hashcode) [Get] returns for every key: it
    never indexes a children sequence out of range. *)
Theorem Get32_returns_on_well_formed :
  forall (V : Type) (Hash30 : key -> Z) (h : Hamt V) (k : key),
  wf V h -> exists r, Get V Hash30 h k = Ok r.
Proof.
  intros V Hash30 h k Hwf. unfold wf in Hwf. unfold Get.
  destruct (root h) as [t|]; [|eexists; reflexivity].
  apply (Get_at_returns V (Z.to_nat MAXDEPTH) 0 t (Hash30 k) k Hwf). lia.
Qed.

Lemma map_1_wf : wf Z Variant32.map_1.
Proof.
  pose proof (Put_spec Z Variant32.first_byte true Variant32.first_byte_range EMPTY
                Variant32.key_1 10 I) as H.
  change (Put Z Variant32.first_byte true EMPTY Variant32.key_1 10)
    with (@Ok (Hamt Z * bool) (Variant32.map_1, true)) in H.
  apply H.
Qed.

Lemma Get32_returns_on_well_formed_witness :
  wf Z Variant32.map_1
  /\ exists r, Get Z Variant32.first_byte Variant32.map_1 Variant32.key_33 = Ok r.
Proof.
  split; [exact map_1_wf|].
  exact (Get32_returns_on_well_formed Z Variant32.first_byte Variant32.map_1
           Variant32.key_33 map_1_wf).
Defined.

(** X17: [Del] on a well-formed map.  On the empty map it panics (the
    method call on the nil root).  On a non-empty map it returns a
    well-formed map in which every key whose hashcode differs from that of
    the deleted key reads what it read before. *)
Theorem Del32_on_well_formed :
  forall (V : Type) (Hash30 : key -> Z) (GradeTables : bool),
  (forall k, 0 <= Hash30 k < 2 ^ 30) ->
  forall (h : Hamt V) (k : key), wf V h ->
  (IsEmpty h = true -> Del V Hash30 GradeTables h k = Panic NilDereference)
  /\ (IsEmpty h = false ->
      exists h' val deleted,
        Del V Hash30 GradeTables h k = Ok (h', val, deleted)
        /\ wf V h'
        /\ forall k', Hash30 k' <> Hash30 k -> Get V Hash30 h' k' = Get V Hash30 h k').
Proof.
  intros V Hash30 GradeTables Hrange h k Hwf. unfold IsEmpty, Del, wf in *.
  destruct (root h) as [curTable|] eqn:Hr; (split; [intros He|intros He];
    try discriminate He); [|reflexivity].
  pose proof (Del_loop_spec V Hash30 GradeTables loop_fuel h 0 k curTable (newPathT V)
                (chain_root V curTable) Hwf) as H.
  rewrite (pre_0 (Hash30 k)) in H.
  specialize (H ltac:(pose proof (wf_table_range V 0 curTable Hwf) as Hrg;
                      change (2 ^ (5 * 0)) with 1 in Hrg; lia)
                Hr Hwf ltac:(unfold loop_fuel, MAXDEPTH; lia)).
  cbn [path_root newPathT] in H. unfold newPathT.
  destruct (Del_loop _ _ _ _ _ _ _ _ _) as [[[h' val] deleted]|p|]; cbn [del_post] in H;
    [|contradiction|contradiction].
  exists h', val, deleted. split; [reflexivity|]. destruct H as [Hwf' Hframe].
  split; [exact Hwf'|]. intros k' Hne. rewrite (Hframe k' Hne).
  symmetry. apply Get_root. exact Hr.
Qed.

Lemma Del32_on_well_formed_witness :
  wf Z Variant32.map_1
  /\ IsEmpty Variant32.map_1 = false
  /\ exists h' val deleted,
       Del Z Variant32.first_byte true Variant32.map_1 Variant32.key_33
       = Ok (h', val, deleted)
       /\ wf Z h'
       /\ forall k', Variant32.first_byte k' <> Variant32.first_byte Variant32.key_33 ->
            Get Z Variant32.first_byte h' k' = Get Z Variant32.first_byte Variant32.map_1 k'.
Proof.
  split; [exact map_1_wf|]. split; [reflexivity|].
  exact (proj2 (Del32_on_well_formed Z Variant32.first_byte true Variant32.first_byte_range
                  Variant32.map_1 Variant32.key_33 map_1_wf) eq_refl).
Defined.

Section FirstKey.

Variable V : Type.
Variable Hash30 : key -> Z.
Variable GradeTables : bool.
Hypothesis Hash30_range : forall k, 0 <= Hash30 k < 2 ^ 30.

(** Removing the only child of a table: [set] returns nil. *)
Lemma singleton_remove : forall hp i (nd : node V), 0 <= i < 32 ->
  compressed_set V hp (2 ^ i) [nd] i None = Ok None.
Proof.
  intros hp i nd Hi.
  assert (Hr : rank (2 ^ i) i = 0).
  { rewrite <- (Z.lor_0_l (2 ^ i)). rewrite rank_set by lia.
    rewrite rank_empty, Z.ltb_irrefl. reflexivity. }
  unfold compressed_set.
  rewrite GoFacts.shl32_one by assumption.
  replace (Go.u32 (2 ^ i - 1)) with (Go.u32 (Go.shl32 1 i - 1))
    by (rewrite GoFacts.shl32_one by assumption; reflexivity).
  rewrite bitCount32_below by assumption.
  rewrite land_pow2_pos, testbit_pow2, Z.eqb_refl by lia.
  rewrite Hr. unfold Go.andnot. rewrite Z.ldiff_diag. reflexivity.
Qed.

(** [Del] of its key on the map of one key. *)
Lemma Del_first_key : forall k0 v,
  exists m,
    Put V Hash30 GradeTables EMPTY k0 v = Ok (m, true)
    /\ Get V Hash30 m k0 = Ok (Some v)
    /\ Del V Hash30 GradeTables m k0 = Ok (mkHamt None 0, Some v, true).
Proof.
  intros k0 v.
  destruct (newCompressedTable_spec V Hash30 Hash30_range k0 v) as (E & Hwf0 & Hget).
  eexists. split; [reflexivity|]. split.
  - rewrite Get_mk. cbn [Get_opt]. rewrite Hget.
    rewrite !Z.eqb_refl, byteSlicesEqual_refl. reflexivity.
  - unfold Del. cbn [root nentries EMPTY]. unfold loop_fuel. cbn [Del_loop].
    change (0 <=? MAXDEPTH) with true. cbv iota.
    pose proof (index_range (Hash30 k0) 0 ltac:(unfold MAXDEPTH; lia)) as Hi.
    rewrite table_get_lookup
      by (try (apply index_range; unfold MAXDEPTH; lia); apply (wf_table_ok V 0 _ Hwf0)).
    rewrite E. cbn [lookup Go.bind].
    destruct (singleton_ok V (index (Hash30 k0) 0)
                (leafNode (NewFlatLeaf V (Hash30 k0) k0 v)) Hi) as [_ Hl].
    rewrite Hl by assumption. rewrite Z.eqb_refl.
    rewrite (NewFlatLeaf_hashcode V Hash30 Hash30_range), Z.eqb_refl. cbn [negb].
    unfold NewFlatLeaf, Leaves.NewFlatLeaf. cbn [leaf_del Leaves.fl_key Leaves.fl_val].
    rewrite byteSlicesEqual_refl. cbn [table_set option_map].
    rewrite singleton_remove by assumption. reflexivity.
Qed.

End FirstKey.

(** X18: [Put] of a key into the empty map followed by [Del] of that key
    gives back the empty map [Hamt{nil, 0}], with the value put and the flag
    true, for every hash function with 30-bit values. *)
Theorem Put32_then_Del_is_empty :
  forall (V : Type) (Hash30 : key -> Z) (GradeTables : bool),
  (forall k, 0 <= Hash30 k < 2 ^ 30) ->
  forall (k : key) (v : V),
  exists m,
    Put V Hash30 GradeTables EMPTY k v = Ok (m, true)
    /\ Del V Hash30 GradeTables m k = Ok (EMPTY, Some v, true).
Proof.
  intros V Hash30 GradeTables Hrange k v.
  destruct (Del_first_key V Hash30 GradeTables Hrange k v) as (m & Hput & _ & Hdel).
  exists m. split; [exact Hput|]. exact Hdel.
Qed.

Lemma Put32_then_Del_is_empty_witness :
  exists m,
    Put Z Variant32.first_byte true EMPTY Variant32.key_1 10 = Ok (m, true)
    /\ Del Z Variant32.first_byte true m Variant32.key_1 = Ok (EMPTY, Some 10, true).
Proof.
  exact (Put32_then_Del_is_empty Z Variant32.first_byte true Variant32.first_byte_range
           Variant32.key_1 10).
Defined.

End MapProperties.

(** * The population count of package hamt *)
Module BitCount.

(** The bits of [n] below bit 64 that are set, counted one by one. *)
Definition ones_of (n : Z) : Z :=
  Z.of_nat (length (filter (fun i => Z.testbit n (Z.of_nat i)) (seq 0 64))).

(** Little-endian bytes. *)
Fixpoint val (bs : list Z) : Z :=
  match bs with
  | [] => 0
  | b :: r => b + 256 * val r
  end.

Fixpoint bytes_of (j : nat) (n : Z) : list Z :=
  match j with
  | O => []
  | S j' => n mod 256 :: bytes_of j' (n / 256)
  end.

Definition sumZ (l : list Z) : Z := fold_right Z.add 0 l.

Definition byte_ok (b : Z) : Prop := 0 <= b < 256.

(** What the three steps of [BitCount64] do to one byte. *)
Definition pairs (b : Z) : Z := b - Z.land (Z.shiftr b 1) 0x55.
Definition nibbles (c : Z) : Z := Z.land c 0x33 + Z.land (Z.shiftr c 2) 0x33.
Definition halves (d : Z) : Z := d mod 16 + d / 16.

Lemma bytes_of_length : forall j n, length (bytes_of j n) = j.
Proof. induction j as [|j IH]; intros n; cbn; [reflexivity|]. now rewrite IH. Qed.

Lemma bytes_of_ok : forall j n, Forall byte_ok (bytes_of j n).
Proof.
  induction j as [|j IH]; intros n; cbn; constructor; [|apply IH].
  unfold byte_ok. apply Z.mod_pos_bound. lia.
Qed.

Lemma val_bytes_of : forall j n, 0 <= n < 256 ^ Z.of_nat j -> val (bytes_of j n) = n.
Proof.
  induction j as [|j IH]; intros n Hn.
  - cbn in *. lia.
  - cbn [bytes_of val]. rewrite IH.
    + pose proof (Z.div_mod n 256). lia.
    + rewrite Nat2Z.inj_succ, Z.pow_succ_r in Hn by lia.
      split; [apply Z.div_pos; lia|apply Z.div_lt_upper_bound; lia].
Qed.

Lemma val_nonneg : forall bs, Forall byte_ok bs -> 0 <= val bs.
Proof.
  induction 1 as [|b bs Hb _ IH]; cbn [val]; [lia|]. unfold byte_ok in Hb. lia.
Qed.

Lemma val_bound : forall B bs, Forall (fun b => 0 <= b <= B) bs ->
  0 <= val bs <= B * val (repeat 1 (length bs)).
Proof.
  intros B bs H. induction H as [|b bs Hb _ IH]; cbn [val length repeat]; lia.
Qed.

Lemma val_sub : forall (g : Z -> Z) bs,
  val bs - val (map g bs) = val (map (fun b => b - g b) bs).
Proof. induction bs as [|b bs IH]; cbn [val map]; lia. Qed.

Lemma val_add : forall (f g : Z -> Z) bs,
  val (map f bs) + val (map g bs) = val (map (fun b => f b + g b) bs).
Proof. induction bs as [|b bs IH]; cbn [val map]; lia. Qed.

(** [Z.land] works on the low [k] bits and on the rest separately. *)
Lemma land_split : forall k a b, 0 <= k ->
  Z.land a b = Z.land (a mod 2 ^ k) (b mod 2 ^ k) + 2 ^ k * Z.land (a / 2 ^ k) (b / 2 ^ k).
Proof.
  intros k a b Hk.
  assert (Hp : 0 < 2 ^ k) by (apply Z.pow_pos_nonneg; lia).
  rewrite (Z.div_mod (Z.land a b) (2 ^ k)) at 1 by lia.
  rewrite <- (Z.shiftr_div_pow2 (Z.land a b)) by lia.
  rewrite Z.shiftr_land, !Z.shiftr_div_pow2 by lia.
  rewrite <- !Z.land_ones by lia.
  replace (Z.land (Z.land a b) (Z.ones k))
    with (Z.land (Z.land a (Z.ones k)) (Z.land b (Z.ones k))); [lia|].
  apply Z.bits_inj'. intros i _. rewrite !Z.land_spec.
  destruct (Z.testbit a i), (Z.testbit b i), (Z.testbit (Z.ones k) i); reflexivity.
Qed.

Lemma land_cons : forall b m x y, 0 <= b < 256 -> 0 <= m < 256 ->
  Z.land (b + 256 * x) (m + 256 * y) = Z.land b m + 256 * Z.land x y.
Proof.
  intros b m x y Hb Hm. rewrite (land_split 8 (b + 256 * x)) by lia.
  change (2 ^ 8) with 256.
  replace ((b + 256 * x) mod 256) with b by (Z.div_mod_to_equations; lia).
  replace ((m + 256 * y) mod 256) with m by (Z.div_mod_to_equations; lia).
  replace ((b + 256 * x) / 256) with x by (Z.div_mod_to_equations; lia).
  replace ((m + 256 * y) / 256) with y by (Z.div_mod_to_equations; lia).
  reflexivity.
Qed.

(** Bits at and above bit [j] are not seen through a mask below [2 ^ j]. *)
Lemma land_low : forall j u w m, 0 <= j -> 0 <= u < 2 ^ j -> 0 <= m < 2 ^ j ->
  Z.land (u + 2 ^ j * w) m = Z.land u m.
Proof.
  intros j u w m Hj Hu Hm. rewrite (land_split j (u + 2 ^ j * w)) by lia.
  rewrite (Z.div_small m (2 ^ j)) by lia. rewrite Z.land_0_r.
  rewrite (Z.mod_small m) by lia.
  replace ((u + 2 ^ j * w) mod 2 ^ j) with u; [lia|].
  rewrite Z.mul_comm, Z.mod_add by lia. symmetry. apply Z.mod_small. lia.
Qed.

Lemma val_land : forall m bs, 0 <= m < 256 -> Forall byte_ok bs ->
  Z.land (val bs) (val (repeat m (length bs))) = val (map (fun b => Z.land b m) bs).
Proof.
  intros m bs Hm H. induction H as [|b bs Hb _ IH]; [reflexivity|].
  cbn [val length repeat map]. rewrite land_cons by assumption. now rewrite IH.
Qed.

Ltac small_pows :=
  change (2 ^ 1) with 2; change (2 ^ (8 - 1)) with 128;
  change (2 ^ 2) with 4; change (2 ^ (8 - 2)) with 64.

Lemma val_shift_land : forall s m bs,
  (s = 1 /\ 0 <= m < 128) \/ (s = 2 /\ 0 <= m < 64) -> Forall byte_ok bs ->
  Z.land (Z.shiftr (val bs) s) (val (repeat m (length bs)))
  = val (map (fun b => Z.land (Z.shiftr b s) m) bs).
Proof.
  intros s m bs Hs H. induction H as [|b bs Hb Hbs IH].
  - cbn [val length repeat map]. rewrite Z.shiftr_0_l. reflexivity.
  - cbn [val length repeat map]. rewrite <- IH.
    pose proof (val_nonneg bs Hbs) as Hx. unfold byte_ok in Hb.
    set (x := val bs) in *. set (Y := val (repeat m (length bs))).
    clearbody x Y. assert (Hs0 : 0 <= s) by lia.
    rewrite !Z.shiftr_div_pow2 by lia.
    replace ((b + 256 * x) / 2 ^ s)
      with ((b / 2 ^ s + 2 ^ (8 - s) * (x mod 2 ^ s)) + 256 * (x / 2 ^ s)).
    + rewrite land_cons.
      * rewrite land_low.
        -- reflexivity.
        -- lia.
        -- destruct Hs as [[-> _]|[-> _]]; small_pows; Z.div_mod_to_equations; lia.
        -- destruct Hs as [[-> ?]|[-> ?]]; small_pows; lia.
      * destruct Hs as [[-> _]|[-> _]]; small_pows; Z.div_mod_to_equations; lia.
      * destruct Hs as [[-> ?]|[-> ?]]; lia.
    + destruct Hs as [[-> _]|[-> _]]; small_pows; Z.div_mod_to_equations; lia.
Qed.

(** The third step: adjacent 4-bit counts are added within each byte. *)
Definition small_nibbles (d : Z) : Prop := 0 <= d /\ d mod 16 <= 4 /\ d / 16 <= 4.

Lemma small_nibbles_val : forall ds, Forall small_nibbles ds ->
  0 <= val ds /\ val ds mod 16 <= 4.
Proof.
  induction 1 as [|d ds Hd _ IH]; cbn [val]; [cbn; lia|].
  unfold small_nibbles in Hd. Z.div_mod_to_equations. lia.
Qed.

Lemma val_halves : forall ds, Forall small_nibbles ds ->
  Z.land (val ds + Z.shiftr (val ds) 4) (val (repeat 15 (length ds)))
  = val (map halves ds).
Proof.
  induction 1 as [|d ds Hd Hds IH]; [reflexivity|].
  cbn [val length repeat map]. rewrite <- IH.
  destruct (small_nibbles_val ds Hds) as [Hy Hy4]. unfold small_nibbles in Hd.
  set (y := val ds) in *. set (M := val (repeat 15 (length ds))). clearbody y M.
  rewrite !Z.shiftr_div_pow2 by lia. change (2 ^ 4) with 16.
  replace (d + 256 * y + (d + 256 * y) / 16)
    with ((d + d / 16 + 16 * (y mod 16)) + 256 * (y + y / 16))
    by (Z.div_mod_to_equations; lia).
  rewrite land_cons by (Z.div_mod_to_equations; lia).
  change 15 with (Z.ones 4) at 1. rewrite Z.land_ones by lia. change (2 ^ 4) with 16.
  unfold halves. f_equal. Z.div_mod_to_equations. lia.
Qed.

(** The multiplication by [HEXI_ONES] adds the eight bytes up in the top
    byte. *)
Lemma top_byte_sum : forall cs, length cs = 8%nat -> Forall (fun c => 0 <= c <= 8) cs ->
  Z.shiftr (Go.u64 (val cs * Hamt64.HEXI_ONES)) 56 = sumZ cs.
Proof.
  intros cs Hl H.
  destruct cs as [|a [|b [|c [|d [|e [|f [|g [|h [|? ?]]]]]]]]]; try discriminate.
  repeat match goal with
         | H : Forall _ (_ :: _) |- _ => inversion H; subst; clear H
         end.
  cbn [val sumZ fold_right]. unfold Go.u64, Hamt64.HEXI_ONES.
  rewrite Z.shiftr_div_pow2 by lia.
  change (2 ^ 64) with 18446744073709551616. change (2 ^ 56) with 72057594037927936.
  set (R := a + 256 * ((a + b) + 256 * ((a + b + c) + 256 * ((a + b + c + d)
            + 256 * ((a + b + c + d + e) + 256 * ((a + b + c + d + e + f)
            + 256 * (a + b + c + d + e + f + g))))))).
  set (Q := (b + c + d + e + f + g + h) + 256 * ((c + d + e + f + g + h)
            + 256 * ((d + e + f + g + h) + 256 * ((e + f + g + h)
            + 256 * ((f + g + h) + 256 * ((g + h) + 256 * h)))))).
  set (S := a + b + c + d + e + f + g + h).
  replace ((a + 256 * (b + 256 * (c + 256 * (d + 256 * (e + 256 * (f + 256 * (g
             + 256 * (h + 256 * 0)))))))) * 72340172838076673)
    with ((R + S * 72057594037927936) + Q * 18446744073709551616)
    by (unfold R, Q, S; ring).
  assert (HR : 0 <= R < 72057594037927936) by (unfold R; lia).
  assert (HS : 0 <= S <= 64) by (unfold S; lia).
  rewrite Z.mod_add by lia.
  rewrite (Z.mod_small (R + S * 72057594037927936)) by lia.
  rewrite Z.div_add by lia. rewrite (Z.div_small R) by lia.
  unfold S. lia.
Qed.

(** Every byte, checked one by one. *)
Lemma byte_cases : forall P : Z -> bool,
  forallb P (map Z.of_nat (seq 0 256)) = true ->
  forall b, 0 <= b < 256 -> P b = true.
Proof.
  intros P H b Hb. rewrite forallb_forall in H. apply H.
  apply in_map_iff. exists (Z.to_nat b). split; [lia|]. apply in_seq. lia.
Qed.

Lemma byte_steps : forall b, 0 <= b < 256 ->
  (0 <= pairs b < 256)
  /\ (0 <= nibbles (pairs b) < 256)
  /\ small_nibbles (nibbles (pairs b))
  /\ halves (nibbles (pairs b)) = Hamt32.popcount_below 8 b.
Proof.
  intros b Hb.
  pose proof (byte_cases
    (fun b => (0 <=? pairs b) && (pairs b <? 256)
              && (0 <=? nibbles (pairs b)) && (nibbles (pairs b) <? 256)
              && (nibbles (pairs b) mod 16 <=? 4) && (nibbles (pairs b) / 16 <=? 4)
              && (halves (nibbles (pairs b)) =? Hamt32.popcount_below 8 b))
    ltac:(vm_compute; reflexivity) b Hb) as H.
  cbv beta in H. rewrite !andb_true_iff in H.
  destruct H as [[[[[[H1 H2] H3] H4] H5] H6] H7].
  unfold small_nibbles. lia.
Qed.

(** Counting the bits of a number byte by byte. *)
Lemma popcount_below_split : forall k b x, 0 <= b < 256 ->
  Hamt32.popcount_below (8 + k) (b + 256 * x)
  = Hamt32.popcount_below 8 b + Hamt32.popcount_below k x.
Proof.
  intros k b x Hb. induction k as [|k IH].
  - rewrite Nat.add_0_r. change (Hamt32.popcount_below 0 x) with 0. rewrite Z.add_0_r.
    apply Popcount.popcount_below_ext. intros j Hj.
    rewrite <- (Z.mod_pow2_bits_low (b + 256 * x) 8 j) by lia.
    change (2 ^ 8) with 256. f_equal. Z.div_mod_to_equations. lia.
  - replace (8 + S k)%nat with (S (8 + k)) by lia.
    change (Hamt32.popcount_below (S (8 + k)) (b + 256 * x))
      with (Hamt32.popcount_below (8 + k) (b + 256 * x)
            + (if Z.testbit (b + 256 * x) (Z.of_nat (8 + k)) then 1 else 0)).
    change (Hamt32.popcount_below (S k) x)
      with (Hamt32.popcount_below k x + (if Z.testbit x (Z.of_nat k) then 1 else 0)).
    rewrite IH.
    replace (Z.testbit (b + 256 * x) (Z.of_nat (8 + k))) with (Z.testbit x (Z.of_nat k)); [lia|].
    replace (Z.of_nat (8 + k)) with (Z.of_nat k + 8) by lia.
    rewrite <- Z.div_pow2_bits by lia. change (2 ^ 8) with 256.
    f_equal. Z.div_mod_to_equations. lia.
Qed.

Lemma popcount_below_val : forall bs, Forall byte_ok bs ->
  Hamt32.popcount_below (8 * length bs) (val bs) = sumZ (map (Hamt32.popcount_below 8) bs).
Proof.
  induction 1 as [|b bs Hb _ IH]; [reflexivity|].
  cbn [length val map sumZ fold_right].
  replace (8 * S (length bs))%nat with (8 + 8 * length bs)%nat by lia.
  rewrite popcount_below_split by exact Hb. fold (sumZ (map (Hamt32.popcount_below 8) bs)).
  now rewrite IH.
Qed.

Lemma popcount_below_filter : forall k n,
  Hamt32.popcount_below k n
  = Z.of_nat (length (filter (fun i => Z.testbit n (Z.of_nat i)) (seq 0 k))).
Proof.
  induction k as [|k IH]; intros n; [reflexivity|].
  change (Hamt32.popcount_below (S k) n)
    with (Hamt32.popcount_below k n + (if Z.testbit n (Z.of_nat k) then 1 else 0)).
  rewrite seq_S, filter_app, length_app, IH. cbn [filter Nat.add].
  destruct (Z.testbit n (Z.of_nat k)); cbn [length]; lia.
Qed.

Lemma BitCount64_popcount : forall n, 0 <= n < 2 ^ 64 ->
  Hamt64.BitCount64 n = Hamt32.popcount_below 64 n.
Proof.
  intros n Hn.
  set (bs := bytes_of 8 n).
  assert (Hok : Forall byte_ok bs) by apply bytes_of_ok.
  assert (Hlen : length bs = 8%nat) by apply bytes_of_length.
  assert (Hval : val bs = n) by (apply val_bytes_of; exact Hn).
  assert (Hsteps : forall b, In b bs -> _) by
    (intros b Hb; exact (byte_steps b (proj1 (Forall_forall _ _) Hok b Hb))).
  set (bs1 := map pairs bs). set (bs2 := map nibbles bs1).
  assert (Hok1 : Forall byte_ok bs1).
  { apply Forall_forall. intros c Hc. apply in_map_iff in Hc as (b & <- & Hb).
    apply (Hsteps b Hb). }
  assert (Hlen1 : length bs1 = 8%nat) by (unfold bs1; now rewrite length_map).
  assert (Hsm2 : Forall small_nibbles bs2).
  { apply Forall_forall. intros c Hc. apply in_map_iff in Hc as (c1 & <- & Hc1).
    apply in_map_iff in Hc1 as (b & <- & Hb). apply (Hsteps b Hb). }
  assert (Hlen2 : length bs2 = 8%nat) by (unfold bs2; now rewrite length_map).
  assert (Hr1 : 0 <= val bs1 < 2 ^ 64).
  { pose proof (val_bound 255 bs1) as Hb. rewrite Hlen1 in Hb.
    change (val (repeat 1 8)) with 72340172838076673 in Hb.
    assert (Forall (fun b => 0 <= b <= 255) bs1)
      by (eapply Forall_impl; [|exact Hok1]; unfold byte_ok; intros; lia).
    specialize (Hb H). lia. }
  assert (Hr2 : 0 <= val bs2 <= 68 * 72340172838076673).
  { pose proof (val_bound 68 bs2) as Hb. rewrite Hlen2 in Hb.
    change (val (repeat 1 8)) with 72340172838076673 in Hb. apply Hb.
    eapply Forall_impl; [|exact Hsm2]. unfold small_nibbles. intros d Hd.
    Z.div_mod_to_equations. lia. }
  (* first step: the counts of the pairs of bits *)
  assert (A1 : Go.u64 (n - Z.land (Z.shiftr n 1) Hamt64.HEXI_FIVES) = val bs1).
  { rewrite <- Hval.
    replace Hamt64.HEXI_FIVES with (val (repeat 0x55 (length bs)))
      by (rewrite Hlen; reflexivity).
    rewrite (val_shift_land 1 0x55 bs) by (auto; left; lia).
    rewrite (val_sub (fun b => Z.land (Z.shiftr b 1) 0x55) bs).
    change (val (map (fun b => b - Z.land (Z.shiftr b 1) 85) bs)) with (val bs1).
    apply GoFacts.u64_small. exact Hr1. }
  (* second step: the counts of the groups of four bits *)
  assert (A2 : Go.u64 (Z.land (val bs1) Hamt64.HEXI_THREES
                       + Z.land (Z.shiftr (val bs1) 2) Hamt64.HEXI_THREES) = val bs2).
  { replace Hamt64.HEXI_THREES with (val (repeat 0x33 (length bs1)))
      by (rewrite Hlen1; reflexivity).
    rewrite (val_land 0x33 bs1) by (auto; lia).
    rewrite (val_shift_land 2 0x33 bs1) by (auto; right; lia).
    rewrite (val_add (fun b => Z.land b 0x33) (fun b => Z.land (Z.shiftr b 2) 0x33) bs1).
    change (val (map (fun b => Z.land b 51 + Z.land (Z.shiftr b 2) 51) bs1)) with (val bs2).
    apply GoFacts.u64_small. lia. }
  (* third step: the counts of the bytes *)
  assert (A3 : Z.land (Go.u64 (val bs2 + Z.shiftr (val bs2) 4)) Hamt64.HEXI_FS
               = val (map (Hamt32.popcount_below 8) bs)).
  { rewrite (GoFacts.u64_small (val bs2 + Z.shiftr (val bs2) 4)).
    2:{ rewrite Z.shiftr_div_pow2 by lia. change (2 ^ 4) with 16.
        Z.div_mod_to_equations. lia. }
    replace Hamt64.HEXI_FS with (val (repeat 15 (length bs2)))
      by (rewrite Hlen2; reflexivity).
    rewrite (val_halves bs2 Hsm2). f_equal.
    unfold bs2, bs1. rewrite !map_map. apply map_ext_in. intros b Hb.
    apply (Hsteps b Hb). }
  unfold Hamt64.BitCount64. cbv zeta. rewrite A1, A2, A3.
  rewrite top_byte_sum.
  - rewrite <- (popcount_below_val bs Hok), Hlen, Hval. reflexivity.
  - now rewrite length_map.
  - apply Forall_forall. intros c Hc. apply in_map_iff in Hc as (b & <- & _).
    pose proof (Popcount.popcount_below_bounds 8 b). lia.
Qed.

(** The count of the bits below bit [i], as [get] and [set] compute it. *)
Lemma BitCount64_below : forall m i, 0 <= m < 2 ^ 64 -> 0 <= i <= 64 ->
  Hamt64.BitCount64 (Z.land m (2 ^ i - 1)) = Popcount.rank m i.
Proof.
  intros m i Hm Hi.
  replace (2 ^ i - 1) with (Z.ones i) by (rewrite Z.ones_equiv; lia).
  rewrite BitCount64_popcount.
  - rewrite Popcount.popcount_below_land_ones by lia. unfold Popcount.rank.
    f_equal. lia.
  - rewrite Z.land_ones by lia. pose proof (Z.mod_pos_bound m (2 ^ i)).
    assert (0 < 2 ^ i) by (apply Z.pow_pos_nonneg; lia).
    assert (2 ^ i <= 2 ^ 64) by (apply Z.pow_le_mono_r; lia). lia.
Qed.

(** X20: [BitCount64] returns the number of set bits of its argument, for
    every 64-bit value: a number between 0 and 64. *)
Theorem BitCount64_counts_bits : forall n, 0 <= n < 2 ^ 64 ->
  Hamt64.BitCount64 n = ones_of n /\ 0 <= Hamt64.BitCount64 n <= 64.
Proof.
  intros n Hn. rewrite (BitCount64_popcount n Hn). split.
  - unfold ones_of. apply popcount_below_filter.
  - pose proof (Popcount.popcount_below_bounds 64 n). lia.
Qed.

Lemma BitCount64_counts_bits_witness :
  Hamt64.BitCount64 0xF0F0000000000001 = ones_of 0xF0F0000000000001
  /\ 0 <= Hamt64.BitCount64 0xF0F0000000000001 <= 64.
Proof. apply (BitCount64_counts_bits 0xF0F0000000000001). lia. Defined.

End BitCount.

(** * The compressed table of package hamt *)
Module Tables64.
Import Hamt64 GoFacts.

Section WithValues.
Variable V : Type.

(** A table as the constructors lay it out: as many children as the bitmap
    has bits. *)
Definition laid_out (t : table V) : Prop :=
  0 <= table_depth V t <= MAXDEPTH
  /\ 0 <= table_nodeMap V t < 2 ^ 64
  /\ Z.of_nat (length (table_nodes V t)) = BitCount64 (table_nodeMap V t).

(** The child of a slot: the child at the position given by the number of
    occupied slots below it. *)
Definition child_of (t : table V) (i : Z) : node V :=
  if Z.testbit (table_nodeMap V t) i
  then nth (Z.to_nat (BitCount.ones_of (Z.land (table_nodeMap V t) (Z.ones i))))
           (table_nodes V t) nilNode
  else nilNode.

Lemma slot_bit : forall i, 0 <= i < 64 -> Go.shl64 1 i = 2 ^ i.
Proof.
  intros i H. unfold Go.shl64. rewrite Z.shiftl_1_l. apply u64_small.
  split; [apply Z.pow_nonneg; lia|]. apply Z.pow_lt_mono_r; lia.
Qed.

Lemma slot_mask : forall i, 0 <= i < 64 -> Go.u64 (2 ^ i - 1) = 2 ^ i - 1.
Proof.
  intros i H. apply u64_small.
  assert (0 < 2 ^ i) by (apply Z.pow_pos_nonneg; lia).
  assert (2 ^ i < 2 ^ 64) by (apply Z.pow_lt_mono_r; lia). lia.
Qed.

Lemma ones_of_rank : forall m i, 0 <= i <= 64 ->
  BitCount.ones_of (Z.land m (Z.ones i)) = Popcount.rank m i.
Proof.
  intros m i Hi. unfold BitCount.ones_of. rewrite <- BitCount.popcount_below_filter.
  rewrite Popcount.popcount_below_land_ones by lia. unfold Popcount.rank. f_equal. lia.
Qed.

Lemma nth_by_nth_error : forall (A : Type) (l l' : list A) n d,
  nth_error l n = nth_error l' n -> nth n l d = nth n l' d.
Proof.
  intros A l l' n d H. rewrite <- !nth_default_eq. unfold nth_default. now rewrite H.
Qed.

Lemma rank_64 : forall m, Popcount.rank m 64 = Hamt32.popcount_below 64 m.
Proof. intros m. reflexivity. Qed.

Lemma one_bit : forall i, 0 <= i < 64 -> Hamt32.popcount_below 64 (2 ^ i) = 1.
Proof.
  intros i Hi. rewrite <- (Z.lor_0_l (2 ^ i)), Popcount.popcount_below_set by lia.
  rewrite Z.testbit_0_l. destruct (Z.ltb_spec i (Z.of_nat 64)); [|lia].
  rewrite <- rank_64, TrieFacts.rank_empty. reflexivity.
Qed.

Lemma rank_one_bit : forall i, 0 <= i -> Popcount.rank (2 ^ i) i = 0.
Proof.
  intros i Hi. rewrite <- (Z.lor_0_l (2 ^ i)), Popcount.rank_set by lia.
  rewrite Z.ltb_irrefl, TrieFacts.rank_empty. reflexivity.
Qed.

Lemma rank_lt_length : forall (t : table V) i, laid_out t -> 0 <= i < 64 ->
  Z.testbit (table_nodeMap V t) i = true ->
  0 <= Popcount.rank (table_nodeMap V t) i < Z.of_nat (length (table_nodes V t)).
Proof.
  intros t i (_ & Hm & Hl) Hi Hb. rewrite Hl, BitCount.BitCount64_popcount by exact Hm.
  pose proof (Popcount.rank_bounds (table_nodeMap V t) i ltac:(lia)).
  pose proof (Popcount.rank_lt (table_nodeMap V t) i 64 ltac:(lia) Hb) as Hlt.
  rewrite rank_64 in Hlt. lia.
Qed.

Lemma rank_le_length : forall (t : table V) i, laid_out t -> 0 <= i < 64 ->
  0 <= Popcount.rank (table_nodeMap V t) i <= Z.of_nat (length (table_nodes V t)).
Proof.
  intros t i (_ & Hm & Hl) Hi. rewrite Hl, BitCount.BitCount64_popcount by exact Hm.
  pose proof (Popcount.rank_bounds (table_nodeMap V t) i ltac:(lia)).
  pose proof (Popcount.rank_mono (table_nodeMap V t) i 64 ltac:(lia)) as Hle.
  rewrite rank_64 in Hle. lia.
Qed.

(** [get] on a laid-out table, by the slot of the hashcode. *)
Lemma table_get_slot : forall (t : table V) hash, laid_out t ->
  table_get V t hash = Ok (child_of t (index hash (table_depth V t))).
Proof.
  intros t hash Hlo. pose proof Hlo as (Hd & Hm & Hl).
  pose proof (BitUtilities.index64_range hash (table_depth V t) Hd) as Hi.
  unfold table_get, child_of. set (i := index hash (table_depth V t)) in *.
  rewrite slot_bit by exact Hi. rewrite Popcount.land_pow2_eq0 by lia.
  destruct (Z.testbit (table_nodeMap V t) i) eqn:Hb; cbn [negb]; [|reflexivity].
  rewrite slot_mask by exact Hi. rewrite BitCount.BitCount64_below by (try exact Hm; lia).
  rewrite ones_of_rank by lia.
  pose proof (rank_lt_length t i Hlo Hi Hb) as Hr.
  rewrite SliceFacts.index_slice_nth by lia.
  destruct (nth_error (table_nodes V t) (Z.to_nat (Popcount.rank (table_nodeMap V t) i)))
    as [nd|] eqn:E.
  - f_equal. symmetry. apply nth_error_nth. exact E.
  - apply nth_error_None in E. lia.
Qed.

(** A table with an empty bitmap answers nil, whatever its children. *)
Lemma table_get_zero_map : forall a hp d nodes hash,
  table_get V (compressedTable a hp d 0 nodes) hash = Ok nilNode.
Proof. intros a hp d nodes hash. unfold table_get. cbn [table_nodeMap]. reflexivity. Qed.

(** X21: [get] on a table laid out with as many children as its bitmap has
    bits returns for every hashcode: nil when the bit of the hashcode's slot
    is clear, and otherwise the child at the position given by the number
    of set bits below that bit.  It never indexes out of range. *)
Theorem table_get64_finds_child : forall (t : table V) (hash : Z),
  laid_out t ->
  table_get V t hash = Ok (child_of t (index hash (table_depth V t))).
Proof. intros t hash Hlo. apply table_get_slot. exact Hlo. Qed.

(** [set] on a laid-out table: the copy it returns is the object at the next
    free address. *)
Lemma table_set_slot : forall (t : table V) (hash : Z) (newNode : node V) (next : Z),
  laid_out t ->
  exists t',
    table_set V t hash newNode next = Ok (t', next + 1)
    /\ table_ptr V t' = next
    /\ table_hashcode V t' = table_hashcode V t
    /\ table_depth V t' = table_depth V t
    /\ if Z.testbit (table_nodeMap V t) (index hash (table_depth V t))
       then laid_out t'
            /\ forall h, table_get V t' h
                         = if index h (table_depth V t) =? index hash (table_depth V t)
                           then Ok newNode else table_get V t h
       else table_nodeMap V t' = 0
            /\ Z.of_nat (length (table_nodes V t')) = Z.of_nat (length (table_nodes V t)) + 1
            /\ forall h, table_get V t' h = Ok nilNode.
Proof.
  intros t hash newNode next Hlo. pose proof Hlo as (Hd & Hm & Hl).
  pose proof (BitUtilities.index64_range hash (table_depth V t) Hd) as Hi.
  unfold table_set. set (i := index hash (table_depth V t)) in *.
  rewrite slot_bit by exact Hi. rewrite Popcount.land_pow2_eq0 by lia.
  rewrite slot_mask by exact Hi. rewrite BitCount.BitCount64_below by (try exact Hm; lia).
  set (r := Popcount.rank (table_nodeMap V t) i).
  destruct (Z.testbit (table_nodeMap V t) i) eqn:Hb; cbn [negb].
  - pose proof (rank_lt_length t i Hlo Hi Hb) as Hr. fold r in Hr.
    rewrite SliceFacts.store_slice_ok by lia. cbn [Go.bind].
    eexists. split; [reflexivity|]. cbn [table_ptr table_hashcode table_depth].
    do 3 (split; [reflexivity|]).
    assert (Hlo' : laid_out (compressedTable next (table_hashcode V t) (table_depth V t)
                     (table_nodeMap V t)
                     (firstn (Z.to_nat r) (table_nodes V t)
                      ++ newNode :: skipn (S (Z.to_nat r)) (table_nodes V t)))).
    { unfold laid_out. cbn [table_depth table_nodeMap table_nodes].
      rewrite SliceFacts.length_store by lia. auto. }
    split; [exact Hlo'|]. intros h.
    rewrite (table_get_slot _ h Hlo'). cbn [table_depth].
    pose proof (BitUtilities.index64_range h (table_depth V t) Hd) as Hj.
    set (j := index h (table_depth V t)) in *.
    unfold child_of. cbn [table_nodeMap table_nodes].
    destruct (Z.eqb_spec j i) as [->|Hne].
    + rewrite Hb, ones_of_rank by lia. fold r. f_equal.
      apply nth_error_nth. rewrite SliceFacts.nth_error_store by lia.
      now rewrite Nat.eqb_refl.
    + rewrite (table_get_slot t h Hlo). fold j. unfold child_of. f_equal.
      destruct (Z.testbit (table_nodeMap V t) j) eqn:Hbj; [|reflexivity].
      rewrite ones_of_rank by lia.
      pose proof (rank_lt_length t j Hlo Hj Hbj) as Hrj.
      set (q := Popcount.rank (table_nodeMap V t) j) in *.
      assert (Hqr : q <> r).
      { unfold q, r. destruct (Z.lt_total j i) as [Hlt|[Heq|Hgt]]; [| lia |].
        - pose proof (Popcount.rank_lt (table_nodeMap V t) j i ltac:(lia) Hbj). lia.
        - pose proof (Popcount.rank_lt (table_nodeMap V t) i j ltac:(lia) Hb). lia. }
      apply nth_by_nth_error. rewrite SliceFacts.nth_error_store by lia.
      destruct (Nat.eqb_spec (Z.to_nat q) (Z.to_nat r)); [lia|reflexivity].
  - pose proof (rank_le_length t i Hlo Hi) as Hr. fold r in Hr.
    rewrite SliceFacts.insert_slice_ok by lia. cbn [Go.bind].
    eexists. split; [reflexivity|].
    cbn [table_ptr table_hashcode table_depth table_nodeMap table_nodes].
    do 3 (split; [reflexivity|]).
    assert (Hz : Z.land (table_nodeMap V t) (2 ^ i) = 0)
      by (rewrite Popcount.land_pow2, Hb by lia; reflexivity).
    rewrite Hz. split; [reflexivity|]. split.
    + rewrite SliceFacts.length_insert by lia. lia.
    + intros h. apply table_get_zero_map.
Qed.

(** X22: [set] on a laid-out table returns a table, the copy allocated at
    the next free address.  When the slot of the hashcode is occupied, the
    table returned is laid out, [get] returns the new node for the hashcodes
    of that slot and what it returned before for the others.  When the slot
    is empty, the bitmap of the table returned is zero ([nt.nodeMap &= bit])
    and [get] returns nil for every hashcode: the new node and all the
    children the table had are out of reach. *)
Theorem table_set64_then_get :
  forall (t : table V) (hash : Z) (newNode : node V) (next : Z),
  laid_out t ->
  exists t',
    table_set V t hash newNode next = Ok (t', next + 1)
    /\ table_ptr V t' = next
    /\ table_hashcode V t' = table_hashcode V t
    /\ table_depth V t' = table_depth V t
    /\ if Z.testbit (table_nodeMap V t) (index hash (table_depth V t))
       then laid_out t'
            /\ forall h, table_get V t' h
                         = if index h (table_depth V t) =? index hash (table_depth V t)
                           then Ok newNode else table_get V t h
       else table_nodeMap V t' = 0
            /\ Z.of_nat (length (table_nodes V t')) = Z.of_nat (length (table_nodes V t)) + 1
            /\ forall h, table_get V t' h = Ok nilNode.
Proof. intros t hash newNode next Hlo. apply table_set_slot. exact Hlo. Qed.

(** The loop of [NewCompressedTable2] returns the table at [curPtr] with the
    given fields, whose [get] answers nil. *)
Lemma NewCompressedTable2_loop_nil : forall n d hashPath curPtr curHashPath curDepth
    (leaf1 : leafI V) (leaf2 : flatLeaf V) next,
  0 <= d <= MAXDEPTH -> curDepth = d -> (Z.to_nat (MAXDEPTH - d) < n)%nat ->
  exists t next',
    NewCompressedTable2_loop V n d hashPath curPtr curHashPath curDepth leaf1 leaf2 next
    = Ok (t, next')
    /\ next <= next'
    /\ table_ptr V t = curPtr
    /\ table_hashcode V t = curHashPath /\ table_depth V t = curDepth
    /\ forall h, table_get V t h = Ok nilNode.
Proof.
  induction n as [|n IH];
    intros d hashPath curPtr curHashPath curDepth leaf1 leaf2 next Hd -> Hn; [lia|].
  cbn [NewCompressedTable2_loop]. unfold MAXDEPTH in *.
  destruct (Z.ltb_spec d 9) as [Hlt|Hge].
  - set (idx1 := index (Leaves.hashcode leaf1) d).
    set (idx2 := index (Leaves.fl_hash leaf2) d).
    assert (Hi1 : 0 <= idx1 < 64) by (apply BitUtilities.index64_range; unfold MAXDEPTH; lia).
    destruct (idx1 =? idx2) eqn:E; cbn [negb].
    + rewrite (u64_small (d + 1)) by lia.
      destruct (IH (d + 1) hashPath next
                  (Z.land hashPath (Go.shl64 idx1 (Go.u64 ((d + 1) * NBITS))))
                  (d + 1) leaf1 leaf2 (next + 1) ltac:(lia) eq_refl ltac:(lia))
        as (nt & next' & Hnt & Hle & _). rewrite Hnt. cbn [Go.bind].
      do 2 eexists. split; [reflexivity|]. split; [lia|].
      cbn [table_ptr table_hashcode table_depth].
      do 3 (split; [reflexivity|]). intros h.
      unfold table_get. cbn [table_nodeMap table_depth table_nodes].
      pose proof (BitUtilities.index64_range h d ltac:(unfold MAXDEPTH; lia)) as Hj.
      set (j := index h d) in *.
      rewrite (slot_bit j) by exact Hj. rewrite (slot_bit idx1) by exact Hi1.
      rewrite Popcount.land_pow2_eq0 by lia. rewrite Popcount.testbit_pow2 by lia.
      destruct (Z.eqb_spec j idx1) as [->|Hne]; cbn [negb]; [|reflexivity].
      rewrite slot_mask by exact Hi1.
      replace (Z.land (2 ^ idx1) (2 ^ idx1 - 1)) with 0; [reflexivity|].
      replace (2 ^ idx1 - 1) with (Z.ones idx1) by (rewrite Z.ones_equiv; lia).
      rewrite Z.land_ones by lia. symmetry. apply Z.mod_same.
      apply Z.pow_nonzero; lia.
    + do 2 eexists. split; [reflexivity|]. split; [lia|].
      cbn [table_ptr table_hashcode table_depth].
      do 3 (split; [reflexivity|]). intros h.
      rewrite Z.land_0_l. apply table_get_zero_map.
  - assert (d = 9) by lia. subst d. cbn [Z.eqb Pos.eqb].
    destruct (leaf_put V leaf1 (Leaves.fl_key leaf2) (Leaves.fl_val leaf2)) as [lf b].
    assert (Hset : exists r, table_set V (compressedTable curPtr curHashPath 9 0 [])
                               (Leaves.hashcode lf) (leafNode lf) next = Ok (r, next + 1)).
    { unfold table_set. cbn [table_nodeMap table_depth table_nodes table_hashcode].
      rewrite !Z.land_0_l. cbn [Z.eqb]. change (BitCount64 0) with 0.
      cbn. eexists. reflexivity. }
    destruct Hset as (r & Hr). rewrite Hr. cbn [Go.bind].
    do 2 eexists. split; [reflexivity|]. split; [lia|].
    cbn [table_ptr table_hashcode table_depth].
    do 3 (split; [reflexivity|]). intros h. apply table_get_zero_map.
Qed.

Lemma NewCompressedTable2_nil :
  forall (depth hashPath : Z) (leaf1 : leafI V) (leaf2 : flatLeaf V) (next : Z),
  0 <= depth <= MAXDEPTH ->
  exists t next',
    NewCompressedTable2 V depth hashPath leaf1 leaf2 next = Ok (t, next')
    /\ next < next' /\ table_ptr V t = next
    /\ table_hashcode V t = hashPath /\ table_depth V t = depth
    /\ forall h, table_get V t h = Ok nilNode.
Proof.
  intros depth hashPath leaf1 leaf2 next Hd. unfold NewCompressedTable2.
  change (Go.u64 (MAXDEPTH + 1)) with 10. unfold MAXDEPTH in Hd.
  destruct (Z.ltb_spec depth 10); [|lia]. cbn [ASSERT Go.bind].
  destruct (NewCompressedTable2_loop_nil (S (Z.to_nat MAXDEPTH)) depth hashPath next hashPath
              depth leaf1 leaf2 (next + 1) ltac:(unfold MAXDEPTH; lia) eq_refl
              ltac:(unfold MAXDEPTH; lia)) as (t & next' & Hloop & Hle & Hrest).
  exists t, next'. split; [exact Hloop|]. split; [lia|]. exact Hrest.
Qed.

(** [NewCompressedTable]: the table of one leaf. *)
Lemma NewCompressedTable_slot :
  forall (depth hashPath : Z) (lf : leafI V) (next : Z),
  0 <= depth < 2 ^ 64 ->
  if depth <=? MAXDEPTH
  then exists t,
         NewCompressedTable V depth hashPath lf next = Ok (t, next + 1)
         /\ table_ptr V t = next
         /\ laid_out t /\ table_hashcode V t = hashPath
         /\ forall h, table_get V t h
                      = Ok (if index h depth =? index (Leaves.hashcode lf) depth
                            then leafNode lf else nilNode)
  else NewCompressedTable V depth hashPath lf next = Panic ExplicitPanic.
Proof.
  intros depth hashPath lf next Hr. unfold NewCompressedTable, MAXDEPTH.
  change (Go.u64 (9 + 1)) with 10.
  destruct (Z.leb_spec depth 9) as [Hd|Hd].
  - destruct (Z.ltb_spec depth 10); [|lia]. cbn [ASSERT Go.bind].
    pose proof (BitUtilities.index64_range (Leaves.hashcode lf) depth
                  ltac:(unfold MAXDEPTH; lia)) as Hi.
    set (i := index (Leaves.hashcode lf) depth) in *.
    rewrite slot_bit by exact Hi.
    assert (Hp : 0 <= 2 ^ i < 2 ^ 64)
      by (split; [apply Z.pow_nonneg; lia|apply Z.pow_lt_mono_r; lia]).
    assert (Hlo : laid_out (compressedTable next hashPath depth (2 ^ i) [leafNode lf])).
    { unfold laid_out. cbn [table_depth table_nodeMap table_nodes length].
      unfold MAXDEPTH. repeat split; try lia.
      rewrite BitCount.BitCount64_popcount by exact Hp. rewrite one_bit by exact Hi.
      reflexivity. }
    eexists. split; [reflexivity|]. split; [reflexivity|].
    split; [exact Hlo|]. split; [reflexivity|].
    intros h. rewrite (table_get_slot _ h Hlo). cbn [table_depth]. f_equal.
    pose proof (BitUtilities.index64_range h depth ltac:(unfold MAXDEPTH; lia)) as Hj.
    set (j := index h depth) in *. unfold child_of. cbn [table_nodeMap table_nodes].
    rewrite Popcount.testbit_pow2 by lia.
    destruct (Z.eqb_spec j i) as [->|Hne]; [|reflexivity].
    rewrite ones_of_rank by lia. rewrite rank_one_bit by lia. reflexivity.
  - destruct (Z.ltb_spec depth 10); [lia|]. reflexivity.
Qed.

(** X23: [NewCompressedTable] builds a laid-out table of one child, the
    object at the next free address: [get] returns the leaf for the
    hashcodes of the leaf's slot at that depth and nil for the others; above
    [MAXDEPTH] the call panics. *)
Theorem NewCompressedTable64_single_child :
  forall (depth hashPath : Z) (lf : leafI V) (next : Z),
  0 <= depth < 2 ^ 64 ->
  if depth <=? MAXDEPTH
  then exists t,
         NewCompressedTable V depth hashPath lf next = Ok (t, next + 1)
         /\ table_ptr V t = next
         /\ laid_out t /\ table_hashcode V t = hashPath
         /\ forall h, table_get V t h
                      = Ok (if index h depth =? index (Leaves.hashcode lf) depth
                            then leafNode lf else nilNode)
  else NewCompressedTable V depth hashPath lf next = Panic ExplicitPanic.
Proof. intros depth hashPath lf next Hr. apply NewCompressedTable_slot. exact Hr. Qed.

(** X24: [NewCompressedTable2] returns, for every pair of leaves and every
    depth up to [MAXDEPTH], a table with the given hash path and depth whose
    [get] returns nil for every hashcode: with different slots the bitmap is
    and-ed to zero, with the same slot the sub-table is appended behind two
    nil children, and at [MAXDEPTH] the table [set] returns is dropped.
    Neither leaf can be found in it. *)
Theorem NewCompressedTable2_64_hides_leaves :
  forall (depth hashPath : Z) (leaf1 : leafI V) (leaf2 : flatLeaf V) (next : Z),
  0 <= depth <= MAXDEPTH ->
  exists t next',
    NewCompressedTable2 V depth hashPath leaf1 leaf2 next = Ok (t, next')
    /\ next < next' /\ table_ptr V t = next
    /\ table_hashcode V t = hashPath /\ table_depth V t = depth
    /\ forall h, table_get V t h = Ok nilNode.
Proof. intros depth hashPath leaf1 leaf2 next Hd. apply NewCompressedTable2_nil. exact Hd. Qed.

End WithValues.

Definition sample_table : table Z :=
  compressedTable 7 0 0 5 [leafNode (Leaves.FlatVal (Leaves.mkFlatLeaf 0 [] 1));
                           leafNode (Leaves.FlatVal (Leaves.mkFlatLeaf 2 [] 2))].

Lemma sample_table_laid_out : laid_out Z sample_table.
Proof. unfold laid_out, sample_table, MAXDEPTH. cbn. vm_compute. intuition congruence. Qed.

Lemma table_get64_finds_child_witness :
  table_get Z sample_table 2 = Ok (child_of Z sample_table (index 2 (table_depth Z sample_table))).
Proof. apply (table_get64_finds_child Z sample_table 2). exact sample_table_laid_out. Defined.

Lemma table_set64_then_get_witness :
  exists t',
    table_set Z sample_table 1 nilNode 8 = Ok (t', 8 + 1)
    /\ table_ptr Z t' = 8
    /\ table_nodeMap Z t' = 0
    /\ forall h, table_get Z t' h = Ok nilNode.
Proof.
  destruct (table_set64_then_get Z sample_table 1 nilNode 8 sample_table_laid_out)
    as (t' & Hs & Hp & _ & _ & Hrest).
  exists t'. split; [exact Hs|]. split; [exact Hp|].
  change (Z.testbit (table_nodeMap Z sample_table) (index 1 (table_depth Z sample_table)))
    with false in Hrest.
  destruct Hrest as (Hz & _ & Hg). split; assumption.
Defined.

Lemma NewCompressedTable64_single_child_witness :
  exists t,
    NewCompressedTable Z 1 0 (Leaves.FlatVal (Leaves.mkFlatLeaf 64 [] 7)) 0 = Ok (t, 0 + 1)
    /\ table_get Z t 64 = Ok (leafNode (Leaves.FlatVal (Leaves.mkFlatLeaf 64 [] 7))).
Proof.
  pose proof (NewCompressedTable64_single_child Z 1 0
                (Leaves.FlatVal (Leaves.mkFlatLeaf 64 [] 7)) 0 ltac:(lia)) as H.
  change (1 <=? MAXDEPTH) with true in H. cbv iota in H.
  destruct H as (t & Ht & _ & _ & _ & Hg). exists t. split; [exact Ht|].
  rewrite Hg. reflexivity.
Defined.

Lemma NewCompressedTable2_64_hides_leaves_witness :
  exists t next',
    NewCompressedTable2 Z 0 0 (Leaves.FlatVal (Leaves.mkFlatLeaf 1 [] 1))
      (Leaves.mkFlatLeaf 2 [] 2) 0 = Ok (t, next')
    /\ 0 < next' /\ table_ptr Z t = 0
    /\ table_hashcode Z t = 0 /\ table_depth Z t = 0
    /\ forall h, table_get Z t h = Ok nilNode.
Proof.
  apply (NewCompressedTable2_64_hides_leaves Z 0 0). unfold MAXDEPTH. lia.
Defined.

End Tables64.

(** * Package hamt32_functional: Put of a key with a new hashcode *)
Module FreshHash.
Import Hamt32 GoFacts Bits32 Popcount CompressedFacts EntryFacts FullFacts TableFacts Prefix.
Import TrieFacts PutFacts.

(** An outcome other than the panic of a failed type assertion. *)
Definition quiet {A : Type} (r : result A) : bool :=
  match r with
  | Panic InterfaceConversion => false
  | _ => true
  end.

Lemma quiet_bind : forall (A B : Type) (r : result A) (f : A -> result B),
  quiet r = true -> (forall a, quiet (f a) = true) -> quiet (Go.bind r f) = true.
Proof. intros A B [a|p|] f Hr Hf; cbn; auto. Qed.

Lemma quiet_index_slice : forall (A : Type) (s : list A) i,
  quiet (Go.index_slice s i) = true.
Proof.
  intros A s i. unfold Go.index_slice. destruct (i <? 0); [reflexivity|].
  destruct (nth_error s (Z.to_nat i)); reflexivity.
Qed.

Lemma quiet_insert_slice : forall (A : Type) (s : list A) i x,
  quiet (Go.insert_slice s i x) = true.
Proof. intros A s i x. unfold Go.insert_slice. destruct (_ || _); reflexivity. Qed.

Lemma quiet_store_slice : forall (A : Type) (s : list A) i x,
  quiet (Go.store_slice s i x) = true.
Proof. intros A s i x. unfold Go.store_slice. destruct (_ || _); reflexivity. Qed.

Lemma quiet_remove_slice : forall (A : Type) (s : list A) i,
  quiet (Go.remove_slice s i) = true.
Proof. intros A s i. unfold Go.remove_slice. destruct (_ || _); reflexivity. Qed.

Section WithValues.

Variable V : Type.
Variable Hash30 : key -> Z.
Variable GradeTables : bool.

Lemma quiet_compressed_entries_loop : forall n i j nodeMap (nodes : list (node V)),
  quiet (compressed_entries_loop V n i j nodeMap nodes) = true.
Proof.
  induction n as [|n IH]; intros i j nodeMap nodes; cbn [compressed_entries_loop]; [reflexivity|].
  destruct (0 <? _); [|apply IH].
  apply quiet_bind; [apply quiet_index_slice|]. intros nd.
  apply quiet_bind; [apply IH|reflexivity].
Qed.

Lemma quiet_compressed_set : forall hp nodeMap (nodes : list (node V)) idx nn,
  quiet (compressed_set V hp nodeMap nodes idx nn) = true.
Proof.
  intros hp nodeMap nodes idx nn. unfold compressed_set. destruct nn as [n|].
  - destruct (_ =? 0).
    + apply quiet_bind; [apply quiet_insert_slice|]. intros nt_nodes.
      destruct (_ <=? _); [|reflexivity].
      apply quiet_bind; [apply quiet_compressed_entries_loop|reflexivity].
    + apply quiet_bind; [apply quiet_store_slice|reflexivity].
  - destruct (0 <? _); [|reflexivity].
    apply quiet_bind; [apply quiet_remove_slice|]. intros nt_nodes.
    destruct (_ =? 0); reflexivity.
Qed.

Lemma quiet_full_set : forall hp nodeMap (nodes : list (option (node V))) idx nn,
  quiet (full_set V GradeTables hp nodeMap nodes idx nn) = true.
Proof.
  intros hp nodeMap nodes idx nn. unfold full_set, full_store. destruct nn as [n|].
  - apply quiet_bind; [apply quiet_store_slice|reflexivity].
  - destruct (0 <? _); [|reflexivity].
    apply quiet_bind; [apply quiet_store_slice|]. intros nodes'.
    destruct (_ =? 0); [reflexivity|]. destruct (_ && _); reflexivity.
Qed.

Lemma quiet_table_set : forall (t : table V) idx nn,
  quiet (table_set V GradeTables t idx nn) = true.
Proof.
  intros [hp m ns|hp m ns] idx nn; cbn [table_set].
  - apply quiet_compressed_set.
  - apply quiet_full_set.
Qed.

Lemma quiet_copyUp : forall path (oldTable : table V) newTable,
  quiet (copyUp V GradeTables oldTable newTable path) = true.
Proof.
  induction path as [|oldParent path' IH]; intros oldTable newTable; cbn [copyUp];
    [reflexivity|].
  apply quiet_bind; [apply quiet_table_set|]. intros newParent. apply IH.
Qed.

Lemma quiet_newCompressedTable2_loop : forall n d hashPath curHashPath leaf1 leaf2,
  quiet (newCompressedTable2_loop V n d hashPath curHashPath leaf1 leaf2) = true.
Proof.
  induction n as [|n IH]; intros d hashPath curHashPath leaf1 leaf2; [reflexivity|].
  cbn [newCompressedTable2_loop].
  destruct (d <=? MAXDEPTH).
  - destruct (negb _); [reflexivity|].
    apply quiet_bind; [apply IH|reflexivity].
  - destruct (leaf_put V leaf1 (Leaves.fl_key leaf2) (Leaves.fl_val leaf2)) as [lf b].
    apply quiet_bind; [apply quiet_compressed_set|reflexivity].
Qed.

(** The leaf the loops of [Get], [Put] and [Del] reach for a hashcode: the
    first leaf on the way down through the slots of the hashcode. *)
Fixpoint leaf_on_route (n : nat) (depth h30 : Z) (curTable : table V) : option (leafI V) :=
  match n with
  | O => None
  | S n' =>
      if depth <=? MAXDEPTH then
        match table_get V curTable (index h30 depth) with
        | Ok (Some (leafNode l)) => Some l
        | Ok (Some (tableNode t)) => leaf_on_route n' (Go.u64 (depth + 1)) h30 t
        | _ => None
        end
      else None
  end.

(** The map holds a leaf of this hashcode. *)
Definition holds_hash (h : Hamt V) (h30 : Z) : bool :=
  match root h with
  | None => false
  | Some t =>
      match leaf_on_route loop_fuel 0 h30 t with
      | Some l => Leaves.hashcode l =? h30
      | None => false
      end
  end.

Definition fresh_outcome (r : result (Hamt V * bool)) : Prop :=
  match r with
  | Ok (_, inserted) => inserted = true
  | Panic p => p <> InterfaceConversion
  | OutOfFuel => True
  end.

Lemma fresh_bind : forall (A : Type) (r : result A) (f : A -> result (Hamt V * bool)),
  quiet r = true -> (forall a, fresh_outcome (f a)) -> fresh_outcome (Go.bind r f).
Proof.
  intros A [a|p|] f Hr Hf; cbn; auto. destruct p; cbn in Hr; congruence.
Qed.

Lemma Put_loop_fresh : forall n (nh : Hamt V) d h30 k v newLeaf curTable path hashPath,
  wf_table V d curTable ->
  match leaf_on_route n d h30 curTable with
  | Some l => Leaves.hashcode l =? h30
  | None => false
  end = false ->
  fresh_outcome (Put_loop V GradeTables n nh d h30 k v newLeaf curTable path hashPath).
Proof.
  induction n as [|n IH]; intros nh d h30 k v newLeaf curTable path hashPath Hwf Hfresh;
    [exact I|].
  pose proof (wf_table_depth V d curTable Hwf) as Hd.
  pose proof (wf_table_ok V d curTable Hwf) as Hok.
  pose proof (index_range h30 d Hd) as Hi.
  cbn [Put_loop leaf_on_route] in *.
  destruct (Z.leb_spec d MAXDEPTH) as [_|Hgt]; [|lia].
  rewrite (table_get_lookup V curTable _ Hok Hi) in *. cbn [Go.bind].
  destruct (lookup V curTable (index h30 d)) as [[oldLeaf|c]|] eqn:El.
  - rewrite Hfresh.
    apply fresh_bind; [apply quiet_newCompressedTable2_loop|]. intros collisionTable.
    apply fresh_bind; [apply quiet_table_set|]. intros newTable.
    apply fresh_bind; [apply quiet_copyUp|]. intros r. reflexivity.
  - apply IH; [|exact Hfresh].
    pose proof (wf_table_child V d curTable _ _ Hwf Hi El) as Hn.
    apply wf_node_table_inv in Hn as (_ & _ & Hc).
    unfold MAXDEPTH in Hd. rewrite (u64_small (d + 1)) by lia. exact Hc.
  - apply fresh_bind; [apply quiet_table_set|]. intros newTable.
    apply fresh_bind; [apply quiet_copyUp|]. intros r. reflexivity.
Qed.

Hypothesis Hash30_range : forall k, 0 <= Hash30 k < 2 ^ 30.

Lemma Put_fresh : forall (m : Hamt V) (k : key) (v : V),
  wf V m -> holds_hash m (Hash30 k) = false ->
  exists m',
    Put V Hash30 GradeTables m k v = Ok (m', true)
    /\ wf V m'
    /\ nentries m' = Go.u64 (nentries m + 1)
    /\ Get V Hash30 m' k = Ok (Some v)
    /\ forall k', k' <> k -> Get V Hash30 m' k' = Get V Hash30 m k'.
Proof.
  intros m k v Hwf Hfresh.
  pose proof (Put_spec V Hash30 GradeTables Hash30_range m k v Hwf) as Hspec.
  assert (Hout : fresh_outcome (Put V Hash30 GradeTables m k v)).
  { unfold Put, holds_hash, wf in *. destruct (root m) as [t|]; [|reflexivity].
    apply Put_loop_fresh; assumption. }
  assert (Hcount : MapProperties.put_counts V m (Put V Hash30 GradeTables m k v)).
  { unfold Put. destruct (root m); [apply MapProperties.Put_loop_counts|reflexivity]. }
  destruct (Put V Hash30 GradeTables m k v) as [[m' b]|p|].
  - cbn in Hout. subst b. cbn in Hcount. destruct Hspec as (Hwf' & Hk & Hother).
    exists m'. auto.
  - cbn in Hout. contradiction.
  - contradiction.
Qed.

(** The map of one key holds no leaf of another hashcode. *)
Lemma first_key_holds : forall k1 v1 h30, h30 <> Hash30 k1 ->
  holds_hash (mkHamt (Some (newCompressedTable V 0 (Hash30 k1)
                              (NewFlatLeaf V (Hash30 k1) k1 v1))) 1) h30 = false.
Proof.
  intros k1 v1 h30 Hne.
  destruct (newCompressedTable_spec V Hash30 Hash30_range k1 v1) as (E & Hwf0 & _).
  unfold holds_hash. cbn [root]. unfold loop_fuel. cbn [leaf_on_route].
  change (0 <=? MAXDEPTH) with true. cbv iota.
  rewrite table_get_lookup
    by (try (apply index_range; unfold MAXDEPTH; lia); apply (wf_table_ok V 0 _ Hwf0)).
  rewrite E. cbn [lookup].
  pose proof (index_range (Hash30 k1) 0 ltac:(unfold MAXDEPTH; lia)) as Hi.
  destruct (singleton_ok V (index (Hash30 k1) 0)
              (leafNode (NewFlatLeaf V (Hash30 k1) k1 v1)) Hi) as [_ Hl].
  rewrite Hl by (apply index_range; unfold MAXDEPTH; lia).
  destruct (index h30 0 =? index (Hash30 k1) 0); [|reflexivity].
  rewrite (NewFlatLeaf_hashcode V Hash30 Hash30_range). apply Z.eqb_neq. congruence.
Qed.

Lemma Put_two_keys : forall (k1 k2 : key) (v1 v2 : V), Hash30 k1 <> Hash30 k2 ->
  exists m1 m2,
    Put V Hash30 GradeTables EMPTY k1 v1 = Ok (m1, true)
    /\ Put V Hash30 GradeTables m1 k2 v2 = Ok (m2, true)
    /\ nentries m2 = 2
    /\ Get V Hash30 m2 k1 = Ok (Some v1)
    /\ Get V Hash30 m2 k2 = Ok (Some v2)
    /\ forall k', k' <> k1 -> k' <> k2 -> Get V Hash30 m2 k' = Ok None.
Proof.
  intros k1 k2 v1 v2 Hne.
  pose proof (Put_spec V Hash30 GradeTables Hash30_range EMPTY k1 v1 I) as H1.
  set (m1 := mkHamt (Some (newCompressedTable V 0 (Hash30 k1)
                             (NewFlatLeaf V (Hash30 k1) k1 v1))) 1).
  change (Put V Hash30 GradeTables EMPTY k1 v1) with (@Ok (Hamt V * bool) (m1, true)) in H1.
  destruct H1 as (Hwf1 & Hg1 & Ho1).
  destruct (Put_fresh m1 k2 v2 Hwf1 (first_key_holds k1 v1 (Hash30 k2) ltac:(congruence)))
    as (m2 & Hp2 & _ & Hn2 & Hg2 & Ho2).
  exists m1, m2. split; [reflexivity|]. split; [exact Hp2|]. split; [exact Hn2|].
  assert (Hk : k1 <> k2) by congruence.
  split; [rewrite (Ho2 k1 Hk); exact Hg1|]. split; [exact Hg2|].
  intros k' Hk1 Hk2. rewrite (Ho2 k' Hk2), (Ho1 k' Hk1). reflexivity.
Qed.

End WithValues.

(** X25: [Put] on a well-formed map that holds no leaf of the key's
    hashcode (the loop reaches an empty slot or a leaf of another hashcode)
    returns: the flag is true, the size is one more (on [uint]), the map
    returned is well formed, [Get] finds the value of the key in it and
    reads every other key as in the map [Put] was called on. *)
Theorem Put32_new_hashcode :
  forall (V : Type) (Hash30 : key -> Z) (GradeTables : bool),
  (forall k, 0 <= Hash30 k < 2 ^ 30) ->
  forall (m : Hamt V) (k : key) (v : V),
  wf V m -> holds_hash V m (Hash30 k) = false ->
  exists m',
    Put V Hash30 GradeTables m k v = Ok (m', true)
    /\ wf V m'
    /\ nentries m' = Go.u64 (nentries m + 1)
    /\ Get V Hash30 m' k = Ok (Some v)
    /\ forall k', k' <> k -> Get V Hash30 m' k' = Get V Hash30 m k'.
Proof.
  intros V Hash30 GradeTables Hrange m k v Hwf Hfresh.
  apply Put_fresh; assumption.
Qed.

Lemma Put32_new_hashcode_witness :
  exists m',
    Put Z Variant32.first_byte true Variant32.map_1 Variant32.key_33 20 = Ok (m', true)
    /\ wf Z m'
    /\ nentries m' = Go.u64 (nentries Variant32.map_1 + 1)
    /\ Get Z Variant32.first_byte m' Variant32.key_33 = Ok (Some 20)
    /\ forall k', k' <> Variant32.key_33 ->
         Get Z Variant32.first_byte m' k' = Get Z Variant32.first_byte Variant32.map_1 k'.
Proof.
  apply (Put32_new_hashcode Z Variant32.first_byte true Variant32.first_byte_range
           Variant32.map_1 Variant32.key_33 20).
  - exact MapProperties.map_1_wf.
  - vm_compute. reflexivity.
Defined.

(** X26: two keys of different hashcodes put one after the other into the
    empty map: both calls return with the flag true, the size of the map is
    2, [Get] finds each key with its value and finds no other key. *)
Theorem Put32_two_keys :
  forall (V : Type) (Hash30 : key -> Z) (GradeTables : bool),
  (forall k, 0 <= Hash30 k < 2 ^ 30) ->
  forall (k1 k2 : key) (v1 v2 : V), Hash30 k1 <> Hash30 k2 ->
  exists m1 m2,
    Put V Hash30 GradeTables EMPTY k1 v1 = Ok (m1, true)
    /\ Put V Hash30 GradeTables m1 k2 v2 = Ok (m2, true)
    /\ nentries m2 = 2
    /\ Get V Hash30 m2 k1 = Ok (Some v1)
    /\ Get V Hash30 m2 k2 = Ok (Some v2)
    /\ forall k', k' <> k1 -> k' <> k2 -> Get V Hash30 m2 k' = Ok None.
Proof.
  intros V Hash30 GradeTables Hrange k1 k2 v1 v2 Hne.
  apply Put_two_keys; assumption.
Qed.

Lemma Put32_two_keys_witness :
  exists m1 m2,
    Put Z Variant32.first_byte true EMPTY Variant32.key_1 10 = Ok (m1, true)
    /\ Put Z Variant32.first_byte true m1 Variant32.key_33 20 = Ok (m2, true)
    /\ nentries m2 = 2
    /\ Get Z Variant32.first_byte m2 Variant32.key_1 = Ok (Some 10)
    /\ Get Z Variant32.first_byte m2 Variant32.key_33 = Ok (Some 20)
    /\ forall k', k' <> Variant32.key_1 -> k' <> Variant32.key_33 ->
         Get Z Variant32.first_byte m2 k' = Ok None.
Proof.
  apply (Put32_two_keys Z Variant32.first_byte true Variant32.first_byte_range
           Variant32.key_1 Variant32.key_33 10 20).
  vm_compute. discriminate.
Defined.

End FreshHash.

(** * Package hamt32_functional: the size after a sequence of Put and Del *)
Module SizeAccounting.
Import Hamt32 Prefix TrieFacts PutFacts.

(** C5: there are sequences of [Put] and [Del] from the empty map after which
    no size can be read, because the code panics: [Del] on the empty map (the
    method call on the nil root), and a second [Put] of the key of a map of
    size 1 (the type assertion of the log call, before the leaf's [put] is
    called and the size is touched).  Size accounting fails on them, for
    every hash function and table policy. *)
Theorem Put32_Del32_sequences_panic :
  forall (V : Type) (Hash30 : key -> Z) (GradeTables : bool),
  (forall k, 0 <= Hash30 k < 2 ^ 30) ->
  forall (k : key) (v v' : V),
  Del V Hash30 GradeTables EMPTY k = Panic NilDereference
  /\ exists m,
       Put V Hash30 GradeTables EMPTY k v = Ok (m, true)
       /\ nentries m = 1
       /\ Put V Hash30 GradeTables m k v' = Panic InterfaceConversion.
Proof.
  intros V Hash30 GradeTables Hrange k v v'. split; [reflexivity|].
  destruct (Put_same_hash_panics V Hash30 GradeTables Hrange k v k v' eq_refl)
    as (m & Hput & Hsize & _ & Hpanic).
  exists m. split; [exact Hput|]. split; [exact Hsize|]. exact Hpanic.
Qed.

Lemma Put32_Del32_sequences_panic_witness :
  Del Z Variant32.first_byte true EMPTY Variant32.key_1 = Panic NilDereference
  /\ exists m,
       Put Z Variant32.first_byte true EMPTY Variant32.key_1 10 = Ok (m, true)
       /\ nentries m = 1
       /\ Put Z Variant32.first_byte true m Variant32.key_1 20 = Panic InterfaceConversion.
Proof.
  exact (Put32_Del32_sequences_panic Z Variant32.first_byte true
           Variant32.first_byte_range Variant32.key_1 10 20).
Defined.

End SizeAccounting.

(** * Put of package hamt *)
Module Put64.
Import Hamt64 GoFacts Tables64.

Section WithValues.
Variable V : Type.

(** A trie whose tables are all laid out. *)
Inductive wf_table64 : table V -> Prop :=
| wf64_intro : forall t,
    laid_out V t ->
    (forall c, In (tableNode c) (table_nodes V t) -> wf_table64 c) ->
    wf_table64 t.

Definition wf_map64 (h : Hamt V) : Prop :=
  match root h with
  | None => True
  | Some t => wf_table64 t
  end.

(** Where the loop of [Put] stops: at an empty slot, at a leaf, or at
    [MAXDEPTH] without having met either. *)
Inductive slot : Type :=
| EmptySlot
| LeafSlot (l : leafI V)
| NoSlot.

(** The descent of [Put]'s loop alone: the same tests and the same [get]
    calls, without what is built at the slot found. *)
Fixpoint descend (n : nat) (depth hash60 : Z) (curTable : table V) : result slot :=
  match n with
  | O => OutOfFuel
  | S n' =>
      if depth <? MAXDEPTH then
        curNode <- table_get V curTable hash60 ;;
        match curNode with
        | nilNode => Ok EmptySlot
        | leafNode oldLeaf => Ok (LeafSlot oldLeaf)
        | tableNode t => descend n' (Go.u64 (depth + 1)) hash60 t
        end
      else Ok NoSlot
  end.

(** The table [copyUp] compares with the root: the bottom of the recorded
    path, or the table in hand when the path is empty. *)
Fixpoint bottom (path : pathT V) (t : table V) : table V :=
  match path with
  | [] => t
  | parent :: path' => bottom path' parent
  end.

Lemma wf_laid_out : forall t, wf_table64 t -> laid_out V t.
Proof. intros t H. destruct H as [t Hlo _]. exact Hlo. Qed.

Lemma table_get_child : forall (t c : table V) hash,
  table_get V t hash = Ok (tableNode c) -> In (tableNode c) (table_nodes V t).
Proof.
  intros t c hash. unfold table_get. destruct (_ =? 0); [discriminate|].
  unfold Go.index_slice. destruct (_ <? 0); [discriminate|].
  destruct (nth_error _ _) as [nd|] eqn:E; [|discriminate].
  intros H. injection H as ->. eapply nth_error_In. exact E.
Qed.

Lemma wf_child : forall (t c : table V) hash,
  wf_table64 t -> table_get V t hash = Ok (tableNode c) -> wf_table64 c.
Proof.
  intros t c hash Hwf Hget. destruct Hwf as [t _ Hch].
  apply Hch. eapply table_get_child. exact Hget.
Qed.

Lemma table_set_returns : forall (t : table V) hash nd next, laid_out V t ->
  exists t', table_set V t hash nd next = Ok (t', next + 1).
Proof.
  intros t hash nd next Hlo.
  destruct (table_set_slot V t hash nd next Hlo) as (t' & Hs & _).
  exists t'. exact Hs.
Qed.

(** [copyUp] on the map the path was recorded in: every [set] returns and the
    root check compares the root with itself. *)
Lemma copyUp_returns : forall path (h : Hamt V) oldTable newTable next,
  Forall (laid_out V) path ->
  tableI_eqb V (root h) (Some (bottom path oldTable)) = true ->
  exists t next', copyUp V h oldTable newTable path next = Ok (mkHamt (Some t) 0, next').
Proof.
  induction path as [|oldParent path' IH]; intros h oldTable newTable next Hpath Hroot;
    cbn [copyUp bottom] in *.
  - rewrite Hroot. cbn [negb]. do 2 eexists. reflexivity.
  - inversion Hpath as [|p l Hlo Hrest]; subst.
    destruct (table_set_returns oldParent (table_hashcode V oldTable) (tableNode newTable)
                next Hlo) as (newParent & Hset).
    rewrite Hset. cbn [Go.bind]. apply IH; assumption.
Qed.

(** [copyUp] on a map without a root: every [set] returns, and the root
    check fails against any table. *)
Lemma copyUp_nil_root : forall path (h : Hamt V) oldTable newTable next,
  Forall (laid_out V) path -> root h = None ->
  copyUp V h oldTable newTable path next = Panic ExplicitPanic.
Proof.
  induction path as [|oldParent path' IH]; intros h oldTable newTable next Hpath Hroot;
    cbn [copyUp].
  - rewrite Hroot. reflexivity.
  - inversion Hpath as [|p l Hlo Hrest]; subst.
    destruct (table_set_returns oldParent (table_hashcode V oldTable) (tableNode newTable)
                next Hlo) as (newParent & Hset).
    rewrite Hset. cbn [Go.bind]. apply IH; assumption.
Qed.

(** What the loop of [Put] returns, by the slot its descent stops at. *)
Definition loop_outcome (s : slot) (hash60 next : Z) (r : result (Hamt V * bool * Z)) : Prop :=
  match s with
  | EmptySlot => exists next', r = Ok (mkHamt None 0, true, next')
  | LeafSlot oldLeaf =>
      if hash60Equal (Leaves.hashcode oldLeaf) hash60
      then r = Panic ExplicitPanic
      else exists next', r = Ok (mkHamt None 0, true, next')
  | NoSlot => r = Ok (mkHamt None 0, false, next)
  end.

Lemma Put_loop_outcome : forall n (h : Hamt V) depth hash60 k v newLeaf curTable path next,
  0 <= depth -> (Z.to_nat (MAXDEPTH - depth) < n)%nat ->
  wf_table64 curTable -> Forall (laid_out V) path ->
  tableI_eqb V (root h) (Some (bottom path curTable)) = true ->
  exists s,
    descend n depth hash60 curTable = Ok s
    /\ loop_outcome s hash60 next
         (Put_loop V n h (mkHamt None 0) depth hash60 k v newLeaf curTable path next).
Proof.
  induction n as [|n IH];
    intros h depth hash60 k v newLeaf curTable path next Hd Hn Hwf Hpath Hroot; [lia|].
  cbn [Put_loop descend]. unfold MAXDEPTH in Hn.
  destruct (Z.ltb_spec depth MAXDEPTH) as [Hlt|Hge]; unfold MAXDEPTH in *.
  2:{ exists NoSlot. split; reflexivity. }
  pose proof (wf_laid_out curTable Hwf) as Hlo.
  rewrite (table_get_slot V curTable hash60 Hlo).
  pose proof (table_get_slot V curTable hash60 Hlo) as Hget.
  destruct (child_of V curTable (index hash60 (table_depth V curTable)))
    as [|oldLeaf|t]; cbn [Go.bind].
  - exists EmptySlot. split; [reflexivity|]. cbn [loop_outcome].
    destruct (table_set_returns curTable hash60 (leafNode (Leaves.FlatVal newLeaf)) next Hlo)
      as (newTable & Hset).
    rewrite Hset. cbn [Go.bind].
    destruct (copyUp_returns path h curTable newTable (next + 1) Hpath Hroot)
      as (t' & next' & Hup).
    rewrite Hup. cbn [Go.bind]. exists next'. reflexivity.
  - exists (LeafSlot oldLeaf). split; [reflexivity|]. cbn [loop_outcome].
    destruct (hash60Equal (Leaves.hashcode oldLeaf) hash60).
    + destruct (leaf_put V oldLeaf k v) as [newLeaf' newVal].
      unfold path_push. cbn [copyUpLeaf].
      destruct (table_set_returns curTable (Leaves.hashcode oldLeaf) (leafNode newLeaf')
                  next Hlo) as (newTable & Hset).
      rewrite Hset. cbn [Go.bind].
      rewrite (copyUp_nil_root path (mkHamt None 0) curTable newTable (next + 1) Hpath eq_refl).
      reflexivity.
    + destruct (NewCompressedTable2_nil V depth (Z.land hash60 (hashPathMask depth)) oldLeaf
                  (NewFlatLeaf V hash60 k v) next ltac:(unfold MAXDEPTH; lia))
        as (colTable & next1 & Hcol & _).
      rewrite Hcol. cbn [Go.bind].
      destruct (table_set_returns curTable hash60 (tableNode colTable) next1 Hlo)
        as (newTable & Hset).
      rewrite Hset. cbn [Go.bind].
      destruct (copyUp_returns path h curTable newTable (next1 + 1) Hpath Hroot)
        as (t' & next' & Hup).
      rewrite Hup. cbn [Go.bind]. exists next'. reflexivity.
  - rewrite (u64_small (depth + 1)) by lia. unfold path_push.
    apply IH.
    + lia.
    + unfold MAXDEPTH. lia.
    + eapply wf_child; [exact Hwf|exact Hget].
    + constructor; assumption.
    + cbn [bottom]. exact Hroot.
Qed.

Lemma land_idem : forall x m, Z.land (Z.land x m) m = Z.land x m.
Proof. intros x m. rewrite <- Z.land_assoc, Z.land_diag. reflexivity. Qed.

(** [Put] on the empty map: the table of the new leaf, in which [Get] finds
    the key. *)
Lemma Put_empty_Get : forall (h : Hamt V) k v next, root h = None ->
  exists t, Put V h k v next = Ok (mkHamt (Some t) 0, true, next + 1)
            /\ wf_table64 t
            /\ Get V (mkHamt (Some t) 0) k = Ok (Some v).
Proof.
  intros h k v next Hroot. unfold Put. rewrite Hroot.
  set (hash60 := Z.land (hash64 k) sixtyBitMask).
  set (lf := Leaves.FlatVal (NewFlatLeaf V hash60 k v)).
  pose proof (NewCompressedTable_slot V 0 hash60 lf next ltac:(lia)) as H.
  change (0 <=? MAXDEPTH) with true in H. cbv iota in H.
  destruct H as (t & Ht & _ & Hlo & _ & Hget).
  rewrite Ht. cbn [Go.bind nentries]. exists t. split; [reflexivity|]. split.
  - constructor; [exact Hlo|]. intros c Hc.
    unfold NewCompressedTable in Ht. change (0 <? Go.u64 (MAXDEPTH + 1)) with true in Ht.
    cbn [ASSERT Go.bind] in Ht. injection Ht as <-. cbn [table_nodes In] in Hc.
    destruct Hc as [Hc|[]]. discriminate.
  - assert (Hh : Leaves.hashcode lf = hash60).
    { unfold lf, NewFlatLeaf, hash60. cbn [Leaves.hashcode Leaves.fl_hash]. apply land_idem. }
    unfold Get. cbn [root]. fold hash60. rewrite Hget, Hh, Z.eqb_refl. cbn [Go.bind].
    unfold loop_fuel, lf. cbn [Get_loop].
    change (0 <=? MAXDEPTH) with true. cbv iota.
    unfold hashPathEqual. change (Go.u64 (Go.shl64 1 (Go.u64 (0 * NBITS)) - 1)) with 0.
    rewrite !Z.land_0_r. cbn [Z.eqb].
    unfold NewFlatLeaf. cbn [Leaves.get]. unfold Leaves.flatLeaf_get.
    cbn [Leaves.fl_key Leaves.fl_val]. rewrite byteSlicesEqual_refl. reflexivity.
Qed.

End WithValues.

Arguments EmptySlot {V}.
Arguments LeafSlot {V} l.
Arguments NoSlot {V}.


(** The map holding [key_a] only, its table at address 0. *)
Definition map_a : Hamt Z :=
  mkHamt (Some (compressedTable 0 (hashOf Variant64.key_a) 0
                  (Go.shl64 1 (index (hashOf Variant64.key_a) 0))
                  [leafNode (Leaves.FlatVal
                               (Leaves.mkFlatLeaf (hashOf Variant64.key_a) Variant64.key_a 1))]))
         0.

Lemma map_a_wf : wf_map64 Z map_a.
Proof.
  unfold wf_map64, map_a. cbn [root]. constructor.
  - unfold laid_out, MAXDEPTH. cbn [table_depth table_nodeMap table_nodes length].
    vm_compute. intuition congruence.
  - cbn [table_nodes In]. intros c [Hc|[]]. discriminate.
Qed.



End Put64.
